(** * A backtracking CSP solver with forward checking and AC-3

    Shallow embedding of the TypeScript solver (the structured-constraint
    version: [validateConstraints], [recursiveBacktracking],
    [forwardChecking], [arcConsistency], [computeNeighbours],
    [removeInconsistentValues]) and of the Lion-Unicorn problem instance.

    Modelling conventions.
    - A JS object used as a record ([Assignment], [domains], [neighbours])
      is a finite map on its own string keys ([gmap string _]).  Reading a
      missing key is [None], which is the JS [undefined].  Only the number
      of keys and order-insensitive facts about [Object.keys] are used by
      the program, so enumeration order is left to [map_to_list].
    - Values are the primitives the problem instances use: strings,
      booleans and (integer) numbers; [===] is equality of such values.
      [undefined] is not a value, so [typeof o[k] === "undefined"] is
      exactly [o !! k = None].
    - A function that mutates the CSP object it is given takes the object
      and returns the mutated object next to its result.  Call sites that
      depend on which object is mutated ([_.cloneDeep]) go through a store
      of CSP objects addressed by locations.
    - Exceptions ([throw], and the TypeError raised by using [undefined]
      as an array) are the outcome [Throw]; recursion and the work-list
      loop take fuel, and running out of it is the outcome [OutOfFuel]. *)

From stdpp Require Import base option list strings gmap.
From Stdlib Require Import ZArith Lia.

Set Default Proof Using "Type".
Open Scope string_scope.
Open Scope list_scope.
Open Scope nat_scope.

(** ** Values and the data model *)

Inductive jsval : Type :=
  | VString (s : string)
  | VBoolean (b : bool)
  | VNumber (n : Z).

#[global] Instance jsval_eq_dec : EqDecision jsval.
Proof. solve_decision. Defined.

(** [a === b] on values. *)
Definition strictEq (a b : jsval) : bool := bool_decide (a = b).

(** [type Assignment<T> = Record<T, any>] *)
Abbreviation Assignment := (gmap string jsval).

(** [type Constraint<T>]: a tagged union over [ConstraintType]. *)
Inductive Constraint : Type :=
  | MUST_SATISFY (assignment : Assignment)
  | MUST_BE_DISTINCT (variables : list string).

(** [type CSP<T>] *)
Record CSP : Type := mkCSP {
  variables : list string;
  domains : gmap string (list jsval);
  constraints : list Constraint;
  arcs : option (list (string * string));
  neighbours : option (gmap string (list string));
}.

(** [type SolverOptions]; an absent option reads as [undefined], which the
    solver only ever tests for truthiness, hence [false]. *)
Record SolverOptions : Type := mkOptions {
  optForwardChecking : bool;
  optArcConsistency : bool;
}.

(** ** Control flow *)

(** One pass through a loop body either falls through to the next
    iteration with the loop-carried state, or leaves the enclosing
    function. *)
Inductive flow (S R : Type) : Type :=
  | Next (s : S)
  | Return (r : R).
Arguments Next {S R} s.
Arguments Return {S R} r.

(** [for (const x of xs) body], threading the variables the body assigns. *)
Fixpoint for_of {X S R : Type} (body : X → S → flow S R)
    (xs : list X) (s : S) : flow S R :=
  match xs with
  | [] => Next s
  | x :: xs' =>
      match body x s with
      | Next s' => for_of body xs' s'
      | Return r => Return r
      end
  end.

(** ** Constraint validator *)

(** The [MUST_BE_DISTINCT] case for one pair of indices [(i, j)]. *)
Definition distinctPair (assignment : Assignment) (vars : list string)
    (i j : nat) (ranOnce : bool) : flow bool bool :=
  match vars !! i, vars !! j with
  | Some a, Some b =>
      match assignment !! a, assignment !! b with
      | Some va, Some vb =>
          (* ranOnce = true; *)
          if strictEq va vb then Return false else Next true
      | _, _ => Next ranOnce
      end
  | _, _ => Next ranOnce
  end.

(** The [MUST_SATISFY] case.  [target] is [constraint.assignment]. *)
Definition mustSatisfy (assignment target : Assignment)
    (ranOnce : bool) : flow bool bool :=
  let keys := map_to_list target in
  let fail :=
    existsb (λ kv, bool_decide (assignment !! kv.1 = None)) keys in
  if fail then Next ranOnce (* continue *)
  else
    let atLeastTruthy :=
      existsb (λ kv, bool_decide (assignment !! kv.1 = Some kv.2)) keys in
    let atLeastFalsey :=
      existsb (λ kv, negb (bool_decide (assignment !! kv.1 = Some kv.2))) keys in
    if atLeastTruthy && atLeastFalsey then Return false else Next true.

(** The body of [for (const constraint of constraints) switch (...)]. *)
Definition validateBody (assignment : Assignment) (constraint : Constraint)
    (ranOnce : bool) : flow bool bool :=
  match constraint with
  | MUST_BE_DISTINCT vars =>
      (* for (i = 0; i < length - 1; i++) for (j = 1; j < length; j++) *)
      for_of (λ i, for_of (distinctPair assignment vars i)
                     (seq 1 (length vars - 1)))
             (seq 0 (length vars - 1))
             ranOnce
  | MUST_SATISFY target => mustSatisfy assignment target ranOnce
  end.

Definition validateConstraints (assignment : Assignment)
    (constraints : list Constraint) (strict : bool) : bool :=
  match for_of (validateBody assignment) constraints false with
  | Return r => r
  | Next ranOnce => if strict then ranOnce else true
  end.

(** ** Outcomes of fallible code *)

Inductive outcome (A : Type) : Type :=
  | Ok (a : A)
  | Throw
  | OutOfFuel.
Arguments Ok {A} a.
Arguments Throw {A}.
Arguments OutOfFuel {A}.

(** Whether a run came back (with a result or with the absent result). *)
Definition returned {A : Type} (o : outcome A) : bool :=
  match o with
  | Ok _ => true
  | _ => false
  end.

(** What a JS function declared without a return type hands back when some
    paths end in a bare [return;]: [undefined] or a boolean. *)
Inductive jsret : Type :=
  | RUndefined
  | RBool (b : bool).

(** Truthiness, as tested by [if (...)], [!!] and [Array.prototype.find]. *)
Definition truthy (r : jsret) : bool :=
  match r with
  | RBool true => true
  | _ => false
  end.

(** [csp.domains[x] = d] *)
Definition setDomain (csp : CSP) (x : string) (d : list jsval) : CSP :=
  {| variables := variables csp;
     domains := <[x := d]> (domains csp);
     constraints := constraints csp;
     arcs := arcs csp;
     neighbours := neighbours csp |}.

(** [arr.find(pred)] for a callback that can fail. *)
Fixpoint findE {X : Type} (pred : X → outcome bool) (xs : list X)
    : outcome (option X) :=
  match xs with
  | [] => Ok None
  | x :: xs' =>
      match pred x with
      | Ok true => Ok (Some x)
      | Ok false => findE pred xs'
      | Throw => Throw
      | OutOfFuel => OutOfFuel
      end
  end.

(** ** Forward checking *)

(** Body of [for (const variable of otherVariables)].  The loop carries the
    CSP being mutated and [assignmentsToPropagate]; leaving the function
    yields its result together with the CSP as mutated so far. *)
Definition pruneOther (value : jsval) (other : string)
    (s : CSP * list (string * jsval))
    : flow (CSP * list (string * jsval)) (outcome (jsret * CSP)) :=
  let '(csp, assignmentsToPropagate) := s in
  match domains csp !! other with
  | None => Return Throw (* domain.includes on undefined *)
  | Some domain =>
      if bool_decide (value ∈ domain) then
        if Nat.eqb (length domain) 1 then Return (Ok (RUndefined, csp)) (* return; *)
        else
          let domain' := filter (λ x, x ≠ value) domain in
          let csp' := setDomain csp other domain' in
          match domain' with
          | [v] => Next (csp', assignmentsToPropagate ++ [(other, v)])
          | _ => Next (csp', assignmentsToPropagate)
          end
      else Next s
  end.

(** Body of [for (const constraint of csp.constraints) switch (...)]. *)
Definition forwardBody (variable : string) (value : jsval)
    (constraint : Constraint) (s : CSP * list (string * jsval))
    : flow (CSP * list (string * jsval)) (outcome (jsret * CSP)) :=
  match constraint with
  | MUST_BE_DISTINCT vars =>
      if bool_decide (variable ∈ vars) then
        let otherVariables := filter (λ v, v ≠ variable) vars in
        for_of (pruneOther value) otherVariables s
      else Next s
  | MUST_SATISFY _ => Next s
  end.

Fixpoint forwardChecking (fuel : nat) (csp : CSP) (variable : string)
    (value : jsval) : outcome (jsret * CSP) :=
  match fuel with
  | 0 => OutOfFuel
  | S fuel' =>
      let csp := setDomain csp variable [value] in
      match for_of (forwardBody variable value) (constraints csp) (csp, []) with
      | Return r => r
      | Next (csp, assignmentsToPropagate) =>
          match assignmentsToPropagate with
          | [] => Ok (RBool false, csp)
          | _ =>
              (* each recursive call works on _.cloneDeep(csp): the object
                 it mutates is a fresh copy that is dropped afterwards *)
              match findE (λ vx,
                      match forwardChecking fuel' csp vx.1 vx.2 with
                      | Ok (r, _) => Ok (truthy r)
                      | Throw => Throw
                      | OutOfFuel => OutOfFuel
                      end) assignmentsToPropagate with
              | Ok found => Ok (RBool (bool_decide (is_Some found)), csp)
              | Throw => Throw
              | OutOfFuel => OutOfFuel
              end
          end
      end
  end.

(** ** Arc consistency (AC-3) *)

(** The record built by [computeNeighbours]: for each arc [(a, b)], in arc
    order, [b] is appended to the neighbours of [a]. *)
Definition neighboursOf (arcs : list (string * string))
    : gmap string (list string) :=
  foldl (λ nb ab,
           match nb !! ab.1 with
           | None => <[ab.1 := [ab.2]]> nb
           | Some bs => <[ab.1 := bs ++ [ab.2]]> nb
           end) ∅ arcs.

Definition computeNeighbours (csp : CSP) : CSP :=
  match arcs csp, neighbours csp with
  | Some arcs', None =>
      {| variables := variables csp;
         domains := domains csp;
         constraints := constraints csp;
         arcs := arcs csp;
         neighbours := Some (neighboursOf arcs') |}
  | _, _ => csp
  end.

(** Whether [valueX] at [x] finds a [valueY] in [dy] at [y] that the strict
    validator accepts: [typeof dy.find(...) !== "undefined"]. *)
Definition supported (cs : list Constraint) (x y : string)
    (valueX : jsval) (dy : list jsval) : bool :=
  existsb (λ valueY,
             validateConstraints (<[y := valueY]> (<[x := valueX]> ∅)) cs true)
          dy.

(** Body of [for (const valueX of csp.domains[x])]; the loop carries the
    CSP and [removed]. *)
Definition reviseBody (x y : string) (valueX : jsval) (s : CSP * bool)
    : flow (CSP * bool) (outcome (bool * CSP)) :=
  let '(csp, removed) := s in
  match domains csp !! y with
  | None => Return Throw (* csp.domains[y].find on undefined *)
  | Some dy =>
      if supported (constraints csp) x y valueX dy then Next s
      else
        match domains csp !! x with
        | None => Return Throw
        | Some dx => Next (setDomain csp x (filter (λ v, v ≠ valueX) dx), true)
        end
  end.

Definition removeInconsistentValues (csp : CSP) (x y : string)
    : outcome (bool * CSP) :=
  match domains csp !! x with
  | None => Throw (* undefined is not iterable *)
  | Some dx =>
      (* the iterator walks the array that was in place when the loop began *)
      match for_of (reviseBody x y) dx (csp, false) with
      | Return r => r
      | Next (csp', removed) => Ok (removed, csp')
      end
  end.

(** [while (queue.length) { ... }] *)
Fixpoint arcLoop (fuel : nat) (queue : list (string * string)) (csp : CSP)
    : outcome (bool * CSP) :=
  match queue with
  | [] => Ok (false, csp)
  | (x, y) :: queue' =>
      match fuel with
      | 0 => OutOfFuel
      | S fuel' =>
          match removeInconsistentValues csp x y with
          | Ok (true, csp') =>
              match domains csp' !! x with
              | None => Throw
              | Some [] => Ok (true, csp')
              | Some _ =>
                  match neighbours csp' ≫= (.!! x) with
                  | None => Throw (* neighbours[x].map on undefined *)
                  | Some bs =>
                      arcLoop fuel' (queue' ++ map (λ b, (b, x)) bs) csp'
                  end
              end
          | Ok (false, csp') => arcLoop fuel' queue' csp'
          | Throw => Throw
          | OutOfFuel => OutOfFuel
          end
      end
  end.

Definition arcConsistency (fuel : nat) (csp : CSP) : outcome (bool * CSP) :=
  match arcs csp with
  | None => Throw (* "Must provide arcs for AC-3!" *)
  | Some arcs' => arcLoop fuel arcs' (computeNeighbours csp)
  end.

(** ** The store of CSP objects *)

(** The program state the solver runs in: the CSP objects allocated so far,
    addressed by their index, and the global [debugCounter]. *)
Record state : Type := mkState {
  heap : list CSP;
  debugCounter : nat;
}.

(** [_.cloneDeep(csp)]: a fresh object with the same contents. *)
Definition cloneDeep (l : nat) (σ : state) : outcome (nat * state) :=
  match heap σ !! l with
  | None => Throw
  | Some c =>
      Ok (length (heap σ),
          {| heap := heap σ ++ [c]; debugCounter := debugCounter σ |})
  end.

(** Run a function that mutates its CSP argument on the object at [l]. *)
Definition onObject {A : Type} (f : CSP → outcome (A * CSP)) (l : nat)
    (σ : state) : outcome (A * state) :=
  match heap σ !! l with
  | None => Throw
  | Some c =>
      match f c with
      | Ok (a, c') =>
          Ok (a, {| heap := <[l := c']> (heap σ);
                    debugCounter := debugCounter σ |})
      | Throw => Throw
      | OutOfFuel => OutOfFuel
      end
  end.

(** ** Backtracking search *)

(** [csp.variables.find(v => typeof assignment[v] === "undefined")], used as
    a property key: when nothing is found the key is the string
    ["undefined"]. *)
Definition pickUnassigned (vars : list string) (assignment : Assignment)
    : string :=
  default "undefined"
    (List.find (λ v, bool_decide (assignment !! v = None)) vars).

(** [debugCounter += 1] *)
Definition countValidation (σ : state) : state :=
  {| heap := heap σ; debugCounter := debugCounter σ + 1 |}.

Section recursiveBacktracking_body.
(** The body of [recursiveBacktracking], with [rec] standing for the
    recursive call (same [options]) and [fuel] for the fuel handed to
    [forwardChecking] and [arcConsistency]. *)
Context (rec : nat → Assignment → state → outcome (option Assignment * state)).
Context (fuel : nat) (options : SolverOptions) (assignment : Assignment).

(** [for (const value of csp.domains[unassignedVariable]) { ... }], for
    the CSP object at [csp], whose contents are [c]: no statement of the
    loop writes to that object, so its fields are read once. *)
Fixpoint tryValues (csp : nat) (c : CSP) (unassignedVariable : string)
    (values : list jsval) (σ : state)
    : outcome (option Assignment * state) :=
  match values with
  | [] => Ok (None, σ)
  | value :: values' =>
      let newAssignment := <[unassignedVariable := value]> assignment in
      let σ := countValidation σ in
      if validateConstraints newAssignment (constraints c) false then
        match cloneDeep csp σ with
        | Ok (newCsp, σ) =>
            let descend (σ : state) :=
              match rec newCsp newAssignment σ with
              | Ok (Some result, σ) => Ok (Some result, σ)
              | Ok (None, σ) => tryValues csp c unassignedVariable values' σ
              | Throw => Throw
              | OutOfFuel => OutOfFuel
              end in
            if optForwardChecking options then
              match onObject (λ c, forwardChecking fuel c
                                     unassignedVariable value) newCsp σ with
              | Ok (r, σ) =>
                  if truthy r then Ok (None, σ) (* return; *)
                  else descend σ
              | Throw => Throw
              | OutOfFuel => OutOfFuel
              end
            else descend σ
        | Throw => Throw
        | OutOfFuel => OutOfFuel
        end
      else tryValues csp c unassignedVariable values' σ
  end.

(** From "Pick an unassigned variable" to the end of the function. *)
Definition search (csp : nat) (σ : state)
    : outcome (option Assignment * state) :=
  match heap σ !! csp with
  | None => Throw
  | Some c =>
      let unassignedVariable := pickUnassigned (variables c) assignment in
      match domains c !! unassignedVariable with
      | None => Throw (* undefined is not iterable *)
      | Some values => tryValues csp c unassignedVariable values σ
      end
  end.

Definition recursiveBacktracking_body (csp : nat) (σ : state)
    : outcome (option Assignment * state) :=
  match heap σ !! csp with
  | None => Throw
  | Some c =>
      if Nat.eqb (size assignment) (length (variables c))
      then Ok (Some assignment, σ)
      else if optArcConsistency options then
        (* csp = _.cloneDeep(csp); if (arcConsistency(csp)) return; *)
        match cloneDeep csp σ with
        | Ok (csp', σ) =>
            match onObject (arcConsistency fuel) csp' σ with
            | Ok (true, σ) => Ok (None, σ) (* "AC-3 failed!" *)
            | Ok (false, σ) => search csp' σ
            | Throw => Throw
            | OutOfFuel => OutOfFuel
            end
        | Throw => Throw
        | OutOfFuel => OutOfFuel
        end
      else search csp σ
  end.
End recursiveBacktracking_body.

(** [recursiveBacktracking(csp, assignment, options)] on the CSP object at
    location [csp]; [None] is the absent result. *)
Fixpoint recursiveBacktracking (fuel : nat) (csp : nat)
    (assignment : Assignment) (options : SolverOptions) (σ : state)
    : outcome (option Assignment * state) :=
  match fuel with
  | 0 => OutOfFuel
  | S fuel' =>
      recursiveBacktracking_body
        (λ newCsp newAssignment σ,
           recursiveBacktracking fuel' newCsp newAssignment options σ)
        fuel' options assignment csp σ
  end.

(** ** Problem instances *)

(** [copyAndReverse]: the array followed by its pairs swapped. *)
Definition copyAndReverse {A : Type} (arr : list (A * A)) : list (A * A) :=
  arr ++ map (λ ab, (ab.2, ab.1)) arr.

Definition LionUnicorn : CSP := {|
  variables := ["today"; "lion"; "unicorn"];
  domains :=
    <["today" := VString <$> ["Monday"; "Tuesday"; "Wednesday"; "Thursday";
                              "Friday"; "Saturday"; "Sunday"]]>
    (<["lion" := [VBoolean true; VBoolean false]]>
    (<["unicorn" := [VBoolean true; VBoolean false]]> ∅));
  constraints := [
    MUST_SATISFY (<["lion" := VBoolean true]>
                  (<["today" := VString "Thursday"]> ∅));
    MUST_SATISFY (<["lion" := VBoolean false]>
                  (<["today" := VString "Monday"]> ∅));
    MUST_SATISFY (<["unicorn" := VBoolean true]>
                  (<["today" := VString "Sunday"]> ∅));
    MUST_SATISFY (<["unicorn" := VBoolean false]>
                  (<["today" := VString "Thursday"]> ∅))
  ];
  arcs := Some (copyAndReverse [("lion", "today"); ("unicorn", "today")]);
  neighbours := None;
|}.

(** [solve]: the search started on a store that holds only the caller's
    CSP, with the counter at zero; the caller sees the returned assignment. *)
Definition initial (c : CSP) : state := {| heap := [c]; debugCounter := 0 |}.

Definition solve (fuel : nat) (c : CSP) (assignment : Assignment)
    (options : SolverOptions) : outcome (option Assignment) :=
  match recursiveBacktracking fuel 0 assignment options (initial c) with
  | Ok (r, _) => Ok r
  | Throw => Throw
  | OutOfFuel => OutOfFuel
  end.

Definition plain : SolverOptions :=
  {| optForwardChecking := false; optArcConsistency := false |}.
Definition withArcConsistency : SolverOptions :=
  {| optForwardChecking := false; optArcConsistency := true |}.
Definition withForwardChecking : SolverOptions :=
  {| optForwardChecking := true; optArcConsistency := false |}.
Definition withBoth : SolverOptions :=
  {| optForwardChecking := true; optArcConsistency := true |}.

(** ** Small problems and assignments used as examples *)

(** [x ≠ y] over the two given domains; no arcs. *)
Definition pairCSP (dx dy : list jsval) : CSP := {|
  variables := ["x"; "y"];
  domains := <["x" := dx]> (<["y" := dy]> ∅);
  constraints := [MUST_BE_DISTINCT ["x"; "y"]];
  arcs := None;
  neighbours := None;
|}.

(** [x ≠ y], [y ≠ z], where [z] can only be 2. *)
Definition chainCSP : CSP := {|
  variables := ["x"; "y"; "z"];
  domains := <["x" := [VNumber 1; VNumber 2]]>
             (<["y" := [VNumber 1; VNumber 2]]>
             (<["z" := [VNumber 2]]> ∅));
  constraints := [MUST_BE_DISTINCT ["x"; "y"]; MUST_BE_DISTINCT ["y"; "z"]];
  arcs := None;
  neighbours := None;
|}.

(** [w ≠ x], [x ≠ y] with an arc list that lacks the reversed arcs. *)
Definition asymmetricCSP : CSP := {|
  variables := ["w"; "x"; "y"];
  domains := <["w" := [VNumber 1]]>
             (<["x" := [VNumber 1; VNumber 2]]>
             (<["y" := [VNumber 2]]> ∅));
  constraints := [MUST_BE_DISTINCT ["w"; "x"]; MUST_BE_DISTINCT ["x"; "y"]];
  arcs := Some [("w", "x"); ("x", "y")];
  neighbours := None;
|}.

Definition oneTwo : list jsval := [VNumber 1; VNumber 2].

(** [{a: 1, b: 2, c: 3}] as a target and [{a: 1, b: 5}] as an assignment. *)
Definition partialTarget : Assignment :=
  <["a" := VNumber 1]> (<["b" := VNumber 2]> (<["c" := VNumber 3]> ∅)).
Definition partialAssignment : Assignment :=
  <["a" := VNumber 1]> (<["b" := VNumber 5]> ∅).

(** [{today: "Monday", lion: false, unicorn: true}] *)
Definition mondayLiar : Assignment :=
  <["today" := VString "Monday"]>
  (<["lion" := VBoolean false]> (<["unicorn" := VBoolean true]> ∅)).

(** [{x: 1, y: 2, z: 3}], [{x: 1, y: 1}] and [{z: 0}] *)
Definition xyz123 : Assignment :=
  <["x" := VNumber 1]> (<["y" := VNumber 2]> (<["z" := VNumber 3]> ∅)).
Definition clash : Assignment := <["x" := VNumber 1]> (<["y" := VNumber 1]> ∅).
Definition stray : Assignment := <["z" := VNumber 0]> ∅.

(** ** Notions the properties are stated with *)

(** What the caller observes of a run: the result and the counter. *)
Definition observe (o : outcome (option Assignment * state))
    : outcome (option Assignment * nat) :=
  match o with
  | Ok (r, σ) => Ok (r, debugCounter σ)
  | Throw => Throw
  | OutOfFuel => OutOfFuel
  end.

(** A constraint is violated when its case of the switch reaches
    [return false]. *)
Definition violated (A : Assignment) (c : Constraint) : bool :=
  match validateBody A c false with
  | Return _ => true
  | Next _ => false
  end.

(** Whether (and with what) a loop body leaves the function does not
    depend on the loop-carried state. *)
Definition exit_stable {X S R : Type} (body : X → S → flow S R) : Prop :=
  ∀ x s s' r, body x s = Return r → body x s' = Return r.

(** Every domain of [c'] is drawn from the domain the same variable has in
    [c]. *)
Definition domains_shrink (c c' : CSP) : Prop :=
  ∀ z d', domains c' !! z = Some d' → ∃ d, domains c !! z = Some d ∧ d' ⊆ d.

(** Two CSP objects state the same problem: same variables, same
    constraints. *)
Definition same_problem (c c' : CSP) : Prop :=
  variables c' = variables c ∧ constraints c' = constraints c.

(** Every object of [σ] is still there, unchanged, in [σ']. *)
Definition heap_extends (σ σ' : state) : Prop :=
  ∀ l c, heap σ !! l = Some c → heap σ' !! l = Some c.

(** The keys of a partial assignment met during the search: they are all
    variables of the problem, or else every variable is already a key. *)
Definition good_keys (vars : list string) (a : Assignment) : Prop :=
  (∀ k, is_Some (a !! k) → k ∈ vars) ∨ (∀ v, v ∈ vars → is_Some (a !! v)).

(** [A] assigns every variable of [V] and passes the non-strict validator
    on [K]. *)
Definition solution (V : list string) (K : list Constraint)
    (A : Assignment) : Prop :=
  (∀ v, v ∈ V → is_Some (A !! v)) ∧ validateConstraints A K false = true.

(** The arc [(x, y)] is stable in [c]: revising it removes nothing. *)
Definition stable (c : CSP) (x y : string) : Prop :=
  removeInconsistentValues c x y = Ok (false, c).

(** Every value of [x] has a support in the domain of [y]. *)
Definition all_supported (c : CSP) (x y : string) : Prop :=
  ∃ dx, domains c !! x = Some dx ∧
    ∀ vx, vx ∈ dx →
      ∃ dy, domains c !! y = Some dy ∧
            supported (constraints c) x y vx dy = true.

(** What a pass of the revise loop on [x] keeps of the CSP it started
    from: everything but the domain of [x], which can only shrink. *)
Record revised (x : string) (c c' : CSP) : Prop := mkRevised {
  revised_variables : variables c' = variables c;
  revised_constraints : constraints c' = constraints c;
  revised_arcs : arcs c' = arcs c;
  revised_neighbours : neighbours c' = neighbours c;
  revised_others : ∀ z, z ≠ x → domains c' !! z = domains c !! z;
  revised_domain : ∀ dx, domains c !! x = Some dx →
                     ∃ dx', domains c' !! x = Some dx' ∧ dx' ⊆ dx;
}.

(** ** Further notions: what the validator needs to evaluate a constraint *)

(** The constraint has the assigned variables it needs for the validator to
    set [ranOnce]: every target variable for [MUST_SATISFY], the two
    variables at some pair of indices the loops visit for
    [MUST_BE_DISTINCT]. *)
Definition evaluated (A : Assignment) (c : Constraint) : Prop :=
  match c with
  | MUST_SATISFY target => ∀ k, is_Some (target !! k) → is_Some (A !! k)
  | MUST_BE_DISTINCT vars =>
      ∃ i j a b,
        i < length vars - 1 ∧ 1 ≤ j < length vars ∧
        vars !! i = Some a ∧ vars !! j = Some b ∧
        is_Some (A !! a) ∧ is_Some (A !! b)
  end.

(** [{x: 1, y: 2}] *)
Definition xy12 : Assignment := <["x" := VNumber 1]> (<["y" := VNumber 2]> ∅).

(** ** Further notions: pruning and its cost *)

(** [c'] is [c] with values removed from some domains, the order of the
    remaining values kept; variables, constraints, arcs and the set of
    variables that have a domain are the same. *)
Definition only_pruned (c c' : CSP) : Prop :=
  variables c' = variables c ∧ constraints c' = constraints c ∧
  arcs c' = arcs c ∧
  ∀ z, match domains c !! z, domains c' !! z with
       | Some d, Some d' => d' `sublist_of` d
       | None, None => True
       | _, _ => False
       end.

(** The number of values in all domains together. *)
Definition domainSize (c : CSP) : nat :=
  sum_list (length <$> (map_to_list (domains c)).*2).

(** The number of entries in all neighbour lists together. *)
Definition neighbourCount (nb : gmap string (list string)) : nat :=
  sum_list (length <$> (map_to_list nb).*2).

(** Fuel that is enough for [arcConsistency]: one unit per initial arc,
    and for every value that can be removed one unit plus one per arc the
    removal can queue. *)
Definition arcFuel (c : CSP) : nat :=
  match arcs c with
  | None => 0
  | Some arcs' =>
      length arcs' +
      domainSize c *
        S (neighbourCount (default (neighboursOf arcs') (neighbours c)))
  end.

(** The assignment [{x: valueX, y: valueY}] that [removeInconsistentValues]
    hands to the validator. *)
Definition pairAssignment (x y : string) (valueX valueY : jsval) : Assignment :=
  <[y := valueY]> (<[x := valueX]> ∅).

(** Two variables with an arc between them and no constraint at all. *)
Definition unrelatedCSP : CSP := {|
  variables := ["x"; "y"];
  domains := <["x" := oneTwo]> (<["y" := oneTwo]> ∅);
  constraints := [];
  arcs := Some (copyAndReverse [("x", "y")]);
  neighbours := None;
|}.

(** [value] has been pruned from the domain of [other]. *)
Definition pruned_from (value : jsval) (c : CSP) (other : string) : Prop :=
  ∃ d, domains c !! other = Some d ∧ value ∉ d.

(** The domain of [z] in [c'] is the one it has in [c], or that one
    without [value]. *)
Definition same_or_without (value : jsval) (c c' : CSP) (z : string) : Prop :=
  domains c' !! z = domains c !! z ∨
  ∃ d, domains c !! z = Some d ∧
       domains c' !! z = Some (filter (λ x, x ≠ value) d).

(** ** The Australia instance *)

(** [const AUSTRALIA_VARIABLES] *)
Definition AUSTRALIA_VARIABLES : list string :=
  ["WA"; "NT"; "Q"; "NSW"; "V"; "SA"; "T"].

(** The list of bordering regions that the instance spells out twice,
    for its constraints and for its arcs. *)
Definition australiaBorders : list (string * string) :=
  [("SA", "WA"); ("SA", "NT"); ("SA", "Q"); ("SA", "NSW"); ("SA", "V");
   ("WA", "NT"); ("NT", "Q"); ("Q", "NSW"); ("NSW", "V")].

Definition Australia : CSP := {|
  variables := AUSTRALIA_VARIABLES;
  domains :=
    foldl (λ prev cur, <[cur := VString <$> ["red"; "green"; "blue"]]> prev)
          ∅ AUSTRALIA_VARIABLES;
  constraints := map (λ ab, MUST_BE_DISTINCT [ab.1; ab.2]) australiaBorders;
  arcs := Some (copyAndReverse australiaBorders);
  neighbours := None;
|}.

(** ** The basic solver (cspBasic.ts)

    The same search over a CSP whose constraints are one function from
    partial assignments to booleans; no options, no cloning.  The function
    is taken as a total predicate without effects. *)

Module Basic.

(** [type CSP<T>] *)
Record CSP : Type := mkCSP {
  variables : list string;
  domains : gmap string (list jsval);
  constraints : Assignment → bool;
}.

Section recursiveBacktracking_body.
(** [rec] stands for the recursive call (on the same [csp]). *)
Context (rec : Assignment → outcome (option Assignment)).
Context (csp : CSP) (assignment : Assignment) (unassignedVariable : string).

(** [for (const value of csp.domains[unassignedVariable]) { ... }] *)
Fixpoint tryValues (values : list jsval) : outcome (option Assignment) :=
  match values with
  | [] => Ok None
  | value :: values' =>
      let newAssignment := <[unassignedVariable := value]> assignment in
      if constraints csp newAssignment then
        match rec newAssignment with
        | Ok (Some result) => Ok (Some result)
        | Ok None => tryValues values'
        | Throw => Throw
        | OutOfFuel => OutOfFuel
        end
      else tryValues values'
  end.
End recursiveBacktracking_body.

Fixpoint recursiveBacktracking (fuel : nat) (csp : CSP)
    (assignment : Assignment) : outcome (option Assignment) :=
  match fuel with
  | 0 => OutOfFuel
  | S fuel' =>
      if Nat.eqb (size assignment) (length (variables csp))
      then Ok (Some assignment)
      else
        let unassignedVariable := pickUnassigned (variables csp) assignment in
        match domains csp !! unassignedVariable with
        | None => Throw (* undefined is not iterable *)
        | Some values =>
            tryValues (recursiveBacktracking fuel' csp) csp assignment
              unassignedVariable values
        end
  end.

(** [const AUSTRALIA_VARIABLES] *)
Definition AUSTRALIA_VARIABLES : list string :=
  ["WA"; "NT"; "Q"; "NSW"; "V"; "SA"; "T"].

(** [Australia.constraints]: no pair of the list, with both values
    assigned, has equal values.  The two-element arrays are pairs,
    [undefined] is [None], and [!pairs.find(...)] is true when nothing is
    found (a found pair is an array, which is truthy). *)
Definition Australia_constraints (assignment : Assignment) : bool :=
  negb (bool_decide (is_Some (
    List.find (λ ab : option jsval * option jsval, bool_decide (ab.1 = ab.2))
      (List.filter
         (λ values : option jsval * option jsval,
            bool_decide (values.1 ≠ None) && bool_decide (values.2 ≠ None))
         (map (λ variables : string * string,
                 (assignment !! variables.1, assignment !! variables.2))
              [("SA", "WA"); ("SA", "NT"); ("SA", "Q"); ("SA", "NSW");
               ("SA", "V"); ("WA", "NT"); ("NT", "Q"); ("Q", "NSW");
               ("NSW", "V")]))))).

Definition Australia : CSP := {|
  variables := AUSTRALIA_VARIABLES;
  domains :=
    foldl (λ prev cur, <[cur := VString <$> ["red"; "green"; "blue"]]> prev)
          ∅ AUSTRALIA_VARIABLES;
  constraints := Australia_constraints;
|}.

(** [o[k]] for an object literal given as its entries in insertion
    order. *)
Definition property (o : list (string * jsval)) (k : string) : option jsval :=
  snd <$> List.find (λ kv, bool_decide (kv.1 = k)) o.

(** The callback that [LionUnicorn.constraints] hands to [find]: the key
    of the rule object other than [today] is assigned, with the rule's
    value, and [today] differs from the rule's day.  (The callback
    returns [true] or nothing.) *)
Definition LionUnicorn_rule_broken (assignment : Assignment)
    (constraint : list (string * jsval)) : bool :=
  let target :=
    default "undefined"
      (List.find (λ x, bool_decide (x ≠ "today")) (map fst constraint)) in
  match assignment !! target with
  | None => false
  | Some v =>
      bool_decide (Some v = property constraint target) &&
      negb (bool_decide (assignment !! "today" = property constraint "today"))
  end.

(** [LionUnicorn.constraints]: accepted when [today] is unassigned,
    otherwise when [find] comes back with no broken rule. *)
Definition LionUnicorn_constraints (assignment : Assignment) : bool :=
  match assignment !! "today" with
  | None => true
  | Some _ =>
      negb (bool_decide (is_Some (
        List.find (LionUnicorn_rule_broken assignment)
          [[("lion", VBoolean true); ("today", VString "Thursday")];
           [("lion", VBoolean false); ("today", VString "Monday")];
           [("unicorn", VBoolean true); ("today", VString "Sunday")];
           [("unicorn", VBoolean false); ("today", VString "Thursday")]])))
  end.

Definition LionUnicorn : CSP := {|
  variables := ["today"; "lion"; "unicorn"];
  domains :=
    <["today" := VString <$> ["Monday"; "Tuesday"; "Wednesday"; "Thursday";
                              "Friday"; "Saturday"; "Sunday"]]>
    (<["lion" := [VBoolean true; VBoolean false]]>
    (<["unicorn" := [VBoolean true; VBoolean false]]> ∅));
  constraints := LionUnicorn_constraints;
|}.

End Basic.

(** The problem of the full solver as the basic solver sees it: the
    constraints become the predicate "the non-strict validator accepts". *)
Definition toBasic (c : CSP) : Basic.CSP := {|
  Basic.variables := variables c;
  Basic.domains := domains c;
  Basic.constraints := λ a, validateConstraints a (constraints c) false;
|}.

(** The result of a run, without the final state. *)
Definition resultOf {A B : Type} (o : outcome (A * B)) : outcome A :=
  match o with
  | Ok (r, _) => Ok r
  | Throw => Throw
  | OutOfFuel => OutOfFuel
  end.

(** [S] gives every variable a value from its domain. *)
Definition total_on (vars : list string) (D : gmap string (list jsval))
    (S : Assignment) : Prop :=
  ∀ v, v ∈ vars → ∃ x d, S !! v = Some x ∧ D !! v = Some d ∧ x ∈ d.

(** A predicate on assignments that, once it accepts an assignment,
    accepts every part of it. *)
Definition downward_closed (P : Assignment → bool) : Prop :=
  ∀ a a' : Assignment, a ⊆ a' → P a' = true → P a = true.

(** [x ≠ y] over the two given domains, for the basic solver. *)
Definition basicPair (dx dy : list jsval) : Basic.CSP :=
  toBasic (pairCSP dx dy).

(** Every entry of [A] is an entry of [a] or a value from the domain its
    variable has in [c]. *)
Definition from_domains (c : CSP) (a A : Assignment) : Prop :=
  ∀ k x, A !! k = Some x →
    a !! k = Some x ∨ ∃ d, domains c !! k = Some d ∧ x ∈ d.

(** [A] keeps every part of [a] that has no entry under ["undefined"],
    the key the search falls back to when it finds no unassigned
    variable. *)
Definition keeps (a A : Assignment) : Prop :=
  ∀ a0 : Assignment, a0 ⊆ a → a0 !! "undefined" = None → a0 ⊆ A.

(** Fuel that is enough for the search under any options: the number of
    variables still to assign, what AC-3 and forward checking need, and
    two. *)
Definition solveFuel (c : CSP) (a : Assignment) : nat :=
  length (variables c) - size a + arcFuel c + domainSize c + 2.

(** [c'] has the variables of [c] and needs no more fuel: its domains
    hold no more values, and AC-3 needs no more on it. *)
Definition no_larger (c c' : CSP) : Prop :=
  variables c' = variables c ∧ arcFuel c' ≤ arcFuel c ∧
  domainSize c' ≤ domainSize c.

(** ** Further notions: what pruning costs the search *)

(** [d'] is [d] with some occurrences left out, each of a value that
    satisfies [B]. *)
Inductive pruned (B : jsval → Prop) : list jsval → list jsval → Prop :=
  | pruned_nil : pruned B [] []
  | pruned_keep x d d' : pruned B d d' → pruned B (x :: d) (x :: d')
  | pruned_drop x d d' : B x → pruned B d d' → pruned B (x :: d) d'.

(** The same for a domain that may be missing. *)
Definition domain_pruned (B : jsval → Prop) (d d' : option (list jsval))
    : Prop :=
  match d, d' with
  | Some d, Some d' => pruned B d d'
  | None, None => True
  | _, _ => False
  end.

(** [u] and [z] occur together in a [MUST_BE_DISTINCT] constraint. *)
Definition shares (K : list Constraint) (u z : string) : Prop :=
  ∃ vars, MUST_BE_DISTINCT vars ∈ K ∧ u ∈ vars ∧ z ∈ vars.

(** [x] cannot be given to [z]: another variable that shares a
    [MUST_BE_DISTINCT] constraint with [z] already has it. *)
Definition blocked (a : Assignment) (K : list Constraint) (z : string)
    (x : jsval) : Prop :=
  ∃ v, a !! v = Some x ∧ v ≠ z ∧ shares K v z.

(** [c'] is a clone of [c] as forward checking leaves it when the search
    has reached [a]: the domains of the unassigned variables have lost
    blocked values only. *)
Definition forward_checked (a : Assignment) (c c' : CSP) : Prop :=
  variables c' = variables c ∧ constraints c' = constraints c ∧
  ∀ z, a !! z = None →
    domain_pruned (blocked a (constraints c) z)
      (domains c !! z) (domains c' !! z).

(** For every value of [d], it is still in [d'] or it satisfies [B]. *)
Definition domain_kept (B : jsval → Prop) (d d' : option (list jsval))
    : Prop :=
  match d, d' with
  | Some d, Some d' => ∀ v, v ∈ d → v ∈ d' ∨ B v
  | None, None => True
  | _, _ => False
  end.

(** [x] at [z] leads nowhere from [a]: the validator rejects every
    assignment that extends [a], gives every variable of [c] a value from
    its domain and gives [z] the value [x]. *)
Definition hopeless (a : Assignment) (c : CSP) (z : string) (x : jsval)
    : Prop :=
  ∀ S : Assignment,
    a ⊆ S → total_on (variables c) (domains c) S → S !! z = Some x →
    validateConstraints S (constraints c) false = false.

(** Nothing leads anywhere from [a]. *)
Definition dead (a : Assignment) (c : CSP) : Prop :=
  ∀ S : Assignment,
    a ⊆ S → total_on (variables c) (domains c) S →
    validateConstraints S (constraints c) false = false.

(** Some constraint has what the validator needs to evaluate it as soon
    as [x] and [y] are assigned. *)
Definition related (K : list Constraint) (x y : string) : Prop :=
  ∃ k, k ∈ K ∧
    ∀ A : Assignment, is_Some (A !! x) → is_Some (A !! y) → evaluated A k.

(** An arc between two variables of [c] that a constraint relates. *)
Definition arc_ok (c : CSP) (xy : string * string) : Prop :=
  xy.1 ∈ variables c ∧ xy.2 ∈ variables c ∧ related (constraints c) xy.1 xy.2.

(** The neighbour record, if there is one, lists ends of such arcs. *)
Definition neighbours_ok (c c' : CSP) : Prop :=
  ∀ nb x bs b,
    neighbours c' = Some nb → nb !! x = Some bs → b ∈ bs → arc_ok c (b, x).

(** The arc list, if there is one, holds such arcs only, and so does the
    neighbour record. *)
Definition arcs_ok (c : CSP) : Prop :=
  (∀ arcs' xy, arcs c = Some arcs' → xy ∈ arcs' → arc_ok c xy) ∧
  neighbours_ok c c.

(** The domains of [c'] are those of [c] without some hopeless values,
    the order of the values kept where the variable is unassigned. *)
Definition domains_sound (a : Assignment) (c c' : CSP) : Prop :=
  ∀ z,
    domain_kept (hopeless a c z) (domains c !! z) (domains c' !! z) ∧
    (a !! z = None →
     domain_pruned (hopeless a c z) (domains c !! z) (domains c' !! z)).

(** [c'] is a clone of [c] as forward checking and AC-3 leave it when
    the search has reached [a]. *)
Definition soundly_pruned (a : Assignment) (c c' : CSP) : Prop :=
  variables c' = variables c ∧ constraints c' = constraints c ∧
  arcs c' = arcs c ∧ neighbours_ok c c' ∧ domains_sound a c c'.

(** Every value of [a] is in the domain of its variable. *)
Definition within_domains (c : CSP) (a : Assignment) : Prop :=
  ∀ k x, a !! k = Some x → ∃ d, domains c !! k = Some d ∧ x ∈ d.

(** The values of [lion] and [unicorn], where assigned, are booleans. *)
Definition boolean_answers (a : Assignment) : Prop :=
  ∀ k v, k = "lion" ∨ k = "unicorn" → a !! k = Some v → ∃ b, v = VBoolean b.

(** What the pruning options are sound for: distinct variables that all
    have a domain, and arcs between variables that a constraint
    relates. *)
Definition well_formed (c : CSP) : Prop :=
  NoDup (variables c) ∧
  (∀ v, v ∈ variables c → is_Some (domains c !! v)) ∧
  arcs_ok c.

(** [{today: "Thursday", lion: true, unicorn: false}] *)
Definition thursdayAnswer : Assignment :=
  <["today" := VString "Thursday"]>
  (<["lion" := VBoolean true]> (<["unicorn" := VBoolean false]> ∅)).

(** ** Clustering (the Scala program that follows the basic solver)

    Agglomerative clustering of points with integer coordinates, on the
    Manhattan distance with complete linkage.  Scala's [Int] is a 32-bit
    integer in two's complement; [.max], [.min] and [.reduce] throw on
    the empty list, which is the result [None]. *)

Module Clustering.

(** The 32-bit integer that [z] is taken for. *)
Definition wrap (z : Z) : Z :=
  ((z + 2147483648) `mod` 4294967296 - 2147483648)%Z.

Definition add (a b : Z) : Z := wrap (a + b).
Definition sub (a b : Z) : Z := wrap (a - b).
(** [math.abs] *)
Definition abs (a : Z) : Z := wrap (Z.abs a).

(** [type Coord = (Int, Int, Int)] *)
Definition Coord : Type := Z * Z * Z.

(** [xs.reduce(op)] *)
Definition reduce {A : Type} (op : A → A → A) (xs : list A) : option A :=
  match xs with
  | [] => None
  | x :: xs' => Some (foldl op x xs')
  end.

(** [xs.max] and [xs.min] *)
Definition maxOf (xs : list Z) : option Z := reduce Z.max xs.
Definition minOf (xs : list Z) : option Z := reduce Z.min xs.

(** [manhattanDistance]: the three pairs of [a zip b], in order; the
    list that is reduced has three elements. *)
Definition manhattanDistance (a b : Coord) : Z :=
  let '(a1, a2, a3) := a in
  let '(b1, b2, b3) := b in
  default 0%Z
    (reduce add (map (λ lr : Z * Z, abs (sub lr.1 lr.2))
                     [(a1, b1); (a2, b2); (a3, b3)])).

(** The distance from cluster [a] to cluster [b] inside
    [minimumDistances]: the largest distance between a point of [a] and
    a point of [b]. *)
Definition linkage (a b : list Coord) : option Z :=
  maxOf (concat (map (λ left, map (λ right, manhattanDistance left right) b)
                     a)).

(** [minimumDistances]: for each cluster the least distance to a cluster
    that is different from it. *)
Definition minimumDistances (clusters : list (list Coord))
    : option (list Z) :=
  mapM (λ a, mapM (linkage a) (filter (λ b, b ≠ a) clusters) ≫= minOf)
       clusters.

(** [iterate]: the clusters at the shortest distance are merged into one
    cluster, put in front of the others. *)
Definition iterate (input : list (list Coord))
    : option (Z * list (list Coord)) :=
  distances ← minimumDistances input;
  shortestDistance ← minOf distances;
  let clusters :=
    (filter (λ p : list Coord * Z, p.2 ≠ shortestDistance)
            (zip input distances)).*1 in
  let newCluster :=
    concat ((filter (λ p : list Coord * Z, p.2 = shortestDistance)
                    (zip input distances)).*1) in
  Some (shortestDistance, newCluster :: clusters).

(** [iterToCompletion]; the result is the list of the distances
    printed. *)
Fixpoint iterToCompletion (fuel : nat) (input : list (list Coord))
    : outcome (list Z) :=
  match fuel with
  | 0 => OutOfFuel
  | S fuel' =>
      if length input <=? 1 then Ok []
      else
        match iterate input with
        | None => Throw
        | Some (shortestDistance, newList) =>
            match iterToCompletion fuel' newList with
            | Ok printed => Ok (shortestDistance :: printed)
            | Throw => Throw
            | OutOfFuel => OutOfFuel
            end
        end
  end.

(** [val data] *)
Definition data : list (list Coord) :=
  map (λ p : Coord, [p])
    [(367, 174, 3); (409, 359, 328); (229, 427, 206); (121, 423, 333);
     (107, 375, 499); (122, 422, 331); (2, 446, 21); (127, 439, 328);
     (250, 83, 350); (418, 403, 315)]%Z.

End Clustering.

(** * Properties *)

(** ** Loops *)

Section for_of.
Context {X S R : Type}.
Implicit Types (body : X → S → flow S R) (xs : list X).

(** Loop invariant rule: [I] holds of the carried state as long as the
    loop runs, [Q] of whatever an early exit hands back. *)
Lemma for_of_inv (I : S → Prop) (Q : R → Prop) body xs s :
  I s →
  (∀ x s, x ∈ xs → I s →
     match body x s with Next s' => I s' | Return r => Q r end) →
  match for_of body xs s with Next s' => I s' | Return r => Q r end.
Proof.
  revert s. induction xs as [|x xs IH]; intros s Hs Hbody; simpl; [done|].
  pose proof (Hbody x s (list_elem_of_here _ _) Hs) as Hx.
  destruct (body x s) as [s'|r]; [|done].
  apply IH; [done|]. intros y t Hy. apply Hbody. by apply list_elem_of_further.
Qed.

Lemma for_of_cons body x xs s :
  for_of body (x :: xs) s =
  match body x s with
  | Next s' => for_of body xs s'
  | Return r => Return r
  end.
Proof. done. Qed.

End for_of.

(** ** Constraint validator *)

Section state_independent_exit.
Context {X S R : Type}.

Lemma for_of_exit_stable (body : X → S → flow S R) xs :
  exit_stable body → ∀ s s' r,
    for_of body xs s = Return r → for_of body xs s' = Return r.
Proof.
  intros Hst. induction xs as [|x xs IH]; intros s s' r; simpl; [done|].
  destruct (body x s) as [t|r0] eqn:Hs.
  - destruct (body x s') as [t'|r1] eqn:Hs'.
    + apply IH.
    + apply (Hst x s' s) in Hs'. congruence.
  - intros [= <-]. by rewrite (Hst x s s' r0 Hs).
Qed.
(** With such bodies the loop leaves early exactly when the body of some
    element does. *)
Lemma for_of_Return_iff (body : X → S → flow S R) xs s :
  exit_stable body →
  (∃ r, for_of body xs s = Return r) ↔
  (∃ x, x ∈ xs ∧ ∃ r, body x s = Return r).
Proof.
  intros Hst. revert s. induction xs as [|x xs IH]; intros s.
  { split; [by intros [r ?]|by intros (x & ?%elem_of_nil & _)]. }
  rewrite for_of_cons. destruct (body x s) as [t|r] eqn:Hx.
  - rewrite IH. split.
    + intros (y & Hy & r & Hr). exists y. split; [by right|].
      exists r. by apply (Hst y t s).
    + intros (y & [->|Hy]%elem_of_cons & r & Hr); [congruence|].
      exists y. split; [done|]. exists r. by apply (Hst y s t).
  - split; [|by eauto]. intros _. exists x. split; [by left|by eauto].
Qed.
End state_independent_exit.

Lemma distinctPair_exit_stable A vars i : exit_stable (distinctPair A vars i).
Proof.
  intros j s s' r. unfold distinctPair.
  repeat case_match; congruence.
Qed.

Lemma distinctPair_Return A vars i j s r :
  distinctPair A vars i j s = Return r → r = false.
Proof. unfold distinctPair. repeat case_match; congruence. Qed.

Lemma validateBody_exit_stable A : exit_stable (validateBody A).
Proof.
  intros [target|vars] s s' r; simpl.
  - unfold mustSatisfy. repeat case_match; congruence.
  - apply for_of_exit_stable. intros i t t' r'.
    apply for_of_exit_stable, distinctPair_exit_stable.
Qed.

Lemma validateBody_Return A c s r : validateBody A c s = Return r → r = false.
Proof.
  destruct c as [target|vars]; simpl.
  - unfold mustSatisfy. repeat case_match; congruence.
  - intros Hrun.
    pose proof (for_of_inv (λ _, True) (λ r, r = false)
      (λ i, for_of (distinctPair A vars i) (seq 1 (length vars - 1)))
      (seq 0 (length vars - 1)) s I) as Hinv.
    rewrite Hrun in Hinv. apply Hinv. intros i t _ _.
    pose proof (for_of_inv (λ _, True) (λ r, r = false)
      (distinctPair A vars i) (seq 1 (length vars - 1)) t I) as Hinner.
    destruct (for_of (distinctPair A vars i) _ t) eqn:Hin; [done|].
    apply Hinner. intros j u _ _.
    destruct (distinctPair A vars i j u) eqn:Hp; [done|].
    by eapply distinctPair_Return.
Qed.

Lemma violated_Return A c s :
  violated A c = true ↔ validateBody A c s = Return false.
Proof.
  unfold violated. split.
  - destruct (validateBody A c false) as [|r] eqn:Hb; [done|]. intros _.
    pose proof (validateBody_Return _ _ _ _ Hb) as ->.
    by apply (validateBody_exit_stable A c false s).
  - intros Hs. by rewrite (validateBody_exit_stable A c s false false Hs).
Qed.

Lemma violated_Next A c s :
  violated A c = false ↔ ∃ s', validateBody A c s = Next s'.
Proof.
  split.
  - intros Hv. destruct (validateBody A c s) as [s'|r] eqn:Hb; [eauto|].
    pose proof (validateBody_Return _ _ _ _ Hb) as ->.
    apply violated_Return in Hb. congruence.
  - intros [s' Hs]. destruct (violated A c) eqn:Hv; [|done].
    apply (violated_Return A c s) in Hv. congruence.
Qed.

(** The non-strict validator fails exactly when some constraint is
    violated. *)
Lemma validateConstraints_violated A cs :
  validateConstraints A cs false = negb (existsb (violated A) cs).
Proof.
  unfold validateConstraints. generalize false at 1 as s.
  induction cs as [|c cs IH]; intros s; simpl; [done|].
  destruct (violated A c) eqn:Hv.
  - apply (violated_Return A c s) in Hv. by rewrite Hv.
  - apply (violated_Next A c s) in Hv as [s' ->]. apply IH.
Qed.

Lemma validateConstraints_app A pre post :
  validateConstraints A (pre ++ post) false =
  validateConstraints A pre false && validateConstraints A post false.
Proof.
  rewrite !validateConstraints_violated, existsb_app. by destruct (existsb _ pre).
Qed.

Lemma validateConstraints_cons A c cs :
  validateConstraints A (c :: cs) false =
  negb (violated A c) && validateConstraints A cs false.
Proof.
  rewrite !validateConstraints_violated. simpl. by rewrite negb_orb.
Qed.

Lemma existsb_map_to_list (P : string → jsval → bool) (target : Assignment) :
  existsb (λ kv, P kv.1 kv.2) (map_to_list target) = true ↔
  ∃ k v, target !! k = Some v ∧ P k v = true.
Proof.
  rewrite existsb_exists. split.
  - intros ([k v] & Hin & HP).
    apply list_elem_of_In, elem_of_map_to_list in Hin. eauto.
  - intros (k & v & Hkv & HP). exists (k, v). split; [|done].
    by apply list_elem_of_In, elem_of_map_to_list.
Qed.

(** When a [MUST_SATISFY] constraint is violated. *)
Lemma violated_MUST_SATISFY A target :
  violated A (MUST_SATISFY target) = true ↔
    (∀ k, is_Some (target !! k) → is_Some (A !! k)) ∧
    (∃ k v, target !! k = Some v ∧ A !! k = Some v) ∧
    (∃ k v, target !! k = Some v ∧ A !! k ≠ Some v).
Proof.
  unfold violated; simpl. unfold mustSatisfy.
  pose proof (existsb_map_to_list
    (λ k _, bool_decide (A !! k = None)) target) as Hfail.
  pose proof (existsb_map_to_list
    (λ k v, bool_decide (A !! k = Some v)) target) as Ht.
  pose proof (existsb_map_to_list
    (λ k v, negb (bool_decide (A !! k = Some v))) target) as Hf.
  simpl in Hfail, Ht, Hf.
  assert ((∀ k, is_Some (target !! k) → is_Some (A !! k)) ↔
          ¬ ∃ k v, target !! k = Some v ∧ bool_decide (A !! k = None) = true)
    as Hall.
  { split.
    - intros Hall (k & v & Hkv & Hk). apply bool_decide_eq_true in Hk.
      destruct (Hall k) as [w Hw]; [eauto|congruence].
    - intros Hno k [v Hkv]. destruct (A !! k) as [w|] eqn:HA; [eauto|].
      destruct Hno. exists k, v. by rewrite HA, bool_decide_eq_true. }
  rewrite Hall, <-Hfail. clear Hall Hfail.
  assert ((∃ k v, target !! k = Some v ∧ A !! k = Some v) ↔
          ∃ k v, target !! k = Some v ∧ bool_decide (A !! k = Some v) = true)
    as ->.
  { by setoid_rewrite bool_decide_eq_true. }
  assert ((∃ k v, target !! k = Some v ∧ A !! k ≠ Some v) ↔
          ∃ k v, target !! k = Some v ∧
                 negb (bool_decide (A !! k = Some v)) = true)
    as ->.
  { setoid_rewrite negb_true_iff. by setoid_rewrite bool_decide_eq_false. }
  rewrite <-Ht, <-Hf. clear Ht Hf.
  destruct (existsb (λ kv : string * jsval, bool_decide (A !! kv.1 = None)) _);
    [intuition congruence|].
  destruct (existsb (λ kv : string * jsval,
              bool_decide (A !! kv.1 = Some kv.2)) _); simpl;
    [|intuition congruence].
  destruct (existsb (λ kv : string * jsval,
              negb (bool_decide (A !! kv.1 = Some kv.2))) _);
    intuition congruence.
Qed.




(** *** Distinctness *)

(** What the two nested loops of the [MUST_BE_DISTINCT] case test: the
    constraint is violated when some index [i] below [length - 1] and some
    index [j] from [1] on (not necessarily different from [i]) hold
    variables that are both assigned, with equal values. *)
Lemma violated_MUST_BE_DISTINCT A vars :
  violated A (MUST_BE_DISTINCT vars) = true ↔
  ∃ i j a b v,
    i < length vars - 1 ∧ 1 ≤ j < length vars ∧
    vars !! i = Some a ∧ vars !! j = Some b ∧
    A !! a = Some v ∧ A !! b = Some v.
Proof.
  unfold violated, validateBody.
  transitivity (∃ r, for_of
    (λ i, for_of (distinctPair A vars i) (seq 1 (length vars - 1)))
    (seq 0 (length vars - 1)) false = Return r).
  { destruct (for_of _ _ false) as [s|r]; [|by split; eauto].
    split; [done|by intros [r ?]]. }
  rewrite for_of_Return_iff.
  2: { intros i t t' r. apply for_of_exit_stable, distinctPair_exit_stable. }
  split.
  - intros (i & Hi%elem_of_seq & Hinner).
    apply for_of_Return_iff in Hinner as (j & Hj%elem_of_seq & r & Hr);
      [|apply distinctPair_exit_stable].
    unfold distinctPair in Hr.
    destruct (vars !! i) as [a|] eqn:Ha; [|done].
    destruct (vars !! j) as [b|] eqn:Hb; [|done].
    destruct (A !! a) as [va|] eqn:HAa; [|done].
    destruct (A !! b) as [vb|] eqn:HAb; [|done].
    unfold strictEq in Hr. case_bool_decide as Heq; [|done]. subst vb.
    exists i, j, a, b, va. split_and!; try done; lia.
  - intros (i & j & a & b & v & Hi & Hj & Ha & Hb & HAa & HAb).
    exists i. split; [apply elem_of_seq; lia|].
    apply for_of_Return_iff; [apply distinctPair_exit_stable|].
    exists j. split; [apply elem_of_seq; lia|]. exists false.
    unfold distinctPair, strictEq. rewrite Ha, Hb, HAa, HAb.
    by rewrite bool_decide_eq_true_2.
Qed.

(** For exactly two variables the constraint is violated when both are
    present with the same value. *)
Lemma violated_MUST_BE_DISTINCT_pair A x y :
  violated A (MUST_BE_DISTINCT [x; y]) = true ↔
  ∃ v, A !! x = Some v ∧ A !! y = Some v.
Proof.
  unfold violated; simpl. unfold distinctPair; simpl.
  destruct (A !! x) as [vx|], (A !! y) as [vy|]; simpl;
    try (split; [done|by intros (? & ? & ?)]).
  unfold strictEq. case_bool_decide as Heq; simpl.
  - subst vy. split; [eauto|done].
  - split; [done|]. intros (v & [= ->] & [= ->]). done.
Qed.

(** With three or more variables the second variable is compared with
    itself ([j] restarts at [1] for every [i]), so the constraint is
    violated as soon as that variable is assigned. *)
Lemma violated_MUST_BE_DISTINCT_second A a b c rest :
  is_Some (A !! b) → violated A (MUST_BE_DISTINCT (a :: b :: c :: rest)) = true.
Proof.
  intros [v Hb]. unfold violated, validateBody.
  set (vars := a :: b :: c :: rest).
  change (length vars - 1) with (S (S (length rest))).
  set (js := seq 1 _).
  change (seq 0 (S (S (length rest)))) with (0 :: 1 :: seq 2 (length rest)).
  rewrite for_of_cons.
  destruct (for_of (distinctPair A vars 0) js false) as [s|r]; [|done].
  rewrite for_of_cons. subst js. cbn [seq]. rewrite for_of_cons.
  assert (distinctPair A vars 1 1 s = Return false) as ->; [|done].
  unfold distinctPair; simpl. rewrite Hb. unfold strictEq.
  by rewrite bool_decide_eq_true_2.
Qed.

(** C5 at the failing input: the three variables of the constraint hold the
    pairwise distinct values 1, 2 and 3, and the validator returns false. *)
Theorem MUST_BE_DISTINCT_three_distinct_values_rejected :
  validateConstraints xyz123 [MUST_BE_DISTINCT ["x"; "y"; "z"]] false = false ∧
  xyz123 !! "x" = Some (VNumber 1) ∧
  xyz123 !! "y" = Some (VNumber 2) ∧
  xyz123 !! "z" = Some (VNumber 3).
Proof. by vm_compute. Qed.

(** ** Forward checking *)

Lemma findE_all_false {X : Type} (pred : X → outcome bool) xs found :
  (∀ x b, x ∈ xs → pred x = Ok b → b = false) →
  findE pred xs = Ok found → found = None.
Proof.
  induction xs as [|x xs IH]; simpl; intros Hall; [congruence|].
  destruct (pred x) as [[]| |] eqn:Hx; try done.
  - by apply Hall in Hx; [|left].
  - apply IH. intros y b Hy. apply Hall. by right.
Qed.

Lemma pruneOther_Return value other s r :
  pruneOther value other s = Return r →
  r = Throw ∨ ∃ c, r = Ok (RUndefined, c).
Proof.
  destruct s as [csp atp]. unfold pruneOther.
  repeat case_match; intros [= <-]; eauto.
Qed.

Lemma forwardBody_Return variable value constraint s r :
  forwardBody variable value constraint s = Return r →
  r = Throw ∨ ∃ c, r = Ok (RUndefined, c).
Proof.
  destruct constraint as [target|vars]; simpl; [done|].
  case_bool_decide; [|done]. intros Hrun.
  pose proof (for_of_inv (λ _, True)
    (λ r, r = Throw ∨ ∃ c, r = Ok (RUndefined, c))
    (pruneOther value) (filter (λ v, v ≠ variable) vars) s I) as Hinv.
  rewrite Hrun in Hinv. apply Hinv. intros x t _ _.
  destruct (pruneOther value x t) eqn:Hp; [done|].
  by eapply pruneOther_Return.
Qed.

Lemma forwardBody_Return_loop variable value cs s r :
  for_of (forwardBody variable value) cs s = Return r →
  r = Throw ∨ ∃ c, r = Ok (RUndefined, c).
Proof.
  intros Hrun.
  pose proof (for_of_inv (λ _, True)
    (λ r, r = Throw ∨ ∃ c, r = Ok (RUndefined, c))
    (forwardBody variable value) cs s I) as Hinv.
  rewrite Hrun in Hinv. apply Hinv. intros x t _ _.
  destruct (forwardBody variable value x t) eqn:Hp; [done|].
  by eapply forwardBody_Return.
Qed.

(** No call of [forwardChecking] returns [true]: a wipeout met directly
    leaves through the bare [return;], and the cascade only reports a
    recursive call whose result is truthy. *)
Lemma forwardChecking_never_true fuel csp variable value r csp' :
  forwardChecking fuel csp variable value = Ok (r, csp') → truthy r = false.
Proof.
  revert csp variable value r csp'.
  induction fuel as [|fuel IH]; intros csp variable value r csp'; [done|].
  cbn [forwardChecking].
  destruct (for_of _ _ _) as [[c atp]|r0] eqn:Hloop.
  - destruct atp as [|vx atp]; [by intros [= <- _]|].
    destruct (findE _ _) as [found| |] eqn:Hfind; try done.
    intros [= <- _]. apply findE_all_false in Hfind as ->; [done|].
    intros [v x] b _. simpl.
    destruct (forwardChecking fuel c v x) as [[r1 c1]| |] eqn:Hrec; try done.
    intros [= <-]. by eapply IH.
  - apply forwardBody_Return_loop in Hloop as [->|[c ->]]; [done|].
    by intros [= <- _].
Qed.

(** C2 at the failing inputs.  On [x, y] with both domains [[1]],
    assigning [x = 1] would empty the domain of [y]: the call returns
    [undefined], not [true].  On the chain [x ≠ y], [y ≠ z] assigning
    [x = 1] forces [y = 2], whose propagation would empty the domain of
    [z]: the outer call returns [false]. *)
Theorem forwardChecking_wipeout_not_reported :
  (∃ c, forwardChecking 2 (pairCSP [VNumber 1] [VNumber 1]) "x" (VNumber 1)
          = Ok (RUndefined, c)) ∧
  (∃ c, forwardChecking 3 chainCSP "x" (VNumber 1) = Ok (RBool false, c) ∧
        domains c !! "y" = Some [VNumber 2] ∧
        ∃ c', forwardChecking 2 c "y" (VNumber 2) = Ok (RUndefined, c')).
Proof.
  split; [by eexists|].
  eexists. split; [by vm_compute|]. split; [by vm_compute|].
  eexists. by vm_compute.
Qed.

Lemma domains_shrink_refl c : domains_shrink c c.
Proof. intros z d' Hz. eauto. Qed.

Lemma domains_shrink_trans c1 c2 c3 :
  domains_shrink c1 c2 → domains_shrink c2 c3 → domains_shrink c1 c3.
Proof.
  intros H12 H23 z d3 Hz.
  destruct (H23 z d3 Hz) as (d2 & Hz2 & Hsub2).
  destruct (H12 z d2 Hz2) as (d1 & Hz1 & Hsub1).
  exists d1. split; [done|]. by etrans.
Qed.

Lemma domains_shrink_setDomain c x d d' :
  domains c !! x = Some d → d' ⊆ d → domains_shrink c (setDomain c x d').
Proof.
  intros Hx Hsub z dz. simpl. destruct (decide (x = z)) as [->|Hne].
  - rewrite lookup_insert_eq. intros [= <-]. eauto.
  - rewrite lookup_insert_ne by done. eauto.
Qed.

Lemma filter_subseteq_list {A : Type} (P : A → Prop) `{∀ x, Decision (P x)}
    (l : list A) : filter P l ⊆ l.
Proof. intros x Hx. by apply list_elem_of_filter in Hx as [_ ?]. Qed.

Lemma pruneOther_shrink value other c atp :
  match pruneOther value other (c, atp) with
  | Next s' => domains_shrink c s'.1
  | Return r => ∀ res c', r = Ok (res, c') → domains_shrink c c'
  end.
Proof.
  unfold pruneOther. destruct (domains c !! other) as [domain|] eqn:Hd; [|done].
  case_bool_decide.
  - destruct (Nat.eqb _ _).
    + intros res c' [= _ <-]. apply domains_shrink_refl.
    + assert (domains_shrink c
        (setDomain c other (filter (λ x, x ≠ value) domain))) as Hs.
      { eapply domains_shrink_setDomain; [done|]. apply filter_subseteq_list. }
      revert Hs. generalize (filter (λ x, x ≠ value) domain).
      by intros [|? [|??]] Hs.
  - apply domains_shrink_refl.
Qed.

Lemma forwardBody_loop_shrink variable value cs c atp :
  match for_of (forwardBody variable value) cs (c, atp) with
  | Next s' => domains_shrink c s'.1
  | Return r => ∀ res c', r = Ok (res, c') → domains_shrink c c'
  end.
Proof.
  apply (for_of_inv (λ s, domains_shrink c s.1)
           (λ r, ∀ res c', r = Ok (res, c') → domains_shrink c c'));
    [apply domains_shrink_refl|].
  intros constraint [c1 atp1] _ Hc1. simpl in Hc1.
  destruct constraint as [target|vars]; simpl; [done|].
  case_bool_decide; [|done].
  apply (for_of_inv (λ s, domains_shrink c s.1)
           (λ r, ∀ res c', r = Ok (res, c') → domains_shrink c c')); [done|].
  intros other [c2 atp2] _ Hc2. simpl in Hc2.
  pose proof (pruneOther_shrink value other c2 atp2) as Hstep.
  destruct (pruneOther value other (c2, atp2)) as [s'|r].
  - by eapply domains_shrink_trans.
  - intros res c' Hr. eapply domains_shrink_trans; eauto.
Qed.

(** C7.  When [value] is drawn from the current domain of [variable], the
    CSP that [forwardChecking] leaves behind has, for every variable, a
    domain contained in the one it had before the call.  This holds for
    every returning call, in particular for one that returns [false]. *)
Theorem forwardChecking_monotone (fuel : nat) (csp csp' : CSP)
    (variable : string) (value : jsval) (d : list jsval) (r : jsret) :
  domains csp !! variable = Some d →
  value ∈ d →
  forwardChecking fuel csp variable value = Ok (r, csp') →
  ∀ z d', domains csp' !! z = Some d' →
          ∃ d0, domains csp !! z = Some d0 ∧ d' ⊆ d0.
Proof.
  intros Hd Hin Hrun. change (domains_shrink csp csp').
  destruct fuel as [|fuel]; [done|]. cbn [forwardChecking] in Hrun.
  assert (domains_shrink csp (setDomain csp variable [value])) as Hfirst.
  { eapply domains_shrink_setDomain; [done|].
    intros v Hv. by apply list_elem_of_singleton in Hv as ->. }
  pose proof (forwardBody_loop_shrink variable value
    (constraints (setDomain csp variable [value]))
    (setDomain csp variable [value]) []) as Hloop.
  destruct (for_of _ _ _) as [[c atp]|r0].
  - simpl in Hloop. assert (csp' = c) as ->; [|by eapply domains_shrink_trans].
    destruct atp as [|vx atp]; [by injection Hrun|].
    destruct (findE _ _); try done. by injection Hrun.
  - subst r0. eapply domains_shrink_trans; eauto.
Qed.

Lemma forwardChecking_monotone_witness :
  ∃ c, forwardChecking 3 chainCSP "y" (VNumber 1) = Ok (RBool false, c) ∧
       domains c !! "x" = Some [VNumber 2] ∧
       ∀ z d', domains c !! z = Some d' →
               ∃ d0, domains chainCSP !! z = Some d0 ∧ d' ⊆ d0.
Proof.
  eexists. split; [by vm_compute|]. split; [by vm_compute|].
  apply (forwardChecking_monotone 3 chainCSP _ "y" (VNumber 1)
           [VNumber 1; VNumber 2] (RBool false)).
  - reflexivity.
  - apply list_elem_of_here.
  - by vm_compute.
Defined.

(** ** The store: what a call can write to *)

Lemma heap_extends_refl σ : heap_extends σ σ.
Proof. by intros l c. Qed.

Lemma heap_extends_trans σ1 σ2 σ3 :
  heap_extends σ1 σ2 → heap_extends σ2 σ3 → heap_extends σ1 σ3.
Proof. intros H12 H23 l c Hl. by apply H23, H12. Qed.

Lemma cloneDeep_Ok l σ l' σ' :
  cloneDeep l σ = Ok (l', σ') →
  ∃ c, heap σ !! l = Some c ∧ l' = length (heap σ) ∧
       heap σ' = heap σ ++ [c] ∧ debugCounter σ' = debugCounter σ.
Proof.
  unfold cloneDeep. destruct (heap σ !! l) as [c|]; [|done].
  intros [= <- <-]. by exists c.
Qed.

Lemma onObject_Ok {A : Type} (f : CSP → outcome (A * CSP)) l σ a σ' :
  onObject f l σ = Ok (a, σ') →
  ∃ c c', heap σ !! l = Some c ∧ f c = Ok (a, c') ∧
          heap σ' = <[l := c']> (heap σ) ∧ debugCounter σ' = debugCounter σ.
Proof.
  unfold onObject. destruct (heap σ !! l) as [c|]; [|done].
  destruct (f c) as [[a0 c']| |] eqn:Hf; try done.
  intros [= <- <-]. by exists c, c'.
Qed.

Lemma cloneDeep_extends l σ l' σ' :
  cloneDeep l σ = Ok (l', σ') → heap_extends σ σ'.
Proof.
  intros (c & _ & _ & Hheap & _)%cloneDeep_Ok l0 c0 Hl0.
  rewrite Hheap. by apply lookup_app_l_Some.
Qed.

(** Writing to the object a clone just allocated leaves the objects that
    existed before the clone alone. *)
Lemma clone_then_write {A : Type} (f : CSP → outcome (A * CSP))
    l σ l' σ1 a σ2 :
  cloneDeep l σ = Ok (l', σ1) → onObject f l' σ1 = Ok (a, σ2) →
  heap_extends σ σ2 ∧
  ∃ c c', heap σ !! l = Some c ∧ f c = Ok (a, c') ∧ heap σ2 !! l' = Some c'.
Proof.
  intros (c & Hl & -> & Hheap1 & _)%cloneDeep_Ok
         (c1 & c' & Hl' & Hf & Hheap2 & _)%onObject_Ok.
  rewrite Hheap1 in Hl'. rewrite lookup_app_r, Nat.sub_diag in Hl' by done.
  injection Hl' as <-. split.
  - intros l0 c0 Hl0. rewrite Hheap2, Hheap1.
    rewrite list_lookup_insert_ne.
    + by apply lookup_app_l_Some.
    + apply lookup_lt_Some in Hl0. lia.
  - exists c, c'. split_and!; [done..|].
    rewrite Hheap2, Hheap1. apply list_lookup_insert_eq.
    rewrite length_app; simpl. lia.
Qed.

Lemma cloneDeep_lookup l σ l' σ' :
  cloneDeep l σ = Ok (l', σ') → heap σ' !! l' = heap σ !! l.
Proof.
  intros (c & Hl & -> & Hheap1 & _)%cloneDeep_Ok.
  by rewrite Hheap1, Hl, lookup_app_r, Nat.sub_diag.
Qed.

Section frame.
Context (rec : nat → Assignment → state → outcome (option Assignment * state)).
Context (fuel : nat) (options : SolverOptions) (assignment : Assignment).
Hypothesis rec_frame : ∀ l a σ r σ', rec l a σ = Ok (r, σ') → heap_extends σ σ'.

Lemma tryValues_frame csp c x values σ r σ' :
  tryValues rec fuel options assignment csp c x values σ = Ok (r, σ') →
  heap_extends σ σ'.
Proof using rec_frame.
  revert σ. induction values as [|value values IH]; intros σ; simpl.
  { intros [= _ <-]. apply heap_extends_refl. }
  intros Hrun. apply (heap_extends_trans _ (countValidation σ)); [by intros l0 c0|].
  revert Hrun. generalize (countValidation σ). clear σ. intros σ.
  destruct (validateConstraints _ _ _); [|apply IH].
  destruct (cloneDeep csp σ) as [[newCsp σ1]| |] eqn:Hclone; try done.
  assert (∀ σ2, heap_extends σ σ2 →
    match rec newCsp (<[x:=value]> assignment) σ2 with
    | Ok (Some result, σ3) => Ok (Some result, σ3)
    | Ok (None, σ3) => tryValues rec fuel options assignment csp c x values σ3
    | Throw => Throw
    | OutOfFuel => OutOfFuel
    end = Ok (r, σ') → heap_extends σ σ') as Hdescend.
  { intros σ2 H2.
    destruct (rec _ _ σ2) as [[[result|] σ3]| |] eqn:Hrec; try done.
    - intros [= _ <-]. eapply heap_extends_trans; eauto.
    - intros Hrest. eapply heap_extends_trans; [done|].
      eapply heap_extends_trans; eauto. }
  destruct (optForwardChecking options).
  - destruct (onObject _ newCsp σ1) as [[r1 σ2]| |] eqn:Hfc; try done.
    destruct (clone_then_write _ _ _ _ _ _ _ Hclone Hfc) as [Hext _].
    destruct (truthy r1); [by intros [= _ <-]|by apply Hdescend].
  - apply Hdescend. by eapply cloneDeep_extends.
Qed.

Lemma search_frame csp σ r σ' :
  search rec fuel options assignment csp σ = Ok (r, σ') → heap_extends σ σ'.
Proof using rec_frame.
  unfold search. destruct (heap σ !! csp) as [c|]; [|done].
  destruct (domains c !! _); [|done]. apply tryValues_frame.
Qed.

Lemma recursiveBacktracking_body_frame csp σ r σ' :
  recursiveBacktracking_body rec fuel options assignment csp σ = Ok (r, σ') →
  heap_extends σ σ'.
Proof using rec_frame.
  unfold recursiveBacktracking_body. destruct (heap σ !! csp) as [c|]; [|done].
  destruct (Nat.eqb _ _).
  { intros [= _ <-]. apply heap_extends_refl. }
  destruct (optArcConsistency options); [|apply search_frame].
  destruct (cloneDeep csp σ) as [[csp' σ1]| |] eqn:Hclone; try done.
  destruct (onObject _ csp' σ1) as [[wipeout σ2]| |] eqn:Hac; try done.
  destruct (clone_then_write _ _ _ _ _ _ _ Hclone Hac) as [Hext _].
  destruct wipeout; [by intros [= _ <-]|].
  intros Hsearch%search_frame. by eapply heap_extends_trans.
Qed.
End frame.

Lemma recursiveBacktracking_extends fuel csp assignment options σ σ' r :
  recursiveBacktracking fuel csp assignment options σ = Ok (r, σ') →
  heap_extends σ σ'.
Proof.
  revert csp assignment σ σ' r.
  induction fuel as [|fuel IH]; intros csp assignment σ σ' r; [done|].
  cbn [recursiveBacktracking]. apply recursiveBacktracking_body_frame.
  intros l a σ1 r1 σ1' Hrec. exact (IH l a σ1 σ1' r1 Hrec).
Qed.

(** C9.  A returning call of [recursiveBacktracking] leaves every CSP
    object that existed before the call, the caller's among them, with
    the same variables, domains, constraints, arcs and neighbours: the
    call writes only to the objects it clones. *)
Theorem recursiveBacktracking_frame (fuel : nat) (csp : nat)
    (assignment : Assignment) (options : SolverOptions) (σ σ' : state)
    (r : option Assignment) :
  recursiveBacktracking fuel csp assignment options σ = Ok (r, σ') →
  ∀ l c, heap σ !! l = Some c → heap σ' !! l = Some c.
Proof. apply recursiveBacktracking_extends. Qed.

Lemma recursiveBacktracking_frame_witness :
  match recursiveBacktracking 20 0 ∅ withBoth (initial LionUnicorn) with
  | Ok (r, σ') => heap σ' !! 0 = Some LionUnicorn
  | _ => False
  end.
Proof.
  assert (returned (recursiveBacktracking 20 0 ∅ withBoth
                      (initial LionUnicorn)) = true) as Hok
    by (vm_compute; reflexivity).
  destruct (recursiveBacktracking 20 0 ∅ withBoth (initial LionUnicorn))
    as [[r σ']| |] eqn:Hrun; [|discriminate Hok..].
  by apply (recursiveBacktracking_frame _ _ _ _ _ _ _ Hrun).
Defined.

(** ** What pruning leaves alone *)

Lemma same_problem_refl c : same_problem c c.
Proof. done. Qed.

Lemma same_problem_trans c1 c2 c3 :
  same_problem c1 c2 → same_problem c2 c3 → same_problem c1 c3.
Proof. intros [??] [??]. split; congruence. Qed.

Lemma same_problem_setDomain c x d : same_problem c (setDomain c x d).
Proof. done. Qed.

Lemma pruneOther_same_problem value other c atp :
  match pruneOther value other (c, atp) with
  | Next s' => same_problem c s'.1
  | Return r => ∀ res c', r = Ok (res, c') → same_problem c c'
  end.
Proof.
  unfold pruneOther. destruct (domains c !! other) as [domain|]; [|done].
  case_bool_decide; [|done].
  destruct (Nat.eqb _ _); [by intros res c' [= _ <-]|].
  generalize (filter (λ x, x ≠ value) domain). by intros [|? [|??]].
Qed.

Lemma forwardBody_loop_same_problem variable value cs c atp :
  match for_of (forwardBody variable value) cs (c, atp) with
  | Next s' => same_problem c s'.1
  | Return r => ∀ res c', r = Ok (res, c') → same_problem c c'
  end.
Proof.
  apply (for_of_inv (λ s, same_problem c s.1)
           (λ r, ∀ res c', r = Ok (res, c') → same_problem c c')); [done|].
  intros constraint [c1 atp1] _ Hc1. simpl in Hc1.
  destruct constraint as [target|vars]; simpl; [done|].
  case_bool_decide; [|done].
  apply (for_of_inv (λ s, same_problem c s.1)
           (λ r, ∀ res c', r = Ok (res, c') → same_problem c c')); [done|].
  intros other [c2 atp2] _ Hc2. simpl in Hc2.
  pose proof (pruneOther_same_problem value other c2 atp2) as Hstep.
  destruct (pruneOther value other (c2, atp2)) as [s'|r].
  - by eapply same_problem_trans.
  - intros res c' Hr. eapply same_problem_trans; eauto.
Qed.

Lemma forwardChecking_same_problem fuel csp variable value r csp' :
  forwardChecking fuel csp variable value = Ok (r, csp') →
  same_problem csp csp'.
Proof.
  destruct fuel as [|fuel]; [done|]. cbn [forwardChecking]. intros Hrun.
  pose proof (forwardBody_loop_same_problem variable value
    (constraints (setDomain csp variable [value]))
    (setDomain csp variable [value]) []) as Hloop.
  destruct (for_of _ _ _) as [[c atp]|r0].
  - simpl in Hloop. assert (csp' = c) as ->; [|done].
    destruct atp as [|vx atp]; [by injection Hrun|].
    destruct (findE _ _); try done. by injection Hrun.
  - subst r0. eauto.
Qed.

Lemma computeNeighbours_same_problem c : same_problem c (computeNeighbours c).
Proof. unfold computeNeighbours. by repeat case_match. Qed.

Lemma removeInconsistentValues_same_problem c x y removed c' :
  removeInconsistentValues c x y = Ok (removed, c') → same_problem c c'.
Proof.
  unfold removeInconsistentValues. destruct (domains c !! x) as [dx|]; [|done].
  pose proof (for_of_inv (λ s, same_problem c s.1)
    (λ r, ∀ res c', r = Ok (res, c') → same_problem c c')
    (reviseBody x y) dx (c, false) (same_problem_refl c)) as Hloop.
  intros Hrun. destruct (for_of _ _ _) as [[c1 removed1]|r0].
  - injection Hrun as _ <-. apply Hloop.
    intros valueX [c2 rem2] _ Hc2. unfold reviseBody.
    destruct (domains c2 !! y); [|done].
    destruct (supported _ _ _ _ _); [done|].
    by destruct (domains c2 !! x).
  - subst r0. eapply Hloop; [|done].
    intros valueX [c2 rem2] _ Hc2. unfold reviseBody.
    destruct (domains c2 !! y); [|done].
    destruct (supported _ _ _ _ _); [done|].
    by destruct (domains c2 !! x).
Qed.

Lemma arcLoop_same_problem fuel queue c wipeout c' :
  arcLoop fuel queue c = Ok (wipeout, c') → same_problem c c'.
Proof.
  revert queue c. induction fuel as [|fuel IH]; intros [|[x y] queue] c; simpl;
    try done; try by intros [= _ <-].
  destruct (removeInconsistentValues c x y) as [[[] c1]| |] eqn:Hrev; try done.
  - apply removeInconsistentValues_same_problem in Hrev.
    destruct (domains c1 !! x) as [[|v dx]|]; try done.
    + by intros [= _ <-].
    + destruct (neighbours c1 ≫= _); [|done].
      intros Hrest%IH. by eapply same_problem_trans.
  - apply removeInconsistentValues_same_problem in Hrev.
    intros Hrest%IH. by eapply same_problem_trans.
Qed.

Lemma arcConsistency_same_problem fuel c wipeout c' :
  arcConsistency fuel c = Ok (wipeout, c') → same_problem c c'.
Proof.
  unfold arcConsistency. destruct (arcs c); [|done].
  intros Hloop%arcLoop_same_problem.
  eapply same_problem_trans; [apply computeNeighbours_same_problem|done].
Qed.

(** ** Backtracking search: what a returned assignment satisfies *)

Lemma good_keys_complete vars (a : Assignment) :
  good_keys vars a → size a = length vars →
  ∀ v, v ∈ vars → is_Some (a !! v).
Proof.
  intros [Hkeys|Hall] Hsize; [|done].
  assert ((map_to_list a).*1 ≡ₚ vars) as Hperm.
  { apply submseteq_length_Permutation.
    - apply NoDup_submseteq; [apply NoDup_fst_map_to_list|].
      intros k ([k' x] & -> & Hkx%elem_of_map_to_list)%list_elem_of_fmap.
      apply Hkeys. by exists x.
    - by rewrite length_fmap, length_map_to_list, Hsize. }
  intros v Hv. rewrite <-Hperm in Hv.
  apply list_elem_of_fmap in Hv as ([k x] & -> & Hkx%elem_of_map_to_list).
  by exists x.
Qed.

Lemma pickUnassigned_spec vars (a : Assignment) :
  (pickUnassigned vars a ∈ vars ∧ a !! pickUnassigned vars a = None) ∨
  (∀ v, v ∈ vars → is_Some (a !! v)).
Proof.
  unfold pickUnassigned.
  destruct (List.find _ vars) as [u|] eqn:Hfind; simpl.
  - left. apply find_some in Hfind as [Hin Hu].
    apply bool_decide_eq_true in Hu. by apply list_elem_of_In in Hin.
  - right. intros v Hv%list_elem_of_In.
    pose proof (find_none _ _ Hfind v Hv) as Hnone. simpl in Hnone.
    apply bool_decide_eq_false in Hnone.
    by destruct (a !! v); [eexists|].
Qed.

Lemma good_keys_insert vars (a : Assignment) x :
  good_keys vars a → good_keys vars (<[pickUnassigned vars a := x]> a).
Proof.
  intros Hgood.
  destruct (pickUnassigned_spec vars a) as [[Hin _]|Hall].
  - destruct Hgood as [Hkeys|Hall]; [left|right].
    + intros k [y Hk]. destruct (decide (pickUnassigned vars a = k)) as [<-|Hne];
        [done|].
      rewrite lookup_insert_ne in Hk by done. apply Hkeys. by exists y.
    + intros v Hv. rewrite lookup_insert_is_Some'. right. by apply Hall.
  - right. intros v Hv. rewrite lookup_insert_is_Some'. right. by apply Hall.
Qed.

Section soundness.
(** [V] and [K] are the variables and constraints of the problem being
    solved; [rec] is the recursive call, already known to be sound and to
    write only to the objects it allocates. *)
Context (V : list string) (K : list Constraint).
Context (rec : nat → Assignment → state → outcome (option Assignment * state)).
Context (fuel : nat) (options : SolverOptions).

Hypothesis rec_frame :
  ∀ l a σ r σ', rec l a σ = Ok (r, σ') → heap_extends σ σ'.
Hypothesis rec_sound :
  ∀ l a σ A σ' c,
    heap σ !! l = Some c → variables c = V → constraints c = K →
    good_keys V a → validateConstraints a K false = true →
    rec l a σ = Ok (Some A, σ') → solution V K A.

Lemma tryValues_sound assignment csp c x values σ A σ' :
  heap σ !! csp = Some c → variables c = V → constraints c = K →
  (∀ value, good_keys V (<[x := value]> assignment)) →
  tryValues rec fuel options assignment csp c x values σ = Ok (Some A, σ') →
  solution V K A.
Proof using rec_frame rec_sound.
  intros Hc HV HK Hgood. revert σ Hc.
  induction values as [|value values IH]; intros σ Hc; simpl; [done|].
  assert (heap (countValidation σ) !! csp = Some c) as Hc0 by done.
  revert Hc0. generalize (countValidation σ). clear σ Hc. intros σ Hc.
  destruct (validateConstraints _ _ _) eqn:Hvalid; [|by apply IH].
  rewrite HK in Hvalid.
  destruct (cloneDeep csp σ) as [[newCsp σ1]| |] eqn:Hclone; try done.
  assert (∀ σ2 c2, heap_extends σ σ2 → heap σ2 !! newCsp = Some c2 →
    same_problem c c2 →
    match rec newCsp (<[x:=value]> assignment) σ2 with
    | Ok (Some result, σ3) => Ok (Some result, σ3)
    | Ok (None, σ3) => tryValues rec fuel options assignment csp c x values σ3
    | Throw => Throw
    | OutOfFuel => OutOfFuel
    end = Ok (Some A, σ') → solution V K A) as Hdescend.
  { intros σ2 c2 Hext Hc2 [HV2 HK2].
    destruct (rec _ _ σ2) as [[[result|] σ3]| |] eqn:Hrec; try done.
    - intros [= <- <-].
      eapply (rec_sound newCsp _ σ2 result σ3 c2); eauto; congruence.
    - apply IH. by eapply rec_frame, Hext. }
  destruct (optForwardChecking options).
  - destruct (onObject _ newCsp σ1) as [[r1 σ2]| |] eqn:Hfc; try done.
    destruct (clone_then_write _ _ _ _ _ _ _ Hclone Hfc)
      as (Hext & c1 & c2 & Hc1 & Hrun & Hc2).
    destruct (truthy r1); [done|].
    apply (Hdescend σ2 c2); [done..|].
    apply forwardChecking_same_problem in Hrun. congruence.
  - apply (Hdescend σ1 c); [by eapply cloneDeep_extends| |done].
    by rewrite (cloneDeep_lookup _ _ _ _ Hclone).
Qed.

Lemma search_sound assignment csp c σ A σ' :
  heap σ !! csp = Some c → variables c = V → constraints c = K →
  good_keys V assignment →
  search rec fuel options assignment csp σ = Ok (Some A, σ') → solution V K A.
Proof using rec_frame rec_sound.
  intros Hc HV HK Hgood. unfold search. rewrite Hc.
  destruct (domains c !! _) as [values|]; [|done].
  apply tryValues_sound; [done..|].
  intros value. rewrite HV. by apply good_keys_insert.
Qed.

Lemma recursiveBacktracking_body_sound assignment csp c σ A σ' :
  heap σ !! csp = Some c → variables c = V → constraints c = K →
  good_keys V assignment →
  size assignment ≠ length V ∨ validateConstraints assignment K false = true →
  recursiveBacktracking_body rec fuel options assignment csp σ
    = Ok (Some A, σ') →
  solution V K A.
Proof using rec_frame rec_sound.
  intros Hc HV HK Hgood Hinit. unfold recursiveBacktracking_body. rewrite Hc.
  destruct (Nat.eqb _ _) eqn:Hsize.
  { apply Nat.eqb_eq in Hsize. rewrite HV in Hsize. intros [= <- _]. split.
    - by apply good_keys_complete.
    - by destruct Hinit. }
  destruct (optArcConsistency options); [|by eapply search_sound].
  destruct (cloneDeep csp σ) as [[csp' σ1]| |] eqn:Hclone; try done.
  destruct (onObject _ csp' σ1) as [[wipeout σ2]| |] eqn:Hac; try done.
  destruct (clone_then_write _ _ _ _ _ _ _ Hclone Hac)
    as (Hext & c1 & c2 & Hc1 & Hrun & Hc2).
  destruct wipeout; [done|].
  apply arcConsistency_same_problem in Hrun as [HV2 HK2].
  apply (search_sound assignment csp' c2); [done|congruence..|done].
Qed.
End soundness.

Lemma recursiveBacktracking_sound fuel csp c assignment options σ A σ' :
  heap σ !! csp = Some c →
  good_keys (variables c) assignment →
  size assignment ≠ length (variables c) ∨
    validateConstraints assignment (constraints c) false = true →
  recursiveBacktracking fuel csp assignment options σ = Ok (Some A, σ') →
  solution (variables c) (constraints c) A.
Proof.
  revert csp c assignment σ A σ'.
  induction fuel as [|fuel IH]; intros csp c assignment σ A σ' Hc Hgood Hinit;
    [done|].
  cbn [recursiveBacktracking].
  apply (recursiveBacktracking_body_sound (variables c) (constraints c)) with c;
    try done.
  - intros l a σ1 r σ1' Hrec. by eapply recursiveBacktracking_extends.
  - intros l a σ1 A1 σ1' c1 Hc1 HV HK Hgood1 Hvalid1 Hrec.
    rewrite <-HV, <-HK. eapply IH; eauto; rewrite ?HV, ?HK; eauto.
Qed.




(** An initial assignment with a key that is no variable of the problem
    also makes the search stop short: [y] is never assigned. *)
Lemma stray_key_leaves_variable_unassigned :
  ∃ A, solve 2 (pairCSP oneTwo oneTwo) stray plain = Ok (Some A) ∧
       A !! "y" = None.
Proof. eexists. split; by vm_compute. Qed.

(** C10.  Called with an assignment that has as many entries as the CSP has
    variables, [recursiveBacktracking] returns that assignment at once,
    whatever the constraints say about it: the validation counter has not
    moved and the store is as before (no clone was made, so neither AC-3
    nor forward checking ran). *)
Theorem complete_assignment_returned_unchecked (fuel : nat) (csp : nat)
    (c : CSP) (assignment : Assignment) (options : SolverOptions) (σ : state) :
  heap σ !! csp = Some c →
  size assignment = length (variables c) →
  recursiveBacktracking (S fuel) csp assignment options σ
    = Ok (Some assignment, σ).
Proof.
  intros Hc Hsize. cbn [recursiveBacktracking].
  unfold recursiveBacktracking_body. rewrite Hc.
  by rewrite (proj2 (Nat.eqb_eq _ _) Hsize).
Qed.

Lemma complete_assignment_returned_unchecked_witness :
  validateConstraints clash (constraints (pairCSP oneTwo oneTwo)) false = false ∧
  recursiveBacktracking 1 0 clash withBoth (initial (pairCSP oneTwo oneTwo))
    = Ok (Some clash, initial (pairCSP oneTwo oneTwo)).
Proof.
  split; [by vm_compute|].
  apply (complete_assignment_returned_unchecked 0 0 (pairCSP oneTwo oneTwo)).
  - reflexivity.
  - by vm_compute.
Defined.

(** C3 at the failing input: [x ≠ y] with domains [x: [1, 2]], [y: [1]],
    forward checking enabled.  The forward check for the candidate [x = 1]
    meets the wipeout of [y] and returns [undefined]; the search takes that
    for "no failure" and recurses for [x = 1], which costs the second of
    the four validations ([{x: 1}], [{x: 1, y: 1}], [{x: 2}],
    [{x: 2, y: 1}]). *)
Theorem wipeout_value_not_abandoned :
  (∃ c, forwardChecking 4 (pairCSP oneTwo [VNumber 1]) "x" (VNumber 1)
          = Ok (RUndefined, c)) ∧
  observe (recursiveBacktracking 4 0 ∅ withForwardChecking
             (initial (pairCSP oneTwo [VNumber 1])))
    = Ok (Some (<["x" := VNumber 2]> (<["y" := VNumber 1]> ∅)), 4) ∧
  observe (recursiveBacktracking 4 0 ∅ plain
             (initial (pairCSP oneTwo [VNumber 1])))
    = Ok (Some (<["x" := VNumber 2]> (<["y" := VNumber 1]> ∅)), 4).
Proof. split; [by eexists|]. split; vm_compute; reflexivity. Qed.

(** With [y] preassigned outside its domain the recursion for the wiped
    out candidate even succeeds: the search returns [x = 1], the value
    whose forward check met the wipeout. *)
Lemma wipeout_value_returned :
  (∃ c, forwardChecking 4 (pairCSP [VNumber 1; VNumber 3] [VNumber 1])
          "x" (VNumber 1) = Ok (RUndefined, c)) ∧
  solve 4 (pairCSP [VNumber 1; VNumber 3] [VNumber 1])
        (<["y" := VNumber 2]> ∅) withForwardChecking
    = Ok (Some (<["x" := VNumber 1]> (<["y" := VNumber 2]> ∅))).
Proof. split; [by eexists|vm_compute; reflexivity]. Qed.

(** ** Arc consistency *)

Lemma revised_refl x c : revised x c c.
Proof. split; eauto. Qed.

Lemma revised_trans x c1 c2 c3 :
  revised x c1 c2 → revised x c2 c3 → revised x c1 c3.
Proof.
  intros [Hv1 Hk1 Ha1 Hn1 Ho1 Hd1] [Hv2 Hk2 Ha2 Hn2 Ho2 Hd2].
  split; try congruence.
  - intros z Hz. rewrite Ho2 by done. by apply Ho1.
  - intros dx1 H1. destruct (Hd1 dx1 H1) as (dx2 & H2 & Hsub2).
    destruct (Hd2 dx2 H2) as (dx3 & H3 & Hsub3).
    exists dx3. split; [done|]. by etrans.
Qed.

Lemma reviseBody_revised x y valueX c removed :
  match reviseBody x y valueX (c, removed) with
  | Next s' => revised x c s'.1
  | Return r => r = Throw
  end.
Proof.
  unfold reviseBody. destruct (domains c !! y) as [dy|]; [|done].
  destruct (supported _ _ _ _ _); [apply revised_refl|].
  destruct (domains c !! x) as [dx|] eqn:Hx; [|done]. simpl.
  split; simpl; try done.
  - intros z Hz. by rewrite lookup_insert_ne.
  - intros dx0 Hdx0. assert (dx0 = dx) as -> by congruence.
    rewrite lookup_insert_eq. eexists. split; [done|].
    apply filter_subseteq_list.
Qed.

Lemma revise_loop_revised x y l c removed :
  match for_of (reviseBody x y) l (c, removed) with
  | Next s' => revised x c s'.1
  | Return r => r = Throw
  end.
Proof.
  apply (for_of_inv (λ s, revised x c s.1) (λ r, r = Throw));
    [apply revised_refl|].
  intros valueX [c1 rem1] _ Hc1. simpl in Hc1.
  pose proof (reviseBody_revised x y valueX c1 rem1) as Hstep.
  destruct (reviseBody x y valueX (c1, rem1)); [|done].
  by eapply revised_trans.
Qed.

Lemma removeInconsistentValues_revised c x y removed c' :
  removeInconsistentValues c x y = Ok (removed, c') → revised x c c'.
Proof.
  unfold removeInconsistentValues. destruct (domains c !! x) as [dx|]; [|done].
  pose proof (revise_loop_revised x y dx c false) as Hloop.
  destruct (for_of _ _ _) as [[c1 removed1]|r0].
  - by intros [= _ <-].
  - by subst r0.
Qed.

(** Once a value has been removed the flag stays set. *)
Lemma revise_loop_removed x y l c c' removed' :
  for_of (reviseBody x y) l (c, true) = Next (c', removed') → removed' = true.
Proof.
  revert c. induction l as [|valueX l IH]; intros c; simpl; [congruence|].
  unfold reviseBody at 1. destruct (domains c !! y) as [dy|]; [|done].
  destruct (supported _ _ _ _ _); [apply IH|].
  destruct (domains c !! x); [apply IH|done].
Qed.

(** A pass that reports no removal met only supported values and left the
    CSP as it was. *)
Lemma revise_loop_false x y l c c' :
  for_of (reviseBody x y) l (c, false) = Next (c', false) →
  c' = c ∧
  ∀ vx, vx ∈ l → ∃ dy, domains c !! y = Some dy ∧
                       supported (constraints c) x y vx dy = true.
Proof.
  induction l as [|valueX l IH]; simpl.
  { intros [= <-]. split; [done|]. by intros vx ?%elem_of_nil. }
  unfold reviseBody at 1. destruct (domains c !! y) as [dy|] eqn:Hy; [|done].
  destruct (supported _ _ _ _ _) eqn:Hsup.
  - intros [-> Hrest]%IH. split; [done|].
    intros vx [->|Hvx]%elem_of_cons; eauto.
  - destruct (domains c !! x); [|done].
    by intros ?%revise_loop_removed.
Qed.

Lemma revise_loop_supported x y l c :
  (∀ vx, vx ∈ l → ∃ dy, domains c !! y = Some dy ∧
                        supported (constraints c) x y vx dy = true) →
  for_of (reviseBody x y) l (c, false) = Next (c, false).
Proof.
  induction l as [|valueX l IH]; simpl; intros Hall; [done|].
  unfold reviseBody at 1.
  destruct (Hall valueX) as (dy & -> & ->); [by left|].
  apply IH. intros vx Hvx. apply Hall. by right.
Qed.

Lemma stable_all_supported c x y : stable c x y ↔ all_supported c x y.
Proof.
  unfold stable, all_supported, removeInconsistentValues. split.
  - destruct (domains c !! x) as [dx|]; [|done].
    destruct (for_of _ _ _) as [[c1 [|]]|r0] eqn:Hloop; try done.
    + intros _. apply revise_loop_false in Hloop as [_ Hall]. eauto.
    + intros ->.
      pose proof (revise_loop_revised x y dx c false) as Hr.
      by rewrite Hloop in Hr.
  - intros (dx & -> & Hall). by rewrite revise_loop_supported.
Qed.

Lemma removeInconsistentValues_false c x y c' :
  removeInconsistentValues c x y = Ok (false, c') → c' = c.
Proof.
  unfold removeInconsistentValues. destruct (domains c !! x) as [dx|]; [|done].
  destruct (for_of _ _ _) as [[c1 [|]]|r0] eqn:Hloop; try done.
  - intros [= <-]. by apply revise_loop_false in Hloop as [-> _].
  - intros ->.
    pose proof (revise_loop_revised x y dx c false) as Hr.
    by rewrite Hloop in Hr.
Qed.

(** After revising [(x, y)] with [x ≠ y], every value left in the domain
    of [x] that the loop visited has a support in the domain of [y]. *)
Lemma revise_loop_support x y l c1 r1 c2 r2 :
  x ≠ y →
  for_of (reviseBody x y) l (c1, r1) = Next (c2, r2) →
  ∀ v dx2, domains c2 !! x = Some dx2 → v ∈ dx2 → v ∈ l →
    ∃ dy, domains c1 !! y = Some dy ∧
          supported (constraints c1) x y v dy = true.
Proof.
  intros Hxy. revert c1 r1.
  induction l as [|valueX l IH]; intros c1 r1.
  { by intros _ v dx2 _ _ ?%elem_of_nil. }
  rewrite for_of_cons.
  destruct (reviseBody x y valueX (c1, r1)) as [[c1' r1']|] eqn:Hbody; [|done].
  intros Hrest v dx2 H2 Hv Hin.
  unfold reviseBody in Hbody.
  destruct (domains c1 !! y) as [dy|] eqn:Hy; [|done].
  destruct (supported _ _ _ _ _) eqn:Hsup.
  - injection Hbody as <- <-.
    apply elem_of_cons in Hin as [->|Hl]; [by eauto|].
    destruct (IH _ _ Hrest v dx2 H2 Hv Hl) as (dy' & Hy' & Hsup').
    rewrite Hy in Hy'. by exists dy'.
  - destruct (domains c1 !! x) as [dx1|] eqn:Hx; [|done].
    injection Hbody as <- <-.
    pose proof (revise_loop_revised x y l
      (setDomain c1 x (filter (λ v, v ≠ valueX) dx1)) true) as Hrev.
    rewrite Hrest in Hrev. simpl in Hrev.
    destruct (revised_domain _ _ _ Hrev (filter (λ v, v ≠ valueX) dx1))
      as (dx2' & H2' & Hsub); [by simpl; rewrite lookup_insert_eq|].
    assert (dx2' = dx2) as -> by congruence.
    pose proof (Hsub v Hv) as [Hne _]%list_elem_of_filter.
    apply elem_of_cons in Hin as [->|Hl]; [done|].
    destruct (IH _ _ Hrest v dx2 H2 Hv Hl) as (dy' & Hy' & Hsup').
    simpl in Hy', Hsup'. rewrite lookup_insert_ne in Hy' by done.
    rewrite Hy in Hy'. by exists dy'.
Qed.

Lemma revise_stable_after c x y removed c' :
  x ≠ y → removeInconsistentValues c x y = Ok (removed, c') → stable c' x y.
Proof.
  intros Hxy Hrun. pose proof (removeInconsistentValues_revised _ _ _ _ _ Hrun)
    as Hrev.
  apply stable_all_supported. revert Hrun. unfold removeInconsistentValues.
  destruct (domains c !! x) as [dx|] eqn:Hx; [|done].
  destruct (revised_domain _ _ _ Hrev dx Hx) as (dx' & Hx' & Hsub).
  destruct (for_of _ _ _) as [[c1 removed1]|r0] eqn:Hloop.
  - intros [= -> ->]. exists dx'. split; [done|]. intros v Hv.
    destruct (revise_loop_support x y dx c false c' removed Hxy Hloop v dx')
      as (dy & Hy & Hsup); [done..|by apply Hsub|].
    exists dy. rewrite (revised_others _ _ _ Hrev y) by done.
    by rewrite (revised_constraints _ _ _ Hrev).
  - intros ->.
    pose proof (revise_loop_revised x y dx c false) as Hr.
    by rewrite Hloop in Hr.
Qed.

(** Shrinking the domain of [x] keeps stable every arc that does not
    point into [x]. *)
Lemma stable_preserved x c c' u v :
  revised x c c' → v ≠ x → stable c u v → stable c' u v.
Proof.
  intros Hrev Hv. rewrite !stable_all_supported.
  intros (du & Hu & Hall).
  assert (∃ du', domains c' !! u = Some du' ∧ du' ⊆ du) as (du' & Hu' & Hsub).
  { destruct (decide (u = x)) as [->|Hne].
    - by apply (revised_domain _ _ _ Hrev).
    - exists du. by rewrite (revised_others _ _ _ Hrev u). }
  exists du'. split; [done|]. intros vu Hvu.
  destruct (Hall vu) as (dv & Hdv & Hsup); [by apply Hsub|].
  exists dv. rewrite (revised_others _ _ _ Hrev v) by done.
  by rewrite (revised_constraints _ _ _ Hrev).
Qed.

Lemma neighbours_foldl nb l a b :
  (a, b) ∈ l ∨ (∃ bs, nb !! a = Some bs ∧ b ∈ bs) →
  ∃ bs,
    foldl (λ (nb : gmap string (list string)) (ab : string * string),
             match nb !! ab.1 with
             | None => <[ab.1 := [ab.2]]> nb
             | Some bs => <[ab.1 := bs ++ [ab.2]]> nb
             end) nb l !! a = Some bs ∧ b ∈ bs.
Proof.
  revert nb. induction l as [|[a0 b0] l IH]; intros nb; simpl.
  { by intros [?%elem_of_nil|?]. }
  intros Hin. apply IH.
  destruct Hin as [[[= -> ->]|Hl]%elem_of_cons|(bs & Hbs & Hb)].
  - right. destruct (nb !! a0) as [bs|].
    + exists (bs ++ [b0]). rewrite lookup_insert_eq. split; [done|].
      apply elem_of_app. right. by left.
    + exists [b0]. rewrite lookup_insert_eq. split; [done|by left].
  - by left.
  - right. destruct (decide (a0 = a)) as [->|Hne].
    + rewrite Hbs. exists (bs ++ [b0]). rewrite lookup_insert_eq.
      split; [done|]. apply elem_of_app. by left.
    + exists bs. split; [|done].
      by destruct (nb !! a0); rewrite lookup_insert_ne.
Qed.

Lemma neighboursOf_covers arcs' a b :
  (a, b) ∈ arcs' → ∃ bs, neighboursOf arcs' !! a = Some bs ∧ b ∈ bs.
Proof. intros Hin. apply neighbours_foldl. by left. Qed.

Section fixpoint.
(** [A] is the arc list and [nb] the neighbour record in use; every arc
    into a variable is found again through that variable's neighbours. *)
Context (A : list (string * string)) (nb : gmap string (list string)).
Hypothesis covers : ∀ u x, (u, x) ∈ A → ∃ bs, nb !! x = Some bs ∧ u ∈ bs.

Lemma arcLoop_fixpoint fuel queue c c' :
  neighbours c = Some nb →
  (∀ u v, (u, v) ∈ A → (u, v) ∈ queue ∨ stable c u v) →
  arcLoop fuel queue c = Ok (false, c') →
  (∀ u v, (u, v) ∈ A → stable c' u v) ∧
  neighbours c' = Some nb ∧ arcs c' = arcs c.
Proof using covers.
  revert queue c. induction fuel as [|fuel IH]; intros [|[x y] queue] c Hnb Hinv;
    simpl; try done.
  - intros [= <-]. split; [|done]. intros u v Huv.
    by destruct (Hinv u v Huv) as [?%elem_of_nil|?].
  - intros [= <-]. split; [|done]. intros u v Huv.
    by destruct (Hinv u v Huv) as [?%elem_of_nil|?].
  - destruct (removeInconsistentValues c x y) as [[[] c1]| |] eqn:Hrun;
      try done.
    + pose proof (removeInconsistentValues_revised _ _ _ _ _ Hrun) as Hrev.
      destruct (domains c1 !! x) as [[|v0 dx]|]; try done.
      rewrite (revised_neighbours _ _ _ Hrev), Hnb. simpl.
      destruct (nb !! x) as [bs|] eqn:Hbs; [|done].
      intros Hrest. apply IH in Hrest as (Hall & Hnb' & Harcs).
      * split; [done|]. split; [done|].
        by rewrite Harcs, (revised_arcs _ _ _ Hrev).
      * by rewrite (revised_neighbours _ _ _ Hrev).
      * intros u v Huv. destruct (decide (v = x)) as [->|Hv].
        { left. destruct (covers u x Huv) as (bs' & Hbs' & Hu).
          assert (bs' = bs) as -> by congruence.
          apply elem_of_app. right.
          apply list_elem_of_fmap. by exists u. }
        destruct (Hinv u v Huv) as [[[= -> ->]|Hq]%elem_of_cons|Hst].
        -- right. by eapply revise_stable_after.
        -- left. apply elem_of_app. by left.
        -- right. by eapply stable_preserved.
    + apply removeInconsistentValues_false in Hrun as Hc1. subst c1.
      apply IH; [done|]. intros u v Huv.
      destruct (Hinv u v Huv) as [[[= -> ->]|Hq]%elem_of_cons|Hst]; eauto.
Qed.
End fixpoint.

(** With every queued arc stable the loop only drains the queue. *)
Lemma arcLoop_stable fuel queue c :
  (∀ u v, (u, v) ∈ queue → stable c u v) →
  length queue ≤ fuel →
  arcLoop fuel queue c = Ok (false, c).
Proof.
  revert fuel. induction queue as [|[x y] queue IH]; intros fuel Hst Hlen.
  { by destruct fuel. }
  destruct fuel as [|fuel]; simpl in *; [lia|].
  rewrite (Hst x y) by (by left).
  apply IH; [|lia]. intros u v Huv. apply Hst. by right.
Qed.




(** ** Fuel *)

(** A run that did not run out of fuel gives the same outcome with any
    larger amount. *)
Lemma findE_fuel {X : Type} (pred pred' : X → outcome bool) xs :
  (∀ x, x ∈ xs → pred x ≠ OutOfFuel → pred' x = pred x) →
  findE pred xs ≠ OutOfFuel → findE pred' xs = findE pred xs.
Proof.
  induction xs as [|x xs IH]; intros Hpred; simpl; [done|].
  pose proof (Hpred x (list_elem_of_here _ _)) as Hx.
  destruct (pred x) as [[]| |] eqn:Hp.
  - by rewrite Hx.
  - rewrite Hx by done. apply IH. intros y Hy. apply Hpred. by right.
  - by rewrite Hx.
  - done.
Qed.

Lemma forwardChecking_fuel n m csp variable value :
  n ≤ m →
  forwardChecking n csp variable value ≠ OutOfFuel →
  forwardChecking m csp variable value = forwardChecking n csp variable value.
Proof.
  revert m csp variable value.
  induction n as [|n IH]; intros m csp variable value Hle; [done|].
  destruct m as [|m]; [lia|]. cbn [forwardChecking].
  destruct (for_of _ _ _) as [[c atp]|r0]; [|done].
  destruct atp as [|vx atp]; [done|].
  intros Hrun.
  rewrite (findE_fuel
    (λ vx : string * jsval,
       match forwardChecking n c vx.1 vx.2 with
       | Ok (r, _) => Ok (truthy r)
       | Throw => Throw
       | OutOfFuel => OutOfFuel
       end)
    (λ vx : string * jsval,
       match forwardChecking m c vx.1 vx.2 with
       | Ok (r, _) => Ok (truthy r)
       | Throw => Throw
       | OutOfFuel => OutOfFuel
       end)); [done| |].
  - intros [v x] _ Hvx. simpl in *.
    rewrite IH; [done|lia|]. by destruct (forwardChecking n c v x).
  - by destruct (findE _ (vx :: atp)).
Qed.

Lemma arcLoop_fuel n m queue c :
  n ≤ m →
  arcLoop n queue c ≠ OutOfFuel → arcLoop m queue c = arcLoop n queue c.
Proof.
  revert m queue c.
  induction n as [|n IH]; intros m [|[x y] queue] c Hle;
    try (by destruct m); try (by simpl).
  destruct m as [|m]; [lia|]. simpl.
  destruct (removeInconsistentValues c x y) as [[[] c1]| |]; try done.
  - destruct (domains c1 !! x) as [[|v dx]|]; try done.
    destruct (neighbours c1 ≫= _); [|done]. apply IH. lia.
  - apply IH. lia.
Qed.

Lemma arcConsistency_fuel n m c :
  n ≤ m →
  arcConsistency n c ≠ OutOfFuel → arcConsistency m c = arcConsistency n c.
Proof.
  unfold arcConsistency. destruct (arcs c); [|done]. apply arcLoop_fuel.
Qed.

Lemma onObject_fuel {A : Type} (f f' : CSP → outcome (A * CSP)) l σ :
  (∀ c, f c ≠ OutOfFuel → f' c = f c) →
  onObject f l σ ≠ OutOfFuel → onObject f' l σ = onObject f l σ.
Proof.
  intros Hf. unfold onObject. destruct (heap σ !! l) as [c|]; [|done].
  intros Hrun. rewrite Hf; [done|]. by destruct (f c).
Qed.

Section fuel.
Context (rec rec' : nat → Assignment → state → outcome (option Assignment * state)).
Context (n m : nat) (options : SolverOptions) (assignment : Assignment).
Hypothesis fuel_le : n ≤ m.
Hypothesis rec_fuel :
  ∀ l a σ, rec l a σ ≠ OutOfFuel → rec' l a σ = rec l a σ.

Lemma tryValues_fuel csp c x values σ :
  tryValues rec n options assignment csp c x values σ ≠ OutOfFuel →
  tryValues rec' m options assignment csp c x values σ
    = tryValues rec n options assignment csp c x values σ.
Proof using fuel_le rec_fuel.
  revert σ. induction values as [|value values IH]; intros σ; simpl; [done|].
  destruct (validateConstraints _ _ _); [|apply IH].
  destruct (cloneDeep csp (countValidation σ)) as [[newCsp σ1]| |]; try done.
  assert (∀ σ2,
    match rec newCsp (<[x:=value]> assignment) σ2 with
    | Ok (Some result, σ3) => Ok (Some result, σ3)
    | Ok (None, σ3) => tryValues rec n options assignment csp c x values σ3
    | Throw => Throw
    | OutOfFuel => OutOfFuel
    end ≠ OutOfFuel →
    match rec' newCsp (<[x:=value]> assignment) σ2 with
    | Ok (Some result, σ3) => Ok (Some result, σ3)
    | Ok (None, σ3) => tryValues rec' m options assignment csp c x values σ3
    | Throw => Throw
    | OutOfFuel => OutOfFuel
    end =
    match rec newCsp (<[x:=value]> assignment) σ2 with
    | Ok (Some result, σ3) => Ok (Some result, σ3)
    | Ok (None, σ3) => tryValues rec n options assignment csp c x values σ3
    | Throw => Throw
    | OutOfFuel => OutOfFuel
    end) as Hdescend.
  { intros σ2 Hrun. rewrite rec_fuel.
    - destruct (rec _ _ σ2) as [[[result|] σ3]| |]; try done. by apply IH.
    - by destruct (rec _ _ σ2). }
  destruct (optForwardChecking options); [|apply Hdescend].
  intros Hrun.
  rewrite (onObject_fuel (λ c, forwardChecking n c x value)
                         (λ c, forwardChecking m c x value)).
  - destruct (onObject _ newCsp σ1) as [[r1 σ2]| |]; try done.
    destruct (truthy r1); [done|]. by apply Hdescend.
  - intros c0. by apply forwardChecking_fuel.
  - by destruct (onObject _ newCsp σ1).
Qed.

Lemma recursiveBacktracking_body_fuel csp σ :
  recursiveBacktracking_body rec n options assignment csp σ ≠ OutOfFuel →
  recursiveBacktracking_body rec' m options assignment csp σ
    = recursiveBacktracking_body rec n options assignment csp σ.
Proof using fuel_le rec_fuel.
  unfold recursiveBacktracking_body. destruct (heap σ !! csp) as [c|]; [|done].
  destruct (Nat.eqb _ _); [done|].
  assert (∀ l σ0,
    search rec n options assignment l σ0 ≠ OutOfFuel →
    search rec' m options assignment l σ0 = search rec n options assignment l σ0)
    as Hsearch.
  { intros l σ0. unfold search. destruct (heap σ0 !! l) as [c0|]; [|done].
    destruct (domains c0 !! _); [|done]. apply tryValues_fuel. }
  destruct (optArcConsistency options); [|apply Hsearch].
  destruct (cloneDeep csp σ) as [[csp' σ1]| |]; try done.
  intros Hrun.
  rewrite (onObject_fuel (arcConsistency n) (arcConsistency m)).
  - destruct (onObject _ csp' σ1) as [[[] σ2]| |]; try done. by apply Hsearch.
  - intros c0. by apply arcConsistency_fuel.
  - by destruct (onObject _ csp' σ1).
Qed.
End fuel.

Lemma recursiveBacktracking_fuel n m csp assignment options σ :
  n ≤ m →
  recursiveBacktracking n csp assignment options σ ≠ OutOfFuel →
  recursiveBacktracking m csp assignment options σ
    = recursiveBacktracking n csp assignment options σ.
Proof.
  revert m csp assignment σ.
  induction n as [|n IH]; intros m csp assignment σ Hle; [done|].
  destruct m as [|m]; [lia|]. cbn [recursiveBacktracking].
  apply recursiveBacktracking_body_fuel; [lia|].
  intros l a σ0. apply IH. lia.
Qed.

Lemma solve_fuel n m c assignment options r :
  n ≤ m →
  solve n c assignment options = Ok r → solve m c assignment options = Ok r.
Proof.
  intros Hle. unfold solve. intros Hrun.
  rewrite (recursiveBacktracking_fuel n m); [done..|].
  by destruct (recursiveBacktracking n _ _ _ _).
Qed.

(** ** The Lion-Unicorn scenario *)

(** C8.  On the Lion-Unicorn problem, with the empty initial assignment,
    the search returns [{today: "Thursday", lion: true, unicorn: false}],
    both with no option set and with [arcConsistency] set (18 units of
    fuel are enough for both runs, 4 for the plain one). *)
Theorem LionUnicorn_solution (fuel : nat) :
  18 ≤ fuel →
  solve fuel LionUnicorn ∅ plain
    = Ok (Some (<["today" := VString "Thursday"]>
                (<["lion" := VBoolean true]>
                (<["unicorn" := VBoolean false]> ∅)))) ∧
  solve fuel LionUnicorn ∅ withArcConsistency
    = Ok (Some (<["today" := VString "Thursday"]>
                (<["lion" := VBoolean true]>
                (<["unicorn" := VBoolean false]> ∅)))).
Proof.
  intros Hfuel. split.
  - apply (solve_fuel 4); [lia|]. vm_compute. reflexivity.
  - apply (solve_fuel 18); [lia|]. vm_compute. reflexivity.
Qed.

Lemma LionUnicorn_solution_witness :
  solve 20 LionUnicorn ∅ plain
    = Ok (Some (<["today" := VString "Thursday"]>
                (<["lion" := VBoolean true]>
                (<["unicorn" := VBoolean false]> ∅)))) ∧
  solve 20 LionUnicorn ∅ withArcConsistency
    = Ok (Some (<["today" := VString "Thursday"]>
                (<["lion" := VBoolean true]>
                (<["unicorn" := VBoolean false]> ∅)))).
Proof. apply (LionUnicorn_solution 20). lia. Defined.

(** * Further properties *)

(** ** Validator: extensions of an assignment, strict mode *)

Lemma violated_extension (A A' : Assignment) c :
  A ⊆ A' → violated A c = true → violated A' c = true.
Proof.
  intros Hsub. destruct c as [target|vars].
  - rewrite !violated_MUST_SATISFY. intros (Hall & (k & v & Hk & Heq) & Hne).
    split; [|split].
    + intros k' Hk'. destruct (Hall k' Hk') as [w Hw].
      exists w. by eapply lookup_weaken.
    + exists k, v. split; [done|]. by eapply lookup_weaken.
    + destruct Hne as (k' & v' & Hk' & Hne). exists k', v'. split; [done|].
      destruct (Hall k') as [w Hw]; [by eexists|].
      rewrite (lookup_weaken _ _ _ _ Hw Hsub). congruence.
  - rewrite !violated_MUST_BE_DISTINCT.
    intros (i & j & a & b & v & Hi & Hj & Ha & Hb & HAa & HAb).
    exists i, j, a, b, v. destruct Hj.
    split_and!; try done; by eapply lookup_weaken.
Qed.

Lemma validateConstraints_extends (A A' : Assignment) cs :
  A ⊆ A' →
  validateConstraints A cs false = false →
  validateConstraints A' cs false = false.
Proof.
  intros Hsub. rewrite !validateConstraints_violated, !negb_false_iff.
  rewrite !existsb_exists. intros (c & Hc & Hv).
  exists c. split; [done|]. by eapply violated_extension.
Qed.



(** A loop that only ever raises a flag: the flag is up at the end exactly
    when it was up at the start or some element raised it. *)
Lemma for_of_flag {X R : Type} (body : X → bool → flow bool R)
    (raises : X → Prop) xs s s' :
  (∀ x t t', body x t = Next t' → (t' = true ↔ t = true ∨ raises x)) →
  for_of body xs s = Next s' →
  (s' = true ↔ s = true ∨ ∃ x, x ∈ xs ∧ raises x).
Proof.
  intros Hbody. revert s. induction xs as [|x xs IH]; intros s.
  { simpl. intros [= <-]. split; [by left|].
    by intros [?|(x & ?%elem_of_nil & _)]. }
  rewrite for_of_cons. destruct (body x s) as [t|] eqn:Hx; [|done].
  intros Hrest. rewrite (IH _ Hrest), (Hbody _ _ _ Hx). split.
  - intros [[?|?]|(y & Hy & ?)]; [by left|right..].
    + exists x. split; [by left|done].
    + exists y. split; [by right|done].
  - intros [?|(y & [->|Hy]%elem_of_cons & ?)]; [by left; left|by left; right|].
    right. by exists y.
Qed.

Lemma distinctPair_flag A vars i j s s' :
  distinctPair A vars i j s = Next s' →
  (s' = true ↔ s = true ∨
     ∃ a b, vars !! i = Some a ∧ vars !! j = Some b ∧
            is_Some (A !! a) ∧ is_Some (A !! b)).
Proof.
  unfold distinctPair.
  destruct (vars !! i) as [a|].
  2: { intros [= <-]. split; [by left|]. by intros [?|(? & ? & ? & _)]. }
  destruct (vars !! j) as [b|].
  2: { intros [= <-]. split; [by left|]. by intros [?|(? & ? & _ & ? & _)]. }
  destruct (A !! a) as [va|] eqn:Ha.
  2: { intros [= <-]. split; [by left|].
       intros [?|(? & ? & [= <-] & _ & [? ?] & _)]; [done|congruence]. }
  destruct (A !! b) as [vb|] eqn:Hb.
  2: { intros [= <-]. split; [by left|].
       intros [?|(? & ? & _ & [= <-] & _ & [? ?])]; [done|congruence]. }
  destruct (strictEq va vb); [done|]. intros [= <-]. split; [|done].
  intros _. right. exists a, b. by rewrite Ha, Hb.
Qed.

Lemma validateBody_flag A c s s' :
  validateBody A c s = Next s' → (s' = true ↔ s = true ∨ evaluated A c).
Proof.
  destruct c as [target|vars]; simpl.
  - unfold mustSatisfy.
    pose proof (existsb_map_to_list
      (λ k _, bool_decide (A !! k = None)) target) as Hfail.
    simpl in Hfail.
    destruct (existsb (λ kv : string * jsval,
                bool_decide (A !! kv.1 = None)) _).
    + intros [= <-]. split; [by left|]. intros [?|Hall]; [done|].
      destruct (proj1 Hfail eq_refl) as (k & v & Hk & Hnone).
      apply bool_decide_eq_true in Hnone.
      destruct (Hall k) as [w Hw]; [by eexists|congruence].
    + destruct (_ && _); [done|]. intros [= <-]. split; [|done].
      intros _. right. intros k [v Hk].
      destruct (A !! k) as [w|] eqn:HA; [by eexists|].
      assert (false = true) as Hcontra; [|done].
      apply Hfail. exists k, v. by rewrite HA, bool_decide_eq_true.
  - intros Hrun.
    apply (for_of_flag _
      (λ i, ∃ j a b, 1 ≤ j < length vars ∧ vars !! i = Some a ∧
                     vars !! j = Some b ∧ is_Some (A !! a) ∧ is_Some (A !! b)))
      in Hrun.
    + rewrite Hrun. split; (intros [?|Hex]; [by left|right]).
      * destruct Hex as (i & Hi%elem_of_seq & j & a & b & ?).
        exists i, j, a, b. split; [lia|done].
      * destruct Hex as (i & j & a & b & Hi & ?).
        exists i. split; [apply elem_of_seq; lia|]. by exists j, a, b.
    + intros i t t' Hinner.
      apply (for_of_flag _
        (λ j, ∃ a b, vars !! i = Some a ∧ vars !! j = Some b ∧
                     is_Some (A !! a) ∧ is_Some (A !! b)))
        in Hinner; [|apply distinctPair_flag].
      rewrite Hinner. split; (intros [?|Hex]; [by left|right]).
      * destruct Hex as (j & Hj%elem_of_seq & a & b & ?).
        exists j, a, b. split; [lia|done].
      * destruct Hex as (j & a & b & Hj & ?).
        exists j. split; [apply elem_of_seq; lia|]. by exists a, b.
Qed.

Lemma validateConstraints_strict (A : Assignment) (cs : list Constraint) :
  validateConstraints A cs true = true ↔
  validateConstraints A cs false = true ∧ ∃ c, c ∈ cs ∧ evaluated A c.
Proof.
  unfold validateConstraints.
  destruct (for_of (validateBody A) cs false) as [ranOnce|r] eqn:Hrun.
  - apply (for_of_flag _ (evaluated A)) in Hrun; [|apply validateBody_flag].
    rewrite Hrun. split.
    + by intros [?|?].
    + intros [_ ?]. by right.
  - pose proof (for_of_inv (λ _, True) (λ r, r = false) (validateBody A)
      cs false I) as Hinv.
    rewrite Hrun in Hinv. rewrite Hinv.
    + split; [done|by intros [? _]].
    + intros c s _ _. destruct (validateBody A c s) eqn:Hc; [done|].
      by eapply validateBody_Return.
Qed.


(** ** AC-3: what a run does to the CSP *)

Lemma only_pruned_refl c : only_pruned c c.
Proof. split_and!; try done. intros z. by destruct (domains c !! z). Qed.

Lemma only_pruned_trans c1 c2 c3 :
  only_pruned c1 c2 → only_pruned c2 c3 → only_pruned c1 c3.
Proof.
  intros (Hv1 & Hk1 & Ha1 & Hd1) (Hv2 & Hk2 & Ha2 & Hd2).
  split_and!; try congruence. intros z. specialize (Hd1 z). specialize (Hd2 z).
  destruct (domains c1 !! z), (domains c2 !! z), (domains c3 !! z); try done.
  by etrans.
Qed.

Lemma only_pruned_setDomain c x d d' :
  domains c !! x = Some d → d' `sublist_of` d → only_pruned c (setDomain c x d').
Proof.
  intros Hx Hsub. split_and!; try done. intros z. simpl.
  destruct (decide (x = z)) as [<-|Hne].
  - by rewrite Hx, lookup_insert_eq.
  - rewrite lookup_insert_ne by done. by destruct (domains c !! z).
Qed.

Lemma only_pruned_lookup c c' z d :
  only_pruned c c' → domains c !! z = Some d →
  ∃ d', domains c' !! z = Some d' ∧ d' `sublist_of` d.
Proof.
  intros (_ & _ & _ & Hd) Hz. specialize (Hd z). rewrite Hz in Hd.
  destruct (domains c' !! z) as [d'|]; [eauto|done].
Qed.

Lemma reviseBody_only_pruned x y valueX c removed :
  match reviseBody x y valueX (c, removed) with
  | Next s' => only_pruned c s'.1
  | Return r => r = Throw
  end.
Proof.
  unfold reviseBody. destruct (domains c !! y) as [dy|]; [|done].
  destruct (supported _ _ _ _ _); [apply only_pruned_refl|].
  destruct (domains c !! x) as [dx|] eqn:Hx; [|done]. simpl.
  eapply only_pruned_setDomain; [done|]. apply sublist_filter.
Qed.

Lemma revise_loop_only_pruned x y l c removed :
  match for_of (reviseBody x y) l (c, removed) with
  | Next s' => only_pruned c s'.1
  | Return r => r = Throw
  end.
Proof.
  apply (for_of_inv (λ s, only_pruned c s.1) (λ r, r = Throw));
    [apply only_pruned_refl|].
  intros valueX [c1 rem1] _ Hc1. simpl in Hc1.
  pose proof (reviseBody_only_pruned x y valueX c1 rem1) as Hstep.
  destruct (reviseBody x y valueX (c1, rem1)); [|done].
  by eapply only_pruned_trans.
Qed.

Lemma removeInconsistentValues_only_pruned c x y removed c' :
  removeInconsistentValues c x y = Ok (removed, c') → only_pruned c c'.
Proof.
  unfold removeInconsistentValues. destruct (domains c !! x) as [dx|]; [|done].
  pose proof (revise_loop_only_pruned x y dx c false) as Hloop.
  destruct (for_of _ _ _) as [[c1 removed1]|r0].
  - by intros [= _ <-].
  - by subst r0.
Qed.

Lemma arcLoop_only_pruned fuel queue c wipeout c' :
  arcLoop fuel queue c = Ok (wipeout, c') →
  only_pruned c c' ∧ neighbours c' = neighbours c.
Proof.
  revert queue c. induction fuel as [|fuel IH]; intros [|[x y] queue] c; simpl;
    try done; try (intros [= _ <-]; split; [apply only_pruned_refl|done]).
  destruct (removeInconsistentValues c x y) as [[[] c1]| |] eqn:Hrev; try done.
  - pose proof (removeInconsistentValues_only_pruned _ _ _ _ _ Hrev) as Hp.
    pose proof (removeInconsistentValues_revised _ _ _ _ _ Hrev) as Hr.
    destruct (domains c1 !! x) as [[|v dx]|]; try done.
    + intros [= _ <-]. split; [done|]. apply (revised_neighbours _ _ _ Hr).
    + destruct (neighbours c1 ≫= _); [|done].
      intros [Hp' Hn']%IH. split; [by eapply only_pruned_trans|].
      rewrite Hn'. apply (revised_neighbours _ _ _ Hr).
  - apply removeInconsistentValues_false in Hrev as ->. apply IH.
Qed.

Lemma arcConsistency_pruned fuel c wipeout c' :
  arcConsistency fuel c = Ok (wipeout, c') →
  only_pruned c c' ∧
  ∃ arcs', arcs c = Some arcs' ∧
           neighbours c' = Some (default (neighboursOf arcs') (neighbours c)).
Proof.
  unfold arcConsistency. destruct (arcs c) as [arcs'|] eqn:Harcs; [|done].
  intros [Hp Hn]%arcLoop_only_pruned. split.
  - eapply only_pruned_trans; [|done]. unfold computeNeighbours.
    rewrite Harcs. destruct (neighbours c); [apply only_pruned_refl|].
    split_and!; try done. intros z. simpl. by destruct (domains c !! z).
  - exists arcs'. split; [done|]. rewrite Hn. unfold computeNeighbours.
    rewrite Harcs. by destruct (neighbours c) eqn:Hnb.
Qed.

(** X3.  A returning run of [arcConsistency] only removes values from
    domains (keeping the order of those that stay): the variables, the
    constraints, the arcs and the set of variables with a domain are
    unchanged; the neighbour record is afterwards the one the CSP came
    with, or else the one derived from its arcs. *)
Theorem arcConsistency_only_prunes (fuel : nat) (c c' : CSP) (wipeout : bool) :
  arcConsistency fuel c = Ok (wipeout, c') →
  only_pruned c c' ∧
  ∃ arcs', arcs c = Some arcs' ∧
           neighbours c' = Some (default (neighboursOf arcs') (neighbours c)).
Proof. apply arcConsistency_pruned. Qed.

Lemma arcConsistency_only_prunes_witness :
  match arcConsistency 18 LionUnicorn with
  | Ok (_, c') =>
      only_pruned LionUnicorn c' ∧
      ∃ arcs', arcs LionUnicorn = Some arcs' ∧
               neighbours c' =
                 Some (default (neighboursOf arcs') (neighbours LionUnicorn))
  | _ => False
  end.
Proof.
  assert (returned (arcConsistency 18 LionUnicorn) = true) as Hok
    by (vm_compute; reflexivity).
  destruct (arcConsistency 18 LionUnicorn) as [[w c']| |] eqn:Hrun;
    [|discriminate Hok..].
  exact (arcConsistency_only_prunes 18 LionUnicorn c' w Hrun).
Defined.

Lemma arcLoop_wipeout fuel queue c c' :
  arcLoop fuel queue c = Ok (true, c') → ∃ x, domains c' !! x = Some [].
Proof.
  revert queue c. induction fuel as [|fuel IH]; intros [|[x y] queue] c; simpl;
    try done.
  destruct (removeInconsistentValues c x y) as [[[] c1]| |]; try done.
  - destruct (domains c1 !! x) as [[|v dx]|] eqn:Hx; try done.
    + intros [= <-]. by exists x.
    + destruct (neighbours c1 ≫= _); [|done]. apply IH.
  - apply IH.
Qed.

(** X4.  When [arcConsistency] signals wipeout, the CSP it leaves behind has
    a variable whose domain is empty. *)
Theorem arcConsistency_wipeout_empty_domain (fuel : nat) (c c' : CSP) :
  arcConsistency fuel c = Ok (true, c') → ∃ x, domains c' !! x = Some [].
Proof.
  unfold arcConsistency. destruct (arcs c); [|done]. apply arcLoop_wipeout.
Qed.

Lemma arcConsistency_wipeout_empty_domain_witness :
  match arcConsistency 5 asymmetricCSP with
  | Ok (_, c1) =>
      match arcConsistency 5 c1 with
      | Ok (true, c2) => ∃ x, domains c2 !! x = Some []
      | _ => False
      end
  | _ => False
  end.
Proof.
  assert (match arcConsistency 5 asymmetricCSP with
          | Ok (_, c1) =>
              match arcConsistency 5 c1 with
              | Ok (true, _) => true
              | _ => false
              end
          | _ => false
          end = true) as Hok by (vm_compute; reflexivity).
  destruct (arcConsistency 5 asymmetricCSP) as [[w c1]| |]; try discriminate Hok.
  destruct (arcConsistency 5 c1) as [[[] c2]| |] eqn:Hrun;
    try discriminate Hok.
  exact (arcConsistency_wipeout_empty_domain 5 c1 c2 Hrun).
Defined.

Lemma arcConsistency_fixpoint fuel c c' A :
  arcs c = Some A →
  (∀ x y, (x, y) ∈ A → (y, x) ∈ A) →
  neighbours c = None ∨ neighbours c = Some (neighboursOf A) →
  arcConsistency fuel c = Ok (false, c') →
  ∀ x y, (x, y) ∈ A → stable c' x y.
Proof.
  intros Harcs Hsym Hnb Hrun.
  unfold arcConsistency in Hrun. rewrite Harcs in Hrun.
  apply (arcLoop_fixpoint A (neighboursOf A)) in Hrun as (Hstable & _).
  - done.
  - intros u x Hux. by apply neighboursOf_covers, Hsym.
  - unfold computeNeighbours. rewrite Harcs.
    by destruct Hnb as [Hn|Hn]; rewrite Hn.
  - intros u v Huv. by left.
Qed.

(** X5.  Arc consistency of the result.  For a CSP with a symmetric arc
    list (and a neighbour record that is absent or derived from it), after a
    run of [arcConsistency] that returns false every value left in the
    domain of [x] has, for every arc [(x, y)], a value in the domain of [y]
    such that the strict validator accepts the pair. *)
Theorem arcConsistency_arc_consistent (fuel : nat) (c c' : CSP)
    (A : list (string * string)) :
  arcs c = Some A →
  (∀ x y, (x, y) ∈ A → (y, x) ∈ A) →
  neighbours c = None ∨ neighbours c = Some (neighboursOf A) →
  arcConsistency fuel c = Ok (false, c') →
  ∀ x y dx vx,
    (x, y) ∈ A → domains c' !! x = Some dx → vx ∈ dx →
    ∃ dy vy, domains c' !! y = Some dy ∧ vy ∈ dy ∧
             validateConstraints (pairAssignment x y vx vy)
               (constraints c') true = true.
Proof.
  intros Harcs Hsym Hnb Hrun x y dx vx Hxy Hx Hvx.
  pose proof (arcConsistency_fixpoint _ _ _ _ Harcs Hsym Hnb Hrun x y Hxy)
    as (dx' & Hx' & Hall)%stable_all_supported.
  assert (dx' = dx) as -> by congruence.
  destruct (Hall vx Hvx) as (dy & Hy & Hsup).
  apply existsb_exists in Hsup as (vy & Hvy%list_elem_of_In & Hvalid).
  by exists dy, vy.
Qed.

Lemma copyAndReverse_elem_of {A : Type} (arr : list (A * A)) x y :
  (x, y) ∈ copyAndReverse arr ↔ (x, y) ∈ arr ∨ (y, x) ∈ arr.
Proof.
  unfold copyAndReverse. rewrite elem_of_app.
  change (map (λ ab : A * A, (ab.2, ab.1)) arr)
    with ((λ ab : A * A, (ab.2, ab.1)) <$> arr).
  rewrite list_elem_of_fmap. split.
  - intros [?|([a b] & [= -> ->] & ?)]; [by left|by right].
  - intros [?|?]; [by left|]. right. by exists (y, x).
Qed.

Lemma copyAndReverse_symmetric {A : Type} (arr : list (A * A)) x y :
  (x, y) ∈ copyAndReverse arr → (y, x) ∈ copyAndReverse arr.
Proof. rewrite !copyAndReverse_elem_of. tauto. Qed.

(** X6.  [copyAndReverse] yields the pairs of the array and their
    mirror images, twice as many entries as it was given; the result is
    therefore symmetric. *)
Theorem copyAndReverse_spec {A : Type} (arr : list (A * A)) :
  length (copyAndReverse arr) = 2 * length arr ∧
  (∀ x y, (x, y) ∈ copyAndReverse arr ↔ (x, y) ∈ arr ∨ (y, x) ∈ arr) ∧
  (∀ x y, (x, y) ∈ copyAndReverse arr → (y, x) ∈ copyAndReverse arr).
Proof.
  split_and!.
  - unfold copyAndReverse. rewrite length_app, length_map. lia.
  - apply copyAndReverse_elem_of.
  - apply copyAndReverse_symmetric.
Qed.

Lemma arcConsistency_arc_consistent_witness :
  match arcConsistency 18 LionUnicorn with
  | Ok (false, c') =>
      ∃ dy vy, domains c' !! "today" = Some dy ∧ vy ∈ dy ∧
               validateConstraints
                 (pairAssignment "lion" "today" (VBoolean true) vy)
                 (constraints c') true = true
  | _ => False
  end.
Proof.
  assert (match arcConsistency 18 LionUnicorn with
          | Ok (false, c') =>
              bool_decide (domains c' !! "lion" = Some [VBoolean true])
          | _ => false
          end = true) as Hok by (vm_compute; reflexivity).
  destruct (arcConsistency 18 LionUnicorn) as [[[] c']| |] eqn:Hrun;
    try discriminate Hok.
  apply bool_decide_eq_true in Hok.
  apply (arcConsistency_arc_consistent 18 LionUnicorn c'
           (copyAndReverse [("lion", "today"); ("unicorn", "today")])
           eq_refl (copyAndReverse_symmetric _) (or_introl eq_refl) Hrun
           "lion" "today" [VBoolean true] (VBoolean true)).
  - apply copyAndReverse_elem_of. left. by left.
  - exact Hok.
  - by left.
Defined.

(** The targets of the arcs that leave [a], in arc order. *)
Lemma neighbours_foldl_lookup nb l a :
  foldl (λ (nb : gmap string (list string)) (ab : string * string),
           match nb !! ab.1 with
           | None => <[ab.1 := [ab.2]]> nb
           | Some bs => <[ab.1 := bs ++ [ab.2]]> nb
           end) nb l !! a =
  match nb !! a with
  | Some bs => Some (bs ++ (filter (λ ab, ab.1 = a) l).*2)
  | None =>
      match (filter (λ ab, ab.1 = a) l).*2 with
      | [] => None
      | ts => Some ts
      end
  end.
Proof.
  revert nb. induction l as [|[a0 b0] l IH]; intros nb; simpl.
  { destruct (nb !! a); [by rewrite app_nil_r|done]. }
  rewrite IH, filter_cons. simpl. destruct (decide (a0 = a)) as [->|Hne].
  - destruct (nb !! a) as [bs|]; rewrite lookup_insert_eq; simpl.
    + by rewrite <-app_assoc.
    + done.
  - destruct (nb !! a0); by rewrite lookup_insert_ne.
Qed.



(** ** AC-3: the revise step *)

Lemma revise_loop_shrinks x y l c dx c' :
  domains c !! x = Some dx → l ⊆ dx →
  for_of (reviseBody x y) l (c, false) = Next (c', true) →
  ∃ dx', domains c' !! x = Some dx' ∧ dx' `sublist_of` dx ∧
         length dx' < length dx.
Proof.
  intros Hx. induction l as [|valueX l IH]; intros Hl; [done|].
  rewrite for_of_cons.
  destruct (reviseBody x y valueX (c, false)) as [[c1 r1]|] eqn:Hbody; [|done].
  unfold reviseBody in Hbody.
  destruct (domains c !! y) as [dy|]; [|done].
  destruct (supported _ _ _ _ _).
  - injection Hbody as <- <-. apply IH. intros v Hv. apply Hl. by right.
  - rewrite Hx in Hbody. injection Hbody as <- <-. intros Hrest.
    pose proof (revise_loop_only_pruned x y l
      (setDomain c x (filter (λ v, v ≠ valueX) dx)) true) as Hp.
    rewrite Hrest in Hp. simpl in Hp.
    destruct (only_pruned_lookup _ _ x (filter (λ v, v ≠ valueX) dx) Hp)
      as (dx' & Hx' & Hsub); [by simpl; rewrite lookup_insert_eq|].
    exists dx'. split; [done|]. split.
    + etrans; [done|]. apply sublist_filter.
    + apply sublist_length in Hsub.
      assert (length (filter (λ v, v ≠ valueX) dx) < length dx); [|lia].
      apply (length_filter_lt _ _ valueX); [apply Hl; by left|]. by intros ?.
Qed.

Lemma removeInconsistentValues_true c x y c' :
  removeInconsistentValues c x y = Ok (true, c') →
  ∃ dx dx', domains c !! x = Some dx ∧ domains c' !! x = Some dx' ∧
            dx' `sublist_of` dx ∧ length dx' < length dx.
Proof.
  unfold removeInconsistentValues.
  destruct (domains c !! x) as [dx|] eqn:Hx; [|done].
  destruct (for_of _ _ _) as [[c1 [|]]|r0] eqn:Hloop; try done.
  - intros [= <-].
    destruct (revise_loop_shrinks x y dx c dx c1 Hx) as (dx' & ? & ? & ?);
      [done..|].
    by exists dx, dx'.
  - intros ->. pose proof (revise_loop_revised x y dx c false) as Hr.
    by rewrite Hloop in Hr.
Qed.



Lemma setDomain_eq c c' x d :
  revised x c c' → domains c' !! x = Some d → c' = setDomain c x d.
Proof.
  intros [Hv Hk Ha Hn Ho _] Hx. destruct c, c'; unfold setDomain; simpl in *.
  subst. f_equal. apply map_eq. intros z.
  destruct (decide (x = z)) as [<-|Hne].
  - by rewrite lookup_insert_eq.
  - rewrite lookup_insert_ne by done. by apply Ho.
Qed.

Lemma revise_loop_runs x y l c r :
  is_Some (domains c !! x) → is_Some (domains c !! y) →
  ∃ s, for_of (reviseBody x y) l (c, r) = Next s.
Proof.
  revert c r. induction l as [|valueX l IH]; intros c r Hx Hy; [by eexists|].
  rewrite for_of_cons. unfold reviseBody at 1.
  destruct Hy as [dy Hy]. rewrite Hy.
  destruct (supported _ _ _ _ _); [apply IH; eauto|].
  destruct Hx as [dx Hx]. rewrite Hx. apply IH; simpl.
  - by rewrite lookup_insert_eq.
  - destruct (decide (x = y)) as [->|Hne].
    + by rewrite lookup_insert_eq.
    + rewrite lookup_insert_ne by done. eauto.
Qed.

Lemma revise_loop_removes x y l c1 r1 c2 r2 :
  (∀ vx dy, supported (constraints c1) x y vx dy = false) →
  for_of (reviseBody x y) l (c1, r1) = Next (c2, r2) →
  (l ≠ [] → r2 = true) ∧
  ∀ v dx2, v ∈ l → domains c2 !! x = Some dx2 → v ∉ dx2.
Proof.
  intros Hnone. revert c1 r1 Hnone.
  induction l as [|valueX l IH]; intros c1 r1 Hnone.
  { intros _. split; [done|]. by intros v dx2 ?%elem_of_nil. }
  rewrite for_of_cons.
  destruct (reviseBody x y valueX (c1, r1)) as [[c1' r1']|] eqn:Hbody; [|done].
  unfold reviseBody in Hbody.
  destruct (domains c1 !! y) as [dy|]; [|done].
  rewrite Hnone in Hbody.
  destruct (domains c1 !! x) as [dx1|] eqn:Hx; [|done].
  injection Hbody as <- <-. intros Hrest. split.
  { intros _. by eapply revise_loop_removed. }
  intros v dx2 Hv Hx2.
  pose proof (revise_loop_revised x y l
    (setDomain c1 x (filter (λ v, v ≠ valueX) dx1)) true) as Hrev.
  rewrite Hrest in Hrev. simpl in Hrev.
  destruct (revised_domain _ _ _ Hrev (filter (λ v, v ≠ valueX) dx1))
    as (dx2' & Hx2' & Hsub); [by simpl; rewrite lookup_insert_eq|].
  assert (dx2' = dx2) as -> by congruence.
  apply elem_of_cons in Hv as [->|Hv].
  - by intros [? _]%Hsub%list_elem_of_filter.
  - by apply (IH (setDomain c1 x (filter (λ v, v ≠ valueX) dx1)) true
                 Hnone Hrest).
Qed.

Lemma supported_never (K : list Constraint) x y :
  (∀ k vx vy, k ∈ K → ¬ evaluated (pairAssignment x y vx vy) k) →
  ∀ vx dy, supported K x y vx dy = false.
Proof.
  intros Hno vx dy. unfold supported.
  destruct (existsb _ dy) eqn:Hex; [|done].
  apply existsb_exists in Hex as (vy & _ & Hvalid).
  apply validateConstraints_strict in Hvalid as (_ & k & Hk & Hev).
  by destruct (Hno k vx vy Hk).
Qed.

Lemma removeInconsistentValues_unrelated c x y dx :
  (∀ k vx vy, k ∈ constraints c → ¬ evaluated (pairAssignment x y vx vy) k) →
  domains c !! x = Some dx → dx ≠ [] → is_Some (domains c !! y) →
  removeInconsistentValues c x y = Ok (true, setDomain c x []).
Proof.
  intros Hev Hx Hne Hy. pose proof (supported_never _ _ _ Hev) as Hno.
  pose proof (removeInconsistentValues_revised c x y) as Hrevised.
  unfold removeInconsistentValues in *. rewrite Hx in *.
  destruct (revise_loop_runs x y dx c false) as [[c2 r2] Hloop]; [eauto..|].
  rewrite Hloop in *.
  destruct (revise_loop_removes x y dx c false c2 r2 Hno Hloop) as [Hr Hgone].
  rewrite (Hr Hne). specialize (Hrevised _ _ eq_refl).
  destruct (revised_domain _ _ _ Hrevised dx Hx) as (dx2 & Hx2 & Hsub).
  assert (dx2 = []) as ->.
  { apply elem_of_nil_inv. intros v Hv. by apply (Hgone v dx2 (Hsub v Hv)). }
  by rewrite (setDomain_eq c c2 x []).
Qed.



(** ** AC-3 terminates *)

Lemma sum_lengths_insert {A : Type} (m : gmap string (list A)) x d d' :
  m !! x = Some d →
  sum_list (length <$> (map_to_list (<[x := d']> m)).*2) + length d =
  sum_list (length <$> (map_to_list m).*2) + length d'.
Proof.
  intros Hx.
  rewrite <-(map_to_list_delete m x d Hx), <-insert_delete_eq.
  rewrite map_to_list_insert by apply lookup_delete_eq. simpl. lia.
Qed.

Lemma sum_lengths_lookup {A : Type} (m : gmap string (list A)) x d :
  m !! x = Some d → length d ≤ sum_list (length <$> (map_to_list m).*2).
Proof.
  intros Hx. rewrite <-(map_to_list_delete m x d Hx). simpl. lia.
Qed.

Lemma removeInconsistentValues_domainSize c x y c' :
  removeInconsistentValues c x y = Ok (true, c') →
  domainSize c' < domainSize c.
Proof.
  intros Hrun.
  pose proof (removeInconsistentValues_revised _ _ _ _ _ Hrun) as Hrev.
  destruct (removeInconsistentValues_true _ _ _ _ Hrun)
    as (dx & dx' & Hx & Hx' & _ & Hlt).
  rewrite (setDomain_eq c c' x dx' Hrev Hx'). unfold domainSize. simpl.
  pose proof (sum_lengths_insert (domains c) x dx dx' Hx). lia.
Qed.

Lemma removeInconsistentValues_not_OutOfFuel c x y :
  removeInconsistentValues c x y ≠ OutOfFuel.
Proof.
  unfold removeInconsistentValues. destruct (domains c !! x) as [dx|]; [|done].
  pose proof (revise_loop_revised x y dx c false) as Hr.
  destruct (for_of _ _ _) as [[c1 r1]|r0]; [done|by subst r0].
Qed.

Lemma arcLoop_terminates fuel queue c nb :
  neighbours c = Some nb →
  length queue + domainSize c * S (neighbourCount nb) ≤ fuel →
  arcLoop fuel queue c ≠ OutOfFuel.
Proof.
  revert queue c.
  induction fuel as [|fuel IH]; intros [|[x y] queue] c Hnb Hfuel; simpl in *;
    try done; [lia|].
  destruct (removeInconsistentValues c x y) as [[[] c1]| |] eqn:Hrun; try done.
  - pose proof (removeInconsistentValues_revised _ _ _ _ _ Hrun) as Hrev.
    pose proof (removeInconsistentValues_domainSize _ _ _ _ Hrun) as Hlt.
    destruct (domains c1 !! x) as [[|v dx]|]; try done.
    rewrite (revised_neighbours _ _ _ Hrev), Hnb. simpl.
    destruct (nb !! x) as [bs|] eqn:Hbs; [|done].
    apply IH; [by rewrite (revised_neighbours _ _ _ Hrev)|].
    rewrite length_app, length_map.
    pose proof (sum_lengths_lookup nb x bs Hbs) as Hbound.
    fold (neighbourCount nb) in Hbound. nia.
  - apply removeInconsistentValues_false in Hrun as ->.
    apply IH; [done|lia].
  - by destruct (removeInconsistentValues_not_OutOfFuel c x y).
Qed.

Lemma arcConsistency_enough_fuel fuel c :
  arcFuel c ≤ fuel → arcConsistency fuel c ≠ OutOfFuel.
Proof.
  unfold arcFuel, arcConsistency. destruct (arcs c) as [arcs'|] eqn:Harcs;
    [|done].
  intros Hfuel.
  apply (arcLoop_terminates _ _ _ (default (neighboursOf arcs') (neighbours c))).
  - unfold computeNeighbours. rewrite Harcs.
    by destruct (neighbours c) eqn:Hn.
  - assert (domainSize (computeNeighbours c) = domainSize c) as ->; [|done].
    unfold computeNeighbours. rewrite Harcs. by destruct (neighbours c).
Qed.

(** X10.  AC-3 terminates: [arcConsistency] never runs out of fuel when
    given [arcFuel c] units, that is one per arc of the list plus, for each
    value in the domains, one more than the total length of the neighbour
    lists. *)
Theorem arcConsistency_terminates (fuel : nat) (c : CSP) :
  arcFuel c ≤ fuel → arcConsistency fuel c ≠ OutOfFuel.
Proof. apply arcConsistency_enough_fuel. Qed.

Lemma arcConsistency_terminates_witness :
  arcFuel LionUnicorn = 59 ∧ arcConsistency 59 LionUnicorn ≠ OutOfFuel.
Proof.
  split; [by vm_compute|].
  apply arcConsistency_terminates. by vm_compute.
Defined.

(** ** Forward checking: what a call leaves behind *)

(** What every element of a loop establishes, and no later element
    undoes, holds of all elements at the end. *)
Lemma for_of_established {X S R : Type} (body : X → S → flow S R)
    (P : X → S → Prop) xs s s' :
  (∀ x t t', body x t = Next t' → P x t') →
  (∀ x y t t', body y t = Next t' → P x t → P x t') →
  for_of body xs s = Next s' →
  ∀ x, x ∈ xs → P x s'.
Proof.
  intros Hest Hpres. revert s. induction xs as [|y xs IH]; intros s.
  { by intros _ x ?%elem_of_nil. }
  rewrite for_of_cons. destruct (body y s) as [t|] eqn:Hy; [|done].
  intros Hrest x [->|Hx]%elem_of_cons; [|by eapply IH].
  assert (∀ zs t1 t2, for_of body zs t1 = Next t2 → P y t1 → P y t2) as Hloop.
  { induction zs as [|z zs IHz]; intros t1 t2.
    - by intros [= <-].
    - rewrite for_of_cons. destruct (body z t1) eqn:Hz; [|done]. eauto. }
  eapply Hloop; eauto.
Qed.

Lemma pruneOther_establishes value other s s' :
  pruneOther value other s = Next s' → pruned_from value s'.1 other.
Proof.
  destruct s as [c atp]. unfold pruneOther.
  destruct (domains c !! other) as [domain|] eqn:Hd; [|done].
  case_bool_decide as Hin.
  - destruct (Nat.eqb _ _); [done|].
    assert (pruned_from value
              (setDomain c other (filter (λ x, x ≠ value) domain)) other).
    { eexists. split; [by simpl; rewrite lookup_insert_eq|].
      by intros [? _]%list_elem_of_filter. }
    destruct (filter _ domain) as [|? [|??]]; by intros [= <-].
  - intros [= <-]. by exists domain.
Qed.

Lemma pruneOther_preserves value other o s s' :
  pruneOther value other s = Next s' →
  pruned_from value s.1 o → pruned_from value s'.1 o.
Proof.
  intros Hstep Hprev. destruct (decide (o = other)) as [->|Hne].
  { by eapply pruneOther_establishes. }
  destruct s as [c atp]. unfold pruneOther in Hstep.
  destruct (domains c !! other) as [domain|] eqn:Hd; [|done].
  case_bool_decide as Hin; [|by injection Hstep as <-].
  destruct (Nat.eqb _ _); [done|].
  assert (pruned_from value
            (setDomain c other (filter (λ x, x ≠ value) domain)) o).
  { destruct Hprev as (d & Hd' & Hnot). exists d. split; [|done].
    by simpl; rewrite lookup_insert_ne. }
  destruct (filter _ domain) as [|? [|??]]; by injection Hstep as <-.
Qed.

Lemma forwardBody_preserves variable value k o s s' :
  forwardBody variable value k s = Next s' →
  pruned_from value s.1 o → pruned_from value s'.1 o.
Proof.
  destruct k as [target|vars]; simpl; [by intros [= <-]|].
  case_bool_decide; [|by intros [= <-]].
  intros Hloop Hprev.
  pose proof (for_of_inv (λ t, pruned_from value t.1 o) (λ _, True)
    (pruneOther value) (filter (λ v, v ≠ variable) vars) s Hprev) as Hinv.
  rewrite Hloop in Hinv. apply Hinv. intros other t _ Ht.
  destruct (pruneOther value other t) eqn:Hstep; [|done].
  by eapply pruneOther_preserves.
Qed.

Lemma forwardBody_loop_prunes variable value cs s s' :
  for_of (forwardBody variable value) cs s = Next s' →
  ∀ vars other,
    MUST_BE_DISTINCT vars ∈ cs → variable ∈ vars →
    other ∈ vars → other ≠ variable →
    pruned_from value s'.1 other.
Proof.
  intros Hloop vars other Hk Hvar Hother Hne.
  refine (for_of_established (forwardBody variable value)
    (λ k t, ∀ vars other, k = MUST_BE_DISTINCT vars → variable ∈ vars →
              other ∈ vars → other ≠ variable → pruned_from value t.1 other)
    cs s s' _ _ Hloop (MUST_BE_DISTINCT vars) Hk vars other eq_refl
    Hvar Hother Hne).
  - intros k t t' Hbody vars' o -> Hvar' Ho Hne'. simpl in Hbody.
    rewrite bool_decide_eq_true_2 in Hbody by done.
    refine (for_of_established (pruneOther value)
      (λ o t, pruned_from value t.1 o) _ t t' _ _ Hbody o _).
    + intros ???. apply pruneOther_establishes.
    + intros ????. apply pruneOther_preserves.
    + by apply list_elem_of_filter.
  - intros k k' t t' Hbody Hk' vars' o -> Hvar' Ho Hne'.
    eapply forwardBody_preserves; [done|]. by eapply Hk'.
Qed.

Lemma same_or_without_refl value c z : same_or_without value c c z.
Proof. by left. Qed.

Lemma pruneOther_same_or_without value c0 other s :
  (∀ z, same_or_without value c0 s.1 z) →
  match pruneOther value other s with
  | Next s' => ∀ z, same_or_without value c0 s'.1 z
  | Return r => ∀ res c', r = Ok (res, c') → ∀ z, same_or_without value c0 c' z
  end.
Proof.
  destruct s as [c atp]. simpl. intros Hprev. unfold pruneOther.
  destruct (domains c !! other) as [domain|] eqn:Hd; [|done].
  case_bool_decide as Hin; [|done].
  destruct (Nat.eqb _ _); [by intros res c' [= _ <-]|].
  assert (∀ z, same_or_without value c0
            (setDomain c other (filter (λ x, x ≠ value) domain)) z) as Hnew.
  { intros z. destruct (decide (z = other)) as [->|Hne].
    - destruct (Hprev other) as [Hsame|(d & Hd0 & Hd1)].
      + right. exists domain. simpl. rewrite lookup_insert_eq.
        split; [congruence|done].
      + rewrite Hd in Hd1. injection Hd1 as ->.
        by apply list_elem_of_filter in Hin as [? _].
    - destruct (Hprev z) as [Hsame|(d & Hd0 & Hd1)]; [left|right].
      + by simpl; rewrite lookup_insert_ne.
      + exists d. by simpl; rewrite lookup_insert_ne. }
  by destruct (filter _ domain) as [|? [|??]].
Qed.

Lemma forwardBody_loop_same_or_without variable value c0 cs s :
  domains s.1 !! variable = Some [value] →
  (∀ z, same_or_without value c0 s.1 z) →
  match for_of (forwardBody variable value) cs s with
  | Next s' =>
      domains s'.1 !! variable = Some [value] ∧
      ∀ z, same_or_without value c0 s'.1 z
  | Return r =>
      ∀ res c', r = Ok (res, c') →
        domains c' !! variable = Some [value] ∧
        ∀ z, same_or_without value c0 c' z
  end.
Proof.
  intros Hvar Hprev.
  apply (for_of_inv
    (λ t, domains t.1 !! variable = Some [value] ∧
          ∀ z, same_or_without value c0 t.1 z)
    (λ r, ∀ res c', r = Ok (res, c') →
          domains c' !! variable = Some [value] ∧
          ∀ z, same_or_without value c0 c' z)); [done|].
  intros k t _ Ht. destruct k as [target|vars]; simpl; [done|].
  case_bool_decide; [|done].
  apply (for_of_inv
    (λ t, domains t.1 !! variable = Some [value] ∧
          ∀ z, same_or_without value c0 t.1 z)
    (λ r, ∀ res c', r = Ok (res, c') →
          domains c' !! variable = Some [value] ∧
          ∀ z, same_or_without value c0 c' z)); [done|].
  intros other [c1 atp1] [Hne _]%list_elem_of_filter [Hv1 Hs1].
  pose proof (pruneOther_same_or_without value c0 other (c1, atp1) Hs1) as Hstep.
  simpl in Hv1.
  assert (∀ d, domains (setDomain c1 other d) !! variable = Some [value])
    as Hkeep by (by intros d; simpl; rewrite lookup_insert_ne).
  unfold pruneOther in *.
  destruct (domains c1 !! other) as [domain|]; [|done].
  case_bool_decide; [|done].
  destruct (Nat.eqb _ _).
  - intros res c' Hr. split; [|by eapply Hstep]. by injection Hr as _ <-.
  - destruct (filter _ domain) as [|? [|??]]; split; try done; apply Hkeep.
Qed.

Lemma forwardChecking_result fuel c variable value r c' :
  forwardChecking fuel c variable value = Ok (r, c') →
  domains c' !! variable = Some [value] ∧
  (∀ z, z ≠ variable → same_or_without value c c' z) ∧
  (r ≠ RUndefined →
   ∀ vars other,
     MUST_BE_DISTINCT vars ∈ constraints c → variable ∈ vars →
     other ∈ vars → other ≠ variable → pruned_from value c' other).
Proof.
  destruct fuel as [|fuel]; [done|]. cbn [forwardChecking]. intros Hrun.
  set (c0 := setDomain c variable [value]) in *.
  assert (∀ c1, (∀ z, same_or_without value c0 c1 z) →
                ∀ z, z ≠ variable → same_or_without value c c1 z) as Hback.
  { intros c1 H1 z Hz. destruct (H1 z) as [Hs|(d & Hd0 & Hd1)].
    - left. rewrite Hs. by simpl; rewrite lookup_insert_ne.
    - right. exists d. split; [|done]. revert Hd0.
      by simpl; rewrite lookup_insert_ne. }
  pose proof (forwardBody_loop_same_or_without variable value c0
    (constraints c0) (c0, [])) as Hinv.
  pose proof (forwardBody_loop_prunes variable value (constraints c0) (c0, []))
    as Hprunes.
  pose proof (forwardBody_Return_loop variable value (constraints c0) (c0, []))
    as Hret.
  destruct (for_of _ _ _) as [[c1 atp]|r0].
  - assert (c' = c1 ∧ r ≠ RUndefined) as [-> Hr].
    { destruct atp as [|vx atp]; [by injection Hrun as <- <-|].
      destruct (findE _ _); try done. by injection Hrun as <- <-. }
    destruct Hinv as [Hv Hs];
      [by simpl; rewrite lookup_insert_eq|by intros z; left|].
    split; [done|]. split; [by apply Hback|].
    intros _ vars other. by apply (Hprunes _ eq_refl).
  - subst r0.
    destruct (Hinv (lookup_insert_eq _ _ _) (same_or_without_refl _ _)
                   r c' eq_refl) as [Hv Hs].
    split; [done|]. split; [by apply Hback|].
    intros Hr. by destruct (Hret _ eq_refl) as [?|[c2 [= -> _]]].
Qed.

(** X11.  What a returning call [forwardChecking(csp, variable, value)]
    leaves in [csp]: the domain of [variable] is [[value]]; every other
    domain is as before or as before without [value]; and, when the call
    returned a boolean, [value] is gone from the domain of every other
    variable that shares a [MUST_BE_DISTINCT] constraint with
    [variable]. *)
Theorem forwardChecking_postcondition (fuel : nat) (c c' : CSP)
    (variable : string) (value : jsval) (r : jsret) :
  forwardChecking fuel c variable value = Ok (r, c') →
  domains c' !! variable = Some [value] ∧
  (∀ z, z ≠ variable → same_or_without value c c' z) ∧
  (r ≠ RUndefined →
   ∀ vars other,
     MUST_BE_DISTINCT vars ∈ constraints c → variable ∈ vars →
     other ∈ vars → other ≠ variable → pruned_from value c' other).
Proof. apply forwardChecking_result. Qed.

Lemma forwardChecking_postcondition_witness :
  match forwardChecking 3 chainCSP "y" (VNumber 1) with
  | Ok (r, c') =>
      domains c' !! "y" = Some [VNumber 1] ∧
      (∀ z, z ≠ "y" → same_or_without (VNumber 1) chainCSP c' z) ∧
      (r ≠ RUndefined →
       ∀ vars other,
         MUST_BE_DISTINCT vars ∈ constraints chainCSP → "y" ∈ vars →
         other ∈ vars → other ≠ "y" → pruned_from (VNumber 1) c' other)
  | _ => False
  end.
Proof.
  assert (returned (forwardChecking 3 chainCSP "y" (VNumber 1)) = true) as Hok
    by (vm_compute; reflexivity).
  destruct (forwardChecking 3 chainCSP "y" (VNumber 1)) as [[r c']| |] eqn:Hrun;
    [|discriminate Hok..].
  exact (forwardChecking_postcondition 3 chainCSP c' "y" (VNumber 1) r Hrun).
Defined.

(** ** Forward checking terminates *)

Lemma findE_not_OutOfFuel {X : Type} (pred : X → outcome bool) xs :
  (∀ x, x ∈ xs → pred x ≠ OutOfFuel) → findE pred xs ≠ OutOfFuel.
Proof.
  induction xs as [|x xs IH]; intros Hall; simpl; [done|].
  pose proof (Hall x (list_elem_of_here _ _)) as Hx.
  destruct (pred x) as [[]| |]; try done.
  apply IH. intros y Hy. apply Hall. by right.
Qed.

Lemma setDomain_id c x d : domains c !! x = Some d → setDomain c x d = c.
Proof.
  intros Hx. destruct c. unfold setDomain. simpl in *. f_equal.
  by apply insert_id.
Qed.

(** What the pruning loops keep: the domains have not grown, they have
    shrunk if a variable was recorded for propagation, and every recorded
    variable has exactly its recorded value left, which is not [value]. *)
Lemma pruneOther_cascade value n other s :
  (domainSize s.1 ≤ n ∧ (s.2 ≠ [] → domainSize s.1 < n) ∧
   ∀ v x, (v, x) ∈ s.2 → domains s.1 !! v = Some [x] ∧ x ≠ value) →
  match pruneOther value other s with
  | Next s' =>
      domainSize s'.1 ≤ n ∧ (s'.2 ≠ [] → domainSize s'.1 < n) ∧
      ∀ v x, (v, x) ∈ s'.2 → domains s'.1 !! v = Some [x] ∧ x ≠ value
  | Return _ => True
  end.
Proof.
  destruct s as [c atp]. simpl. intros (Hle & Hlt & Hatp). unfold pruneOther.
  destruct (domains c !! other) as [domain|] eqn:Hd; [|done].
  case_bool_decide as Hin; [|done].
  destruct (Nat.eqb _ _); [done|].
  set (domain' := filter (λ x, x ≠ value) domain).
  assert (domainSize (setDomain c other domain') < n) as Hsmaller.
  { unfold domainSize in *. simpl.
    pose proof (sum_lengths_insert (domains c) other domain domain' Hd).
    assert (length domain' < length domain); [|lia].
    apply (length_filter_lt _ _ value); [done|]. by intros ?. }
  assert (∀ v x, (v, x) ∈ atp →
            domains (setDomain c other domain') !! v = Some [x] ∧ x ≠ value)
    as Hold.
  { intros v x Hvx. destruct (Hatp v x Hvx) as [Hv Hne]. split; [|done].
    simpl. rewrite lookup_insert_ne; [done|]. intros <-.
    rewrite Hd in Hv. injection Hv as ->.
    by apply list_elem_of_singleton in Hin. }
  assert (∀ v, domain' = [v] → v ≠ value) as Hnew.
  { intros v Hv. assert (v ∈ domain') as Hv' by (rewrite Hv; by left).
    by apply list_elem_of_filter in Hv' as [? _]. }
  destruct domain' as [|v [|??]] eqn:Hdom; simpl;
    (split; [lia|]; split; [intros _; lia|]); try done.
  intros v' x [Hvx|[= -> ->]%list_elem_of_singleton]%elem_of_app.
  - by apply Hold.
  - split; [|by apply Hnew]. by rewrite lookup_insert_eq.
Qed.

Lemma forwardBody_loop_cascade variable value n cs s :
  (domainSize s.1 ≤ n ∧ (s.2 ≠ [] → domainSize s.1 < n) ∧
   ∀ v x, (v, x) ∈ s.2 → domains s.1 !! v = Some [x] ∧ x ≠ value) →
  match for_of (forwardBody variable value) cs s with
  | Next s' =>
      domainSize s'.1 ≤ n ∧ (s'.2 ≠ [] → domainSize s'.1 < n) ∧
      ∀ v x, (v, x) ∈ s'.2 → domains s'.1 !! v = Some [x] ∧ x ≠ value
  | Return _ => True
  end.
Proof.
  intros Hs.
  apply (for_of_inv
    (λ t, domainSize t.1 ≤ n ∧ (t.2 ≠ [] → domainSize t.1 < n) ∧
          ∀ v x, (v, x) ∈ t.2 → domains t.1 !! v = Some [x] ∧ x ≠ value)
    (λ _, True)); [done|].
  intros k t _ Ht. destruct k as [target|vars]; simpl; [done|].
  case_bool_decide; [|done].
  apply (for_of_inv
    (λ t, domainSize t.1 ≤ n ∧ (t.2 ≠ [] → domainSize t.1 < n) ∧
          ∀ v x, (v, x) ∈ t.2 → domains t.1 !! v = Some [x] ∧ x ≠ value)
    (λ _, True)); [done|].
  intros other u _ Hu. by apply pruneOther_cascade.
Qed.

Lemma forwardChecking_enough_fuel fuel c variable value :
  domainSize (setDomain c variable [value]) < fuel →
  forwardChecking fuel c variable value ≠ OutOfFuel.
Proof.
  revert c variable value.
  induction fuel as [|fuel IH]; intros c variable value Hfuel; [lia|].
  cbn [forwardChecking].
  set (c0 := setDomain c variable [value]) in *.
  pose proof (forwardBody_loop_cascade variable value (domainSize c0)
    (constraints c0) (c0, [])) as Hloop.
  pose proof (forwardBody_Return_loop variable value (constraints c0) (c0, []))
    as Hret.
  destruct (for_of _ _ _) as [[c1 atp]|r0].
  - destruct Hloop as (Hle & Hlt & Hatp).
    { simpl. split; [done|]. split; [done|]. by intros v x ?%elem_of_nil. }
    destruct atp as [|vx atp]; [done|].
    specialize (Hlt ltac:(done)). simpl in Hlt.
    pose proof (findE_not_OutOfFuel
      (λ vx : string * jsval,
         match forwardChecking fuel c1 vx.1 vx.2 with
         | Ok (r, _) => Ok (truthy r)
         | Throw => Throw
         | OutOfFuel => OutOfFuel
         end) (vx :: atp)) as Hfind.
    destruct (findE _ _); try done. intros _. apply Hfind; [|done].
    intros [v x] Hvx. simpl.
    destruct (Hatp v x Hvx) as [Hv _]. simpl in Hv.
    specialize (IH c1 v x). rewrite (setDomain_id c1 v [x] Hv) in IH.
    destruct (forwardChecking fuel c1 v x) as [[??]| |]; try done.
    intros _. apply IH; [lia|done].
  - by destruct (Hret _ eq_refl) as [->|[c2 ->]].
Qed.

(** X12.  Forward checking terminates: with more fuel than there are
    values in the domains once [variable]'s domain has been collapsed to
    [[value]], [forwardChecking] does not run out of fuel (every level of
    the cascade starts from domains with fewer values). *)
Theorem forwardChecking_terminates (fuel : nat) (c : CSP)
    (variable : string) (value : jsval) :
  domainSize (setDomain c variable [value]) < fuel →
  forwardChecking fuel c variable value ≠ OutOfFuel.
Proof. apply forwardChecking_enough_fuel. Qed.

Lemma forwardChecking_terminates_witness :
  domainSize (setDomain chainCSP "x" [VNumber 1]) = 4 ∧
  forwardChecking 5 chainCSP "x" (VNumber 1) ≠ OutOfFuel.
Proof.
  split; [by vm_compute|].
  apply forwardChecking_terminates. by vm_compute.
Defined.

(** ** The basic solver *)

Section basic_tryValues.
Context (rec : Assignment → outcome (option Assignment)).
Context (csp : Basic.CSP) (assignment : Assignment) (u : string).

Lemma basic_tryValues_Some values A :
  Basic.tryValues rec csp assignment u values = Ok (Some A) →
  ∃ value, value ∈ values ∧
    Basic.constraints csp (<[u := value]> assignment) = true ∧
    rec (<[u := value]> assignment) = Ok (Some A).
Proof.
  induction values as [|value values IH]; simpl; [done|].
  destruct (Basic.constraints csp _) eqn:HP.
  - destruct (rec _) as [[result|]| |] eqn:Hrec; try done.
    + intros [= ->]. exists value. split; [by left|done].
    + intros (v & ? & ?)%IH. exists v. split; [by right|done].
  - intros (v & ? & ?)%IH. exists v. split; [by right|done].
Qed.

Lemma basic_tryValues_None values :
  Basic.tryValues rec csp assignment u values = Ok None →
  ∀ value, value ∈ values →
    Basic.constraints csp (<[u := value]> assignment) = false ∨
    rec (<[u := value]> assignment) = Ok None.
Proof.
  induction values as [|value values IH]; simpl.
  { by intros _ v ?%elem_of_nil. }
  destruct (Basic.constraints csp _) eqn:HP.
  - destruct (rec _) as [[result|]| |] eqn:Hrec; try done.
    intros Hrest v [->|Hv]%elem_of_cons; [by right|by apply IH].
  - intros Hrest v [->|Hv]%elem_of_cons; [by left|by apply IH].
Qed.

Lemma basic_tryValues_fuel values :
  (∀ value, value ∈ values → rec (<[u := value]> assignment) ≠ OutOfFuel) →
  Basic.tryValues rec csp assignment u values ≠ OutOfFuel.
Proof.
  induction values as [|value values IH]; simpl; intros Hall; [done|].
  assert (Basic.tryValues rec csp assignment u values ≠ OutOfFuel) as Hrest.
  { apply IH. intros v Hv. apply Hall. by right. }
  destruct (Basic.constraints csp _); [|done].
  pose proof (Hall value (list_elem_of_here _ _)) as Hv.
  by destruct (rec _) as [[result|]| |].
Qed.
End basic_tryValues.

Lemma size_le_variables (vars : list string) (a : Assignment) :
  (∀ k, is_Some (a !! k) → k ∈ vars) → size a ≤ length vars.
Proof.
  intros Hkeys.
  rewrite <-length_map_to_list, <-(length_fmap fst).
  apply submseteq_length, NoDup_submseteq; [apply NoDup_fst_map_to_list|].
  intros k ([k' x] & -> & Hkx%elem_of_map_to_list)%list_elem_of_fmap.
  apply Hkeys. by exists x.
Qed.

Lemma size_complete (vars : list string) (a : Assignment) :
  NoDup vars →
  (∀ k, is_Some (a !! k) → k ∈ vars) →
  (∀ v, v ∈ vars → is_Some (a !! v)) →
  size a = length vars.
Proof.
  intros Hnd Hkeys Hall.
  rewrite <-length_map_to_list, <-(length_fmap fst).
  apply Permutation_length, NoDup_Permutation;
    [apply NoDup_fst_map_to_list|done|].
  intros k. split.
  - intros ([k' x] & -> & Hkx%elem_of_map_to_list)%list_elem_of_fmap.
    apply Hkeys. by exists x.
  - intros [x Hx]%Hall. apply list_elem_of_fmap. exists (k, x).
    split; [done|]. by apply elem_of_map_to_list.
Qed.

(** With distinct variables, an assignment of variables only that is not
    yet of full size has an unassigned variable, and that is the one
    picked. *)
Lemma pickUnassigned_found vars (a : Assignment) :
  NoDup vars →
  (∀ k, is_Some (a !! k) → k ∈ vars) →
  size a ≠ length vars →
  pickUnassigned vars a ∈ vars ∧ a !! pickUnassigned vars a = None.
Proof.
  intros Hnd Hkeys Hsize.
  destruct (pickUnassigned_spec vars a) as [?|Hall]; [done|].
  by destruct Hsize; apply size_complete.
Qed.

Lemma keys_insert (vars : list string) (a : Assignment) u x :
  u ∈ vars →
  (∀ k, is_Some (a !! k) → k ∈ vars) →
  ∀ k, is_Some (<[u := x]> a !! k) → k ∈ vars.
Proof.
  intros Hu Hkeys k. rewrite lookup_insert_is_Some'. intros [<-|?]; eauto.
Qed.

Lemma basic_sound fuel csp (a A : Assignment) :
  good_keys (Basic.variables csp) a →
  size a ≠ length (Basic.variables csp) ∨ Basic.constraints csp a = true →
  Basic.recursiveBacktracking fuel csp a = Ok (Some A) →
  (∀ v, v ∈ Basic.variables csp → is_Some (A !! v)) ∧
  Basic.constraints csp A = true.
Proof.
  revert a. induction fuel as [|fuel IH]; intros a Hgood Hinit; [done|].
  cbn [Basic.recursiveBacktracking].
  destruct (Nat.eqb _ _) eqn:Hsize.
  { apply Nat.eqb_eq in Hsize. intros [= <-]. split.
    - by apply good_keys_complete.
    - by destruct Hinit. }
  destruct (Basic.domains csp !! _) as [values|]; [|done].
  intros (value & _ & HP & Hrec)%basic_tryValues_Some.
  eapply IH; [|by right|done]. by apply good_keys_insert.
Qed.



Lemma basic_complete fuel csp (a : Assignment) :
  NoDup (Basic.variables csp) →
  downward_closed (Basic.constraints csp) →
  (∀ k, is_Some (a !! k) → k ∈ Basic.variables csp) →
  Basic.recursiveBacktracking fuel csp a = Ok None →
  ∀ S : Assignment,
    a ⊆ S → total_on (Basic.variables csp) (Basic.domains csp) S →
    Basic.constraints csp S = false.
Proof.
  intros Hnd Hdown. revert a.
  induction fuel as [|fuel IH]; intros a Hkeys; [done|].
  cbn [Basic.recursiveBacktracking].
  destruct (Nat.eqb _ _) eqn:Hsize; [done|].
  apply Nat.eqb_neq in Hsize.
  destruct (pickUnassigned_found _ a Hnd Hkeys Hsize) as [Hu Hnone].
  destruct (Basic.domains csp !! _) as [values|] eqn:Hdom; [|done].
  intros Hloop S Hsub Htotal.
  destruct (Htotal _ Hu) as (x & d & HSu & Hd & Hx).
  assert (d = values) as -> by congruence.
  assert (<[pickUnassigned (Basic.variables csp) a := x]> a ⊆ S) as Hsub'.
  { by apply insert_subseteq_l. }
  destruct (basic_tryValues_None _ _ _ _ _ Hloop x Hx) as [HP|Hrec].
  - destruct (Basic.constraints csp S) eqn:HS; [|done].
    by rewrite (Hdown _ _ Hsub' HS) in HP.
  - by eapply IH; [apply keys_insert|..].
Qed.


Lemma validate_downward_closed (K : list Constraint) :
  downward_closed (λ a, validateConstraints a K false).
Proof.
  intros a a' Hsub Hvalid. simpl in *.
  destruct (validateConstraints a K false) eqn:Ha; [done|].
  by rewrite (validateConstraints_extends a a' K Hsub Ha) in Hvalid.
Qed.


Lemma basic_terminates fuel csp (a : Assignment) :
  NoDup (Basic.variables csp) →
  (∀ k, is_Some (a !! k) → k ∈ Basic.variables csp) →
  length (Basic.variables csp) < fuel + size a →
  Basic.recursiveBacktracking fuel csp a ≠ OutOfFuel.
Proof.
  intros Hnd. revert a. induction fuel as [|fuel IH]; intros a Hkeys Hfuel.
  { pose proof (size_le_variables _ a Hkeys). simpl in *. lia. }
  cbn [Basic.recursiveBacktracking].
  destruct (Nat.eqb _ _) eqn:Hsize; [done|].
  apply Nat.eqb_neq in Hsize.
  destruct (pickUnassigned_found _ a Hnd Hkeys Hsize) as [Hu Hnone].
  destruct (Basic.domains csp !! _) as [values|]; [|done].
  apply basic_tryValues_fuel. intros value _. apply IH.
  - by apply keys_insert.
  - rewrite map_size_insert_None by done. lia.
Qed.



(** ** The full solver without options is the basic solver *)

Section refinement.
Context (c : CSP).
Context (rec : nat → Assignment → state → outcome (option Assignment * state)).
Context (brec : Assignment → outcome (option Assignment)).
Context (fuel : nat) (assignment : Assignment).
Hypothesis rec_frame :
  ∀ l a σ r σ', rec l a σ = Ok (r, σ') → heap_extends σ σ'.
Hypothesis rec_refines :
  ∀ l a σ, heap σ !! l = Some c → resultOf (rec l a σ) = brec a.

Lemma tryValues_refines l u values σ :
  heap σ !! l = Some c →
  resultOf (tryValues rec fuel plain assignment l c u values σ)
    = Basic.tryValues brec (toBasic c) assignment u values.
Proof using rec_frame rec_refines.
  revert σ. induction values as [|value values IH]; intros σ Hl; simpl; [done|].
  assert (heap (countValidation σ) !! l = Some c) as Hl0 by done.
  revert Hl0. generalize (countValidation σ). clear σ Hl. intros σ Hl.
  destruct (validateConstraints _ _ _); [|by apply IH].
  destruct (cloneDeep l σ) as [[newCsp σ1]| |] eqn:Hclone.
  2,3: by unfold cloneDeep in Hclone; rewrite Hl in Hclone.
  pose proof (rec_refines newCsp (<[u := value]> assignment) σ1) as Href.
  rewrite (cloneDeep_lookup _ _ _ _ Hclone) in Href. specialize (Href Hl).
  destruct (rec _ _ σ1) as [[[result|] σ2]| |] eqn:Hrec; simpl in Href;
    rewrite <-Href; try done.
  apply IH. eapply rec_frame; [done|]. by eapply cloneDeep_extends.
Qed.
End refinement.

Lemma recursiveBacktracking_plain_basic fuel c l assignment σ :
  heap σ !! l = Some c →
  resultOf (recursiveBacktracking fuel l assignment plain σ)
    = Basic.recursiveBacktracking fuel (toBasic c) assignment.
Proof.
  revert l assignment σ.
  induction fuel as [|fuel IH]; intros l assignment σ Hl; [done|].
  cbn [recursiveBacktracking Basic.recursiveBacktracking].
  unfold recursiveBacktracking_body. rewrite Hl. simpl.
  destruct (Nat.eqb _ _); [done|].
  unfold search. rewrite Hl.
  destruct (domains c !! _) as [values|]; [|done].
  apply tryValues_refines; [|by eauto|done].
  intros l0 a0 σ0 r σ0'. apply recursiveBacktracking_extends.
Qed.

(** X16.  Without options the full solver computes what the basic solver
    computes on the same variables and domains with the constraint
    function "the non-strict validator accepts": same result, same
    exception, same fuel. *)
Theorem solve_plain_is_basic (fuel : nat) (c : CSP) (assignment : Assignment) :
  solve fuel c assignment plain
    = Basic.recursiveBacktracking fuel (toBasic c) assignment.
Proof. by apply (recursiveBacktracking_plain_basic fuel c 0). Qed.



(** ** The full solver: where the values of a result come from *)

Lemma forwardChecking_shrink fuel csp variable value d r csp' :
  domains csp !! variable = Some d → value ∈ d →
  forwardChecking fuel csp variable value = Ok (r, csp') →
  domains_shrink csp csp'.
Proof.
  intros Hd Hin Hrun.
  destruct fuel as [|fuel]; [done|]. cbn [forwardChecking] in Hrun.
  assert (domains_shrink csp (setDomain csp variable [value])) as Hfirst.
  { eapply domains_shrink_setDomain; [done|].
    intros v Hv. by apply list_elem_of_singleton in Hv as ->. }
  pose proof (forwardBody_loop_shrink variable value
    (constraints (setDomain csp variable [value]))
    (setDomain csp variable [value]) []) as Hloop.
  destruct (for_of _ _ _) as [[c atp]|r0].
  - simpl in Hloop. assert (csp' = c) as ->; [|by eapply domains_shrink_trans].
    destruct atp as [|vx atp]; [by injection Hrun|].
    destruct (findE _ _); try done. by injection Hrun.
  - subst r0. eapply domains_shrink_trans; eauto.
Qed.

Lemma only_pruned_shrink c c' : only_pruned c c' → domains_shrink c c'.
Proof.
  intros (_ & _ & _ & Hd) z d' Hz. specialize (Hd z). rewrite Hz in Hd.
  destruct (domains c !! z) as [d|]; [|done].
  exists d. split; [done|]. by apply sublist_subseteq.
Qed.

Lemma from_domains_shrink c c' a A :
  domains_shrink c c' → from_domains c' a A → from_domains c a A.
Proof.
  intros Hshrink Hfrom k x Hk. destruct (Hfrom k x Hk) as [?|(d' & Hd' & Hx)];
    [by left|right].
  destruct (Hshrink k d' Hd') as (d & Hd & Hsub). exists d. split; [done|].
  by apply Hsub.
Qed.

Lemma pickUnassigned_fresh vars (a : Assignment) :
  a !! pickUnassigned vars a = None ∨ pickUnassigned vars a = "undefined".
Proof.
  unfold pickUnassigned.
  destruct (List.find _ vars) as [u|] eqn:Hfind; simpl; [left|by right].
  apply find_some in Hfind as [_ Hu]. by apply bool_decide_eq_true in Hu.
Qed.

Section values.
Context (rec : nat → Assignment → state → outcome (option Assignment * state)).
Context (fuel : nat) (options : SolverOptions).
Hypothesis rec_frame :
  ∀ l a σ r σ', rec l a σ = Ok (r, σ') → heap_extends σ σ'.
Hypothesis rec_values :
  ∀ l a σ A σ' c,
    heap σ !! l = Some c → rec l a σ = Ok (Some A, σ') →
    from_domains c a A ∧ keeps a A.

Lemma tryValues_values assignment csp c u du values σ A σ' :
  heap σ !! csp = Some c →
  domains c !! u = Some du → values ⊆ du →
  assignment !! u = None ∨ u = "undefined" →
  tryValues rec fuel options assignment csp c u values σ = Ok (Some A, σ') →
  from_domains c assignment A ∧ keeps assignment A.
Proof using rec_frame rec_values.
  intros Hc Hdu Hsub Hu. revert σ Hc Hsub.
  induction values as [|value values IH]; intros σ Hc Hsub; simpl; [done|].
  assert (heap (countValidation σ) !! csp = Some c) as Hc0 by done.
  revert Hc0. generalize (countValidation σ). clear σ Hc. intros σ Hc.
  assert (values ⊆ du) as Hrest by (intros v Hv; apply Hsub; by right).
  assert (value ∈ du) as Hvalue by (apply Hsub; by left).
  destruct (validateConstraints _ _ _); [|by apply IH].
  destruct (cloneDeep csp σ) as [[newCsp σ1]| |] eqn:Hclone; try done.
  assert (∀ σ2 c2, heap_extends σ σ2 → heap σ2 !! newCsp = Some c2 →
    domains_shrink c c2 →
    match rec newCsp (<[u:=value]> assignment) σ2 with
    | Ok (Some result, σ3) => Ok (Some result, σ3)
    | Ok (None, σ3) => tryValues rec fuel options assignment csp c u values σ3
    | Throw => Throw
    | OutOfFuel => OutOfFuel
    end = Ok (Some A, σ') →
    from_domains c assignment A ∧ keeps assignment A) as Hdescend.
  { intros σ2 c2 Hext Hc2 Hshrink.
    destruct (rec _ _ σ2) as [[[result|] σ3]| |] eqn:Hrec; try done.
    - intros [= <- <-].
      destruct (rec_values _ _ _ _ _ _ Hc2 Hrec) as [Hfrom Hkeeps]. split.
      + intros k x Hk.
        destruct (from_domains_shrink _ _ _ _ Hshrink Hfrom k x Hk)
          as [Hnew|?]; [|by right].
        destruct (decide (u = k)) as [<-|Hne].
        * rewrite lookup_insert_eq in Hnew. injection Hnew as <-.
          right. by exists du.
        * left. by rewrite lookup_insert_ne in Hnew.
      + intros a0 Ha0 Hundef. apply Hkeeps; [|done].
        apply insert_subseteq_r; [|done].
        destruct Hu as [Hu| ->]; [|done].
        by eapply lookup_weaken_None.
    - apply IH; [|done]. by eapply rec_frame, Hext. }
  destruct (optForwardChecking options).
  - destruct (onObject _ newCsp σ1) as [[r1 σ2]| |] eqn:Hfc; try done.
    destruct (clone_then_write _ _ _ _ _ _ _ Hclone Hfc)
      as (Hext & c1 & c2 & Hc1 & Hrun & Hc2).
    destruct (truthy r1); [done|].
    apply (Hdescend σ2 c2); [done..|].
    assert (c1 = c) as -> by congruence.
    by eapply forwardChecking_shrink.
  - apply (Hdescend σ1 c); [by eapply cloneDeep_extends| |].
    + by rewrite (cloneDeep_lookup _ _ _ _ Hclone).
    + apply domains_shrink_refl.
Qed.

Lemma recursiveBacktracking_body_values assignment csp c σ A σ' :
  heap σ !! csp = Some c →
  recursiveBacktracking_body rec fuel options assignment csp σ
    = Ok (Some A, σ') →
  from_domains c assignment A ∧ keeps assignment A.
Proof using rec_frame rec_values.
  intros Hc. unfold recursiveBacktracking_body. rewrite Hc.
  destruct (Nat.eqb _ _).
  { intros [= <- _]. split; [by left|by intros a0 ? _]. }
  assert (∀ l σ0 c0, heap σ0 !! l = Some c0 →
    search rec fuel options assignment l σ0 = Ok (Some A, σ') →
    from_domains c0 assignment A ∧ keeps assignment A) as Hsearch.
  { intros l σ0 c0 Hc0. unfold search. rewrite Hc0.
    destruct (domains c0 !! _) as [values|] eqn:Hdom; [|done].
    eapply tryValues_values; [done..|]. apply pickUnassigned_fresh. }
  destruct (optArcConsistency options); [|by apply Hsearch].
  destruct (cloneDeep csp σ) as [[csp' σ1]| |] eqn:Hclone; try done.
  destruct (onObject _ csp' σ1) as [[wipeout σ2]| |] eqn:Hac; try done.
  destruct (clone_then_write _ _ _ _ _ _ _ Hclone Hac)
    as (Hext & c1 & c2 & Hc1 & Hrun & Hc2).
  destruct wipeout; [done|].
  assert (c1 = c) as -> by congruence.
  apply arcConsistency_pruned in Hrun as [Hp%only_pruned_shrink _].
  intros [Hfrom Hkeeps]%(Hsearch _ _ c2 Hc2). split; [|done].
  by eapply from_domains_shrink.
Qed.
End values.

Lemma recursiveBacktracking_values fuel csp c assignment options σ A σ' :
  heap σ !! csp = Some c →
  recursiveBacktracking fuel csp assignment options σ = Ok (Some A, σ') →
  from_domains c assignment A ∧ keeps assignment A.
Proof.
  revert csp c assignment σ A σ'.
  induction fuel as [|fuel IH]; intros csp c assignment σ A σ' Hc; [done|].
  cbn [recursiveBacktracking].
  apply recursiveBacktracking_body_values; [|by eauto|done].
  intros l a σ1 r σ1'. apply recursiveBacktracking_extends.
Qed.

(** X18.  Where the entries of a result come from.  Under any options,
    every entry of an assignment that [recursiveBacktracking] returns is
    an entry of the initial assignment or a value from the domain the
    caller's CSP gives its variable; and the result keeps the whole
    initial assignment when that has no entry under the key
    ["undefined"]. *)
Theorem recursiveBacktracking_result_entries (fuel : nat) (csp : nat)
    (c : CSP) (assignment A : Assignment) (options : SolverOptions)
    (σ σ' : state) :
  heap σ !! csp = Some c →
  recursiveBacktracking fuel csp assignment options σ = Ok (Some A, σ') →
  (∀ k x, A !! k = Some x →
     assignment !! k = Some x ∨ ∃ d, domains c !! k = Some d ∧ x ∈ d) ∧
  (assignment !! "undefined" = None → assignment ⊆ A).
Proof.
  intros Hc Hrun.
  destruct (recursiveBacktracking_values _ _ _ _ _ _ _ _ Hc Hrun)
    as [Hfrom Hkeeps].
  split; [done|]. by apply Hkeeps.
Qed.

Lemma recursiveBacktracking_result_entries_witness :
  match recursiveBacktracking 20 0 (<["lion" := VBoolean true]> ∅) withBoth
          (initial LionUnicorn) with
  | Ok (Some A, _) =>
      (∀ k x, A !! k = Some x →
         (<["lion" := VBoolean true]> ∅ : Assignment) !! k = Some x ∨
         ∃ d, domains LionUnicorn !! k = Some d ∧ x ∈ d) ∧
      ((<["lion" := VBoolean true]> ∅ : Assignment) !! "undefined" = None →
       <["lion" := VBoolean true]> ∅ ⊆ A)
  | _ => False
  end.
Proof.
  assert (match recursiveBacktracking 20 0 (<["lion" := VBoolean true]> ∅)
                  withBoth (initial LionUnicorn) with
          | Ok (Some _, _) => true
          | _ => false
          end = true) as Hok by (vm_compute; reflexivity).
  destruct (recursiveBacktracking 20 0 (<["lion" := VBoolean true]> ∅)
              withBoth (initial LionUnicorn))
    as [[[A|] σ']| |] eqn:Hrun; try discriminate Hok.
  exact (recursiveBacktracking_result_entries 20 0 LionUnicorn _ A withBoth
           (initial LionUnicorn) σ' eq_refl Hrun).
Defined.

(** X19.  Arc consistency without arcs.  Called with the [arcConsistency]
    option on a CSP that has no arc list and with an assignment that does
    not yet have as many entries as there are variables,
    [recursiveBacktracking] throws ("Must provide arcs for AC-3!"): it
    neither returns a result nor reports absence. *)
Theorem recursiveBacktracking_needs_arcs (fuel : nat) (csp : nat) (c : CSP)
    (assignment : Assignment) (options : SolverOptions) (σ : state) :
  heap σ !! csp = Some c →
  arcs c = None →
  optArcConsistency options = true →
  size assignment ≠ length (variables c) →
  recursiveBacktracking (S fuel) csp assignment options σ = Throw.
Proof.
  intros Hc Harcs Hopt Hsize%Nat.eqb_neq. cbn [recursiveBacktracking].
  unfold recursiveBacktracking_body. rewrite Hc, Hsize, Hopt.
  unfold cloneDeep. rewrite Hc. unfold onObject. simpl.
  rewrite lookup_app_r, Nat.sub_diag by done. simpl.
  unfold arcConsistency. by rewrite Harcs.
Qed.

Lemma recursiveBacktracking_needs_arcs_witness :
  recursiveBacktracking 1 0 ∅ withArcConsistency
    (initial (pairCSP oneTwo oneTwo)) = Throw.
Proof.
  apply (recursiveBacktracking_needs_arcs 0 0 (pairCSP oneTwo oneTwo));
    try reflexivity.
  by vm_compute.
Defined.

(** ** The full solver terminates *)

(** Whatever holds once [variable]'s domain is collapsed and survives the
    removal of [value] from a domain holds for the CSP a returning call of
    [forwardChecking] leaves behind. *)
Lemma forwardChecking_invariant (Q : CSP → Prop) fuel c variable value r c' :
  (∀ c1 other d, Q c1 → domains c1 !! other = Some d →
     Q (setDomain c1 other (filter (λ x, x ≠ value) d))) →
  Q (setDomain c variable [value]) →
  forwardChecking fuel c variable value = Ok (r, c') → Q c'.
Proof.
  intros Hprune Hfirst Hrun.
  destruct fuel as [|fuel]; [done|]. cbn [forwardChecking] in Hrun.
  pose proof (for_of_inv (λ s : CSP * list (string * jsval), Q s.1)
    (λ r, ∀ res c', r = Ok (res, c') → Q c')
    (forwardBody variable value)
    (constraints (setDomain c variable [value]))
    (setDomain c variable [value], []) Hfirst) as Hloop.
  assert (match
      for_of (forwardBody variable value)
        (constraints (setDomain c variable [value]))
        (setDomain c variable [value], [])
    with
    | Next s' => Q s'.1
    | Return r => ∀ res c', r = Ok (res, c') → Q c'
    end) as Hinv.
  { apply Hloop. intros k t _ Ht. destruct k as [target|vars]; simpl; [done|].
    case_bool_decide; [|done].
    apply (for_of_inv (λ s : CSP * list (string * jsval), Q s.1)
      (λ r, ∀ res c', r = Ok (res, c') → Q c')); [done|].
    intros other [c2 atp2] _ Hc2. simpl in Hc2. unfold pruneOther.
    destruct (domains c2 !! other) as [domain|] eqn:Hd; [|done].
    case_bool_decide; [|done].
    destruct (Nat.eqb _ _); [by intros res c0 [= _ <-]|].
    pose proof (Hprune c2 other domain Hc2 Hd) as Hnew.
    by destruct (filter _ domain) as [|? [|??]]. }
  clear Hloop. destruct (for_of _ _ _) as [[c1 atp]|r0].
  - simpl in Hinv. assert (c' = c1) as ->; [|done].
    destruct atp as [|vx atp]; [by injection Hrun|].
    destruct (findE _ _); try done. by injection Hrun.
  - subst r0. eauto.
Qed.

Lemma arcFuel_mono c c' :
  arcs c' = arcs c →
  (∀ arcs', arcs c = Some arcs' →
     default (neighboursOf arcs') (neighbours c') =
     default (neighboursOf arcs') (neighbours c)) →
  domainSize c' ≤ domainSize c →
  arcFuel c' ≤ arcFuel c.
Proof.
  intros Harcs Hnb Hle. unfold arcFuel. rewrite Harcs.
  destruct (arcs c) as [arcs'|]; [|done].
  rewrite (Hnb arcs' eq_refl). nia.
Qed.

Lemma forwardChecking_no_larger fuel c variable value d r c' :
  domains c !! variable = Some d → value ∈ d →
  forwardChecking fuel c variable value = Ok (r, c') →
  no_larger c c'.
Proof.
  intros Hd Hin Hrun.
  assert (variables c' = variables c ∧ arcs c' = arcs c ∧
          neighbours c' = neighbours c ∧ domainSize c' ≤ domainSize c)
    as (Hv & Ha & Hn & Hle).
  { apply (forwardChecking_invariant
      (λ c1, variables c1 = variables c ∧ arcs c1 = arcs c ∧
             neighbours c1 = neighbours c ∧ domainSize c1 ≤ domainSize c)
      fuel c variable value r c'); [| |done].
    - intros c1 other d1 (? & ? & ? & Hle) Hd1. split_and!; try done.
      unfold domainSize in *. simpl.
      pose proof (sum_lengths_insert (domains c1) other d1
        (filter (λ x, x ≠ value) d1) Hd1).
      pose proof (length_filter (λ x, x ≠ value) d1). lia.
    - split_and!; try done. unfold domainSize. simpl.
      pose proof (sum_lengths_insert (domains c) variable d [value] Hd).
      destruct d; [by apply elem_of_nil in Hin|]. simpl in *. lia. }
  split; [done|]. split; [|done].
  apply arcFuel_mono; [done| |done]. intros arcs' _. by rewrite Hn.
Qed.

Lemma arcLoop_domainSize fuel queue c wipeout c' :
  arcLoop fuel queue c = Ok (wipeout, c') → domainSize c' ≤ domainSize c.
Proof.
  revert queue c. induction fuel as [|fuel IH]; intros [|[x y] queue] c; simpl;
    try done; try by intros [= _ <-].
  destruct (removeInconsistentValues c x y) as [[[] c1]| |] eqn:Hrev; try done.
  - pose proof (removeInconsistentValues_domainSize _ _ _ _ Hrev) as Hlt.
    destruct (domains c1 !! x) as [[|v dx]|]; try done.
    + intros [= _ <-]. lia.
    + destruct (neighbours c1 ≫= _); [|done].
      intros Hle%IH. lia.
  - apply removeInconsistentValues_false in Hrev as ->. apply IH.
Qed.

Lemma arcConsistency_no_larger fuel c wipeout c' :
  arcConsistency fuel c = Ok (wipeout, c') → no_larger c c'.
Proof.
  intros Hrun.
  destruct (arcConsistency_pruned _ _ _ _ Hrun)
    as [(Hv & _ & Ha & _) (arcs' & Harcs & Hn)].
  assert (domainSize c' ≤ domainSize c) as Hle.
  { revert Hrun. unfold arcConsistency. rewrite Harcs.
    intros Hle%arcLoop_domainSize.
    assert (domainSize (computeNeighbours c) = domainSize c) as <-; [|done].
    unfold computeNeighbours. rewrite Harcs. by destruct (neighbours c). }
  split; [done|]. split; [|done].
  apply arcFuel_mono; [done| |done].
  intros arcs0. rewrite Harcs, Hn. by intros [= <-].
Qed.

Lemma onObject_OutOfFuel {A : Type} (f : CSP → outcome (A * CSP)) l σ :
  onObject f l σ = OutOfFuel →
  ∃ c, heap σ !! l = Some c ∧ f c = OutOfFuel.
Proof.
  unfold onObject. destruct (heap σ !! l) as [c|]; [|done].
  destruct (f c) as [[a0 c']| |] eqn:Hf; try done. by exists c.
Qed.

Lemma solveFuel_no_larger c c' a :
  no_larger c c' → solveFuel c' a ≤ solveFuel c a.
Proof. intros (Hv & ? & ?). unfold solveFuel. rewrite Hv. lia. Qed.

Section termination.
Context (rec : nat → Assignment → state → outcome (option Assignment * state)).
Context (fuel : nat) (options : SolverOptions).
Hypothesis rec_frame :
  ∀ l a σ r σ', rec l a σ = Ok (r, σ') → heap_extends σ σ'.
Hypothesis rec_terminates :
  ∀ l a σ c,
    heap σ !! l = Some c → NoDup (variables c) →
    (∀ k, is_Some (a !! k) → k ∈ variables c) →
    solveFuel c a ≤ fuel →
    rec l a σ ≠ OutOfFuel.

Lemma tryValues_terminates assignment csp c u du values σ :
  heap σ !! csp = Some c →
  NoDup (variables c) →
  (∀ k, is_Some (assignment !! k) → k ∈ variables c) →
  u ∈ variables c → assignment !! u = None →
  domains c !! u = Some du → values ⊆ du →
  solveFuel c assignment ≤ S fuel →
  tryValues rec fuel options assignment csp c u values σ ≠ OutOfFuel.
Proof using rec_frame rec_terminates.
  intros Hc Hnd Hkeys Hu Hnone Hdu Hsub Hfuel. revert σ Hc Hsub.
  induction values as [|value values IH]; intros σ Hc Hsub; simpl; [done|].
  assert (heap (countValidation σ) !! csp = Some c) as Hc0 by done.
  revert Hc0. generalize (countValidation σ). clear σ Hc. intros σ Hc.
  assert (values ⊆ du) as Hrest by (intros v Hv; apply Hsub; by right).
  assert (value ∈ du) as Hvalue by (apply Hsub; by left).
  destruct (validateConstraints _ _ _); [|by apply IH].
  destruct (cloneDeep csp σ) as [[newCsp σ1]| |] eqn:Hclone; try done;
    [|by unfold cloneDeep in Hclone; rewrite Hc in Hclone].
  pose proof (keys_insert _ assignment u value Hu Hkeys) as Hkeys'.
  pose proof (size_le_variables _ _ Hkeys') as Hsize.
  rewrite map_size_insert_None in Hsize by done.
  assert (∀ σ2 c2, heap_extends σ σ2 → heap σ2 !! newCsp = Some c2 →
    no_larger c c2 →
    match rec newCsp (<[u:=value]> assignment) σ2 with
    | Ok (Some result, σ3) => Ok (Some result, σ3)
    | Ok (None, σ3) => tryValues rec fuel options assignment csp c u values σ3
    | Throw => Throw
    | OutOfFuel => OutOfFuel
    end ≠ OutOfFuel) as Hdescend.
  { intros σ2 c2 Hext Hc2 Hsmall.
    pose proof (rec_terminates newCsp (<[u:=value]> assignment) σ2 c2 Hc2)
      as Hrec.
    destruct (rec _ _ σ2) as [[[result|] σ3]| |] eqn:Hrun; try done.
    - apply IH; [|done]. by eapply rec_frame, Hext.
    - intros _. destruct Hsmall as (Hv & Haf & Hds). apply Hrec; try done.
      + by rewrite Hv.
      + by rewrite Hv.
      + unfold solveFuel in *. rewrite Hv.
        rewrite map_size_insert_None by done. lia. }
  destruct (optForwardChecking options).
  - destruct (onObject _ newCsp σ1) as [[r1 σ2]| |] eqn:Hfc; try done.
    + destruct (clone_then_write _ _ _ _ _ _ _ Hclone Hfc)
        as (Hext & c1 & c2 & Hc1 & Hrun & Hc2).
      destruct (truthy r1); [done|].
      apply (Hdescend σ2 c2); [done..|].
      assert (c1 = c) as -> by congruence.
      by eapply forwardChecking_no_larger.
    + apply onObject_OutOfFuel in Hfc as (c1 & Hc1 & Hrun).
      rewrite (cloneDeep_lookup _ _ _ _ Hclone), Hc in Hc1.
      injection Hc1 as <-. intros _.
      apply (forwardChecking_enough_fuel fuel c u value); [|done].
      assert (domainSize (setDomain c u [value]) ≤ domainSize c) as Hle.
      { unfold domainSize. simpl.
        pose proof (sum_lengths_insert (domains c) u du [value] Hdu).
        destruct du; [by apply elem_of_nil in Hvalue|]. simpl in *. lia. }
      unfold solveFuel in Hfuel. lia.
  - apply (Hdescend σ1 c); [by eapply cloneDeep_extends| |].
    + by rewrite (cloneDeep_lookup _ _ _ _ Hclone).
    + by split_and!.
Qed.

Lemma recursiveBacktracking_body_terminates assignment csp c σ :
  heap σ !! csp = Some c →
  NoDup (variables c) →
  (∀ k, is_Some (assignment !! k) → k ∈ variables c) →
  solveFuel c assignment ≤ S fuel →
  recursiveBacktracking_body rec fuel options assignment csp σ ≠ OutOfFuel.
Proof using rec_frame rec_terminates.
  intros Hc Hnd Hkeys Hfuel. unfold recursiveBacktracking_body. rewrite Hc.
  destruct (Nat.eqb _ _) eqn:Hsize; [done|]. apply Nat.eqb_neq in Hsize.
  destruct (pickUnassigned_found _ assignment Hnd Hkeys Hsize) as [Hu Hnone].
  assert (∀ l σ0 c0, heap σ0 !! l = Some c0 → no_larger c c0 →
    search rec fuel options assignment l σ0 ≠ OutOfFuel) as Hsearch.
  { intros l σ0 c0 Hc0 Hsmall. unfold search. rewrite Hc0.
    pose proof (solveFuel_no_larger _ _ assignment Hsmall) as Hle.
    destruct Hsmall as (Hv & _). rewrite Hv.
    destruct (domains c0 !! _) as [values|] eqn:Hdom; [|done].
    eapply tryValues_terminates; try done; rewrite ?Hv; try done. lia. }
  destruct (optArcConsistency options);
    [|by apply (Hsearch csp σ c); [|split_and!]].
  destruct (cloneDeep csp σ) as [[csp' σ1]| |] eqn:Hclone; try done;
    [|by unfold cloneDeep in Hclone; rewrite Hc in Hclone].
  destruct (onObject _ csp' σ1) as [[wipeout σ2]| |] eqn:Hac; try done.
  - destruct (clone_then_write _ _ _ _ _ _ _ Hclone Hac)
      as (Hext & c1 & c2 & Hc1 & Hrun & Hc2).
    destruct wipeout; [done|].
    assert (c1 = c) as -> by congruence.
    apply (Hsearch csp' σ2 c2 Hc2). by eapply arcConsistency_no_larger.
  - apply onObject_OutOfFuel in Hac as (c1 & Hc1 & Hrun).
    rewrite (cloneDeep_lookup _ _ _ _ Hclone), Hc in Hc1.
    injection Hc1 as <-. intros _.
    apply (arcConsistency_enough_fuel fuel c); [|done].
    unfold solveFuel in Hfuel. lia.
Qed.
End termination.

Lemma recursiveBacktracking_terminates fuel csp c assignment options σ :
  heap σ !! csp = Some c →
  NoDup (variables c) →
  (∀ k, is_Some (assignment !! k) → k ∈ variables c) →
  solveFuel c assignment ≤ fuel →
  recursiveBacktracking fuel csp assignment options σ ≠ OutOfFuel.
Proof.
  revert csp c assignment σ.
  induction fuel as [|fuel IH]; intros csp c assignment σ Hc Hnd Hkeys Hfuel.
  { unfold solveFuel in Hfuel. lia. }
  cbn [recursiveBacktracking].
  apply recursiveBacktracking_body_terminates with (c := c); try done.
  - intros l a σ1 r σ1'. apply recursiveBacktracking_extends.
  - intros l a σ1 c1. apply IH.
Qed.



(** ** Forward checking does not change the answer *)

Lemma pruned_refl B d : pruned B d d.
Proof. induction d; by constructor. Qed.

Lemma pruned_trans B d1 d2 d3 :
  pruned B d1 d2 → pruned B d2 d3 → pruned B d1 d3.
Proof.
  intros H12. revert d3.
  induction H12 as [|x d d' H12 IH|x d d' Hx H12 IH]; intros d3 H23.
  - done.
  - inversion H23; subst.
    + constructor. by apply IH.
    + constructor; [done|]. by apply IH.
  - constructor; [done|]. by apply IH.
Qed.

Lemma pruned_mono (B B' : jsval → Prop) d d' :
  (∀ x, B x → B' x) → pruned B d d' → pruned B' d d'.
Proof. intros HB. induction 1; constructor; auto. Qed.

Lemma pruned_filter (B : jsval → Prop) value d :
  B value → pruned B d (filter (λ x, x ≠ value) d).
Proof.
  intros HB. induction d as [|x d IH]; [constructor|].
  rewrite filter_cons. case_decide as Hx.
  - by constructor.
  - subst x. by constructor.
Qed.

Lemma domain_pruned_refl B d : domain_pruned B d d.
Proof. destruct d; [apply pruned_refl|done]. Qed.

Lemma domain_pruned_trans B d1 d2 d3 :
  domain_pruned B d1 d2 → domain_pruned B d2 d3 → domain_pruned B d1 d3.
Proof.
  destruct d1, d2, d3; simpl; try done. apply pruned_trans.
Qed.

Lemma domain_pruned_mono (B B' : jsval → Prop) d d' :
  (∀ x, B x → B' x) → domain_pruned B d d' → domain_pruned B' d d'.
Proof. intros HB. destruct d, d'; simpl; try done. by apply pruned_mono. Qed.

(** What a call of [forwardChecking] removes from the domain of another
    variable: occurrences of [value], and only where the variable shares
    a [MUST_BE_DISTINCT] constraint with [variable]. *)
Lemma pruneOther_removes K u value c0 other s :
  other ≠ u → shares K u other →
  (∀ z, z ≠ u →
     domain_pruned (λ x, x = value ∧ shares K u z)
       (domains c0 !! z) (domains s.1 !! z)) →
  match pruneOther value other s with
  | Next s' =>
      ∀ z, z ≠ u →
        domain_pruned (λ x, x = value ∧ shares K u z)
          (domains c0 !! z) (domains s'.1 !! z)
  | Return r =>
      ∀ res c', r = Ok (res, c') →
      ∀ z, z ≠ u →
        domain_pruned (λ x, x = value ∧ shares K u z)
          (domains c0 !! z) (domains c' !! z)
  end.
Proof.
  destruct s as [c atp]. simpl. intros Hother Hshares Hinv.
  unfold pruneOther.
  destruct (domains c !! other) as [domain|] eqn:Hd; [|done].
  case_bool_decide; [|done].
  destruct (Nat.eqb _ _); [by intros res c' [= _ <-]|].
  assert (∀ z, z ≠ u →
    domain_pruned (λ x, x = value ∧ shares K u z) (domains c0 !! z)
      (domains (setDomain c other (filter (λ x, x ≠ value) domain)) !! z))
    as Hnew.
  { intros z Hz. simpl. destruct (decide (z = other)) as [->|Hne].
    - rewrite lookup_insert_eq.
      eapply domain_pruned_trans; [by apply Hinv|]. rewrite Hd. simpl.
      by apply pruned_filter.
    - rewrite lookup_insert_ne by done. by apply Hinv. }
  by destruct (filter _ domain) as [|? [|??]].
Qed.

Lemma forwardChecking_removes fuel c u value r c' :
  forwardChecking fuel c u value = Ok (r, c') →
  ∀ z, z ≠ u →
    domain_pruned (λ x, x = value ∧ shares (constraints c) u z)
      (domains c !! z) (domains c' !! z).
Proof.
  intros Hrun.
  destruct fuel as [|fuel]; [done|]. cbn [forwardChecking] in Hrun.
  set (I := λ c1 : CSP, ∀ z, z ≠ u →
    domain_pruned (λ x, x = value ∧ shares (constraints c) u z)
      (domains c !! z) (domains c1 !! z)).
  assert (match
      for_of (forwardBody u value) (constraints (setDomain c u [value]))
        (setDomain c u [value], [])
    with
    | Next s' => I s'.1
    | Return r => ∀ res c', r = Ok (res, c') → I c'
    end) as Hinv.
  { apply (for_of_inv (λ s : CSP * list (string * jsval), I s.1)
      (λ r, ∀ res c', r = Ok (res, c') → I c')).
    { intros z Hz. simpl. rewrite lookup_insert_ne by done.
      apply domain_pruned_refl. }
    intros k t Hk Ht. destruct k as [target|vars]; simpl; [done|].
    case_bool_decide as Hu; [|done].
    apply (for_of_inv (λ s : CSP * list (string * jsval), I s.1)
      (λ r, ∀ res c', r = Ok (res, c') → I c')); [done|].
    intros other t2 [Hne Hin]%list_elem_of_filter Ht2.
    apply (pruneOther_removes (constraints c) u value c other t2); try done.
    by exists vars. }
  destruct (for_of _ _ _) as [[c1 atp]|r0].
  - simpl in Hinv. assert (c' = c1) as ->; [|done].
    destruct atp as [|vx atp]; [by injection Hrun|].
    destruct (findE _ _); try done. by injection Hrun.
  - subst r0. exact (Hinv r c' eq_refl).
Qed.

(** A blocked value makes the validator reject the assignment. *)
Lemma blocked_rejected (a : Assignment) K z x :
  blocked a K z x → validateConstraints (<[z := x]> a) K false = false.
Proof.
  intros (v & Hv & Hne & vars & HK & Hvin & Hzin).
  rewrite validateConstraints_violated. apply negb_false_iff, existsb_exists.
  exists (MUST_BE_DISTINCT vars). split; [by apply list_elem_of_In|].
  apply violated_MUST_BE_DISTINCT.
  apply list_elem_of_lookup in Hvin as [p Hp].
  apply list_elem_of_lookup in Hzin as [q Hq].
  pose proof (lookup_lt_Some _ _ _ Hp). pose proof (lookup_lt_Some _ _ _ Hq).
  assert (p ≠ q) by (intros ->; congruence).
  assert (<[z := x]> a !! v = Some x) by by rewrite lookup_insert_ne.
  assert (<[z := x]> a !! z = Some x) by by rewrite lookup_insert_eq.
  destruct (decide (p < q)).
  - exists p, q, v, z, x. split_and!; try done; lia.
  - exists q, p, z, v, x. split_and!; try done; lia.
Qed.

Lemma forward_checked_refl a c : forward_checked a c c.
Proof. split_and!; try done. intros z _. apply domain_pruned_refl. Qed.

Lemma forward_checked_insert (a : Assignment) c c' u x :
  a !! u = None →
  forward_checked a c c' → forward_checked (<[u := x]> a) c c'.
Proof.
  intros Hu (Hv & HK & Hd). split_and!; try done.
  intros z [Hz Hne]%lookup_insert_None.
  eapply domain_pruned_mono; [|by apply Hd].
  intros y (v & Hvy & ? & ?). exists v. split_and!; try done.
  rewrite lookup_insert_ne; [done|]. intros <-. congruence.
Qed.

Lemma forward_checked_step (a : Assignment) c c1 c2 fuel u x r :
  a !! u = None →
  forward_checked a c c1 →
  forwardChecking fuel c1 u x = Ok (r, c2) →
  forward_checked (<[u := x]> a) c c2.
Proof.
  intros Hu Hrel Hrun.
  pose proof (forward_checked_insert a c c1 u x Hu Hrel) as (Hv & HK & Hd).
  destruct (forwardChecking_same_problem _ _ _ _ _ _ Hrun) as [Hv2 HK2].
  split_and!; [congruence..|].
  intros z Hz. pose proof Hz as [_ Hne]%lookup_insert_None.
  eapply domain_pruned_trans; [by apply Hd|].
  eapply domain_pruned_mono;
    [|by apply (forwardChecking_removes _ _ _ _ _ _ Hrun)].
  intros y [-> Hshare]. exists u. rewrite lookup_insert_eq.
  split_and!; try done. by rewrite <-HK.
Qed.

Section forward.
Context (c : CSP).
Context (rec : nat → Assignment → state → outcome (option Assignment * state)).
Context (brec : Assignment → outcome (option Assignment)).
Context (fuel : nat) (options : SolverOptions).
Hypothesis rec_frame :
  ∀ l a σ r σ', rec l a σ = Ok (r, σ') → heap_extends σ σ'.
Hypothesis rec_forward :
  ∀ l a σ c' r σ',
    heap σ !! l = Some c' → forward_checked a c c' →
    (∀ k, is_Some (a !! k) → k ∈ variables c) →
    rec l a σ = Ok (r, σ') → brec a = Ok r.

Lemma tryValues_forward assignment l c' u d d' σ r σ' :
  heap σ !! l = Some c' → forward_checked assignment c c' →
  (∀ k, is_Some (assignment !! k) → k ∈ variables c) →
  u ∈ variables c → assignment !! u = None →
  pruned (blocked assignment (constraints c) u) d d' →
  tryValues rec fuel options assignment l c' u d' σ = Ok (r, σ') →
  Basic.tryValues brec (toBasic c) assignment u d = Ok r.
Proof using rec_frame rec_forward.
  intros Hc' Hrel Hkeys Hu Hnone Hpr. revert σ Hc'.
  induction Hpr as [|x d d' Hpr IH|x d d' Hx Hpr IH]; intros σ Hc'.
  - simpl. by intros [= <- _].
  - simpl. destruct Hrel as (Hv & HK & Hd). rewrite HK.
    assert (heap (countValidation σ) !! l = Some c') as Hc0 by done.
    revert Hc0. generalize (countValidation σ). clear σ Hc'. intros σ Hc'.
    destruct (validateConstraints _ _ _); [|by apply IH].
    destruct (cloneDeep l σ) as [[newCsp σ1]| |] eqn:Hclone; try done.
    pose proof (keys_insert _ assignment u x Hu Hkeys) as Hkeys'.
    assert (∀ σ2 c2, heap_extends σ σ2 → heap σ2 !! newCsp = Some c2 →
      forward_checked (<[u:=x]> assignment) c c2 →
      match rec newCsp (<[u:=x]> assignment) σ2 with
      | Ok (Some result, σ3) => Ok (Some result, σ3)
      | Ok (None, σ3) => tryValues rec fuel options assignment l c' u d' σ3
      | Throw => Throw
      | OutOfFuel => OutOfFuel
      end = Ok (r, σ') →
      match brec (<[u:=x]> assignment) with
      | Ok (Some result) => Ok (Some result)
      | Ok None => Basic.tryValues brec (toBasic c) assignment u d
      | Throw => Throw
      | OutOfFuel => OutOfFuel
      end = Ok r) as Hdescend.
    { intros σ2 c2 Hext Hc2 Hrel2.
      destruct (rec _ _ σ2) as [[[result|] σ3]| |] eqn:Hrec; try done.
      - intros [= <- <-].
        by rewrite (rec_forward _ _ _ _ _ _ Hc2 Hrel2 Hkeys' Hrec).
      - rewrite (rec_forward _ _ _ _ _ _ Hc2 Hrel2 Hkeys' Hrec).
        apply IH. by eapply rec_frame, Hext. }
    destruct (optForwardChecking options).
    + destruct (onObject _ newCsp σ1) as [[r1 σ2]| |] eqn:Hfc; try done.
      destruct (clone_then_write _ _ _ _ _ _ _ Hclone Hfc)
        as (Hext & c1 & c2 & Hc1 & Hrun & Hc2).
      rewrite (forwardChecking_never_true _ _ _ _ _ _ Hrun).
      apply (Hdescend σ2 c2); [done..|].
      assert (c1 = c') as -> by congruence.
      by eapply forward_checked_step.
    + apply (Hdescend σ1 c'); [by eapply cloneDeep_extends| |].
      * by rewrite (cloneDeep_lookup _ _ _ _ Hclone).
      * by apply forward_checked_insert.
  - intros Hrun. simpl. rewrite (blocked_rejected _ _ _ _ Hx). by eapply IH.
Qed.
End forward.

Lemma recursiveBacktracking_forward fuel c l c' a options σ r σ' :
  NoDup (variables c) →
  optArcConsistency options = false →
  heap σ !! l = Some c' → forward_checked a c c' →
  (∀ k, is_Some (a !! k) → k ∈ variables c) →
  recursiveBacktracking fuel l a options σ = Ok (r, σ') →
  Basic.recursiveBacktracking fuel (toBasic c) a = Ok r.
Proof.
  intros Hnd Hopt. revert l c' a σ r σ'.
  induction fuel as [|fuel IH]; intros l c' a σ r σ' Hc' Hrel Hkeys; [done|].
  cbn [recursiveBacktracking Basic.recursiveBacktracking].
  unfold recursiveBacktracking_body. rewrite Hc', Hopt.
  pose proof Hrel as (Hv & HK & Hd). rewrite Hv. simpl.
  destruct (Nat.eqb _ _) eqn:Hsize; [by intros [= <- _]|].
  apply Nat.eqb_neq in Hsize.
  destruct (pickUnassigned_found _ a Hnd Hkeys Hsize) as [Hu Hnone].
  unfold search. rewrite Hc', Hv.
  specialize (Hd _ Hnone).
  destruct (domains c !! _) as [d|], (domains c' !! _) as [d'|]; try done.
  apply tryValues_forward; try done.
  - intros l0 a0 σ0 r0 σ0'. apply recursiveBacktracking_extends.
  - intros l0 a0 σ0 c0 r0 σ0'. apply IH.
Qed.

(** X21.  Forward checking does not change the answer.  For a CSP with
    distinct variables and an initial assignment of variables only: when
    [solve] without the [arcConsistency] option returns, with an
    assignment or with the absent result, [solve] without any option
    returns the same on the same fuel.  (The values forward checking
    removes from a domain are values the validator would reject, and a
    wipeout is never signalled.) *)
Theorem forwardChecking_same_answer (fuel : nat) (c : CSP)
    (a : Assignment) (options : SolverOptions) (r : option Assignment) :
  NoDup (variables c) →
  (∀ k, is_Some (a !! k) → k ∈ variables c) →
  optArcConsistency options = false →
  solve fuel c a options = Ok r →
  solve fuel c a plain = Ok r.
Proof.
  intros Hnd Hkeys Hopt Hrun.
  change (resultOf (recursiveBacktracking fuel 0 a plain (initial c)) = Ok r).
  rewrite (recursiveBacktracking_plain_basic fuel c 0 a (initial c) eq_refl).
  unfold solve in Hrun.
  destruct (recursiveBacktracking fuel 0 a options (initial c))
    as [[r0 σ']| |] eqn:Hrec; try done.
  injection Hrun as ->.
  apply (recursiveBacktracking_forward fuel c 0 c a options (initial c) r σ');
    try done.
  apply forward_checked_refl.
Qed.

Lemma forwardChecking_same_answer_witness :
  solve 20 LionUnicorn ∅ withForwardChecking = solve 20 LionUnicorn ∅ plain.
Proof.
  assert (returned (solve 20 LionUnicorn ∅ withForwardChecking) = true)
    as Hok by (vm_compute; reflexivity).
  destruct (solve 20 LionUnicorn ∅ withForwardChecking) as [r| |] eqn:Hrun;
    try discriminate Hok.
  symmetry.
  apply (forwardChecking_same_answer 20 LionUnicorn ∅ withForwardChecking r).
  - simpl. apply (bool_decide_unpack _). by vm_compute.
  - intros k [x Hk]. by rewrite lookup_empty in Hk.
  - reflexivity.
  - exact Hrun.
Defined.

(** ** Pruning does not change the answer *)

Lemma pruned_kept B d d' v : pruned B d d' → v ∈ d → v ∈ d' ∨ B v.
Proof.
  induction 1 as [|x d d' Hpr IH|x d d' Hx Hpr IH].
  - by intros ?%elem_of_nil.
  - intros [->|Hv]%elem_of_cons; [left; by left|].
    destruct (IH Hv); [left; by right|by right].
  - intros [->|Hv]%elem_of_cons; [by right|by apply IH].
Qed.

Lemma domain_pruned_kept B d d' : domain_pruned B d d' → domain_kept B d d'.
Proof.
  destruct d, d'; simpl; try done. intros Hpr v. by apply pruned_kept.
Qed.

Lemma domain_kept_refl B d : domain_kept B d d.
Proof. destruct d; simpl; [|done]. by left. Qed.

Lemma domain_kept_trans B d1 d2 d3 :
  domain_kept B d1 d2 → domain_kept B d2 d3 → domain_kept B d1 d3.
Proof.
  destruct d1, d2, d3; simpl; try done.
  intros H12 H23 v Hv. destruct (H12 v Hv) as [Hv'|?]; [|by right].
  by apply H23.
Qed.

Lemma domain_kept_mono (B B' : jsval → Prop) d d' :
  (∀ x, B x → B' x) → domain_kept B d d' → domain_kept B' d d'.
Proof.
  intros HB. destruct d, d'; simpl; try done.
  intros Hk v Hv. destruct (Hk v Hv); [by left|right; by apply HB].
Qed.

Lemma hopeless_mono (a a' : Assignment) c z x :
  a ⊆ a' → hopeless a c z x → hopeless a' c z x.
Proof.
  intros Hsub Hx S HS. apply Hx. by transitivity a'.
Qed.

(** Two variables of a [MUST_BE_DISTINCT] constraint with one value. *)
Lemma same_value_rejected (S : Assignment) K v z x :
  S !! v = Some x → S !! z = Some x → v ≠ z → shares K v z →
  validateConstraints S K false = false.
Proof.
  intros Hv Hz Hne (vars & HK & Hvin & Hzin).
  rewrite validateConstraints_violated. apply negb_false_iff, existsb_exists.
  exists (MUST_BE_DISTINCT vars). split; [by apply list_elem_of_In|].
  apply violated_MUST_BE_DISTINCT.
  apply list_elem_of_lookup in Hvin as [p Hp].
  apply list_elem_of_lookup in Hzin as [q Hq].
  pose proof (lookup_lt_Some _ _ _ Hp). pose proof (lookup_lt_Some _ _ _ Hq).
  assert (p ≠ q) by (intros ->; congruence).
  destruct (decide (p < q)).
  - exists p, q, v, z, x. split_and!; try done; lia.
  - exists q, p, z, v, x. split_and!; try done; lia.
Qed.

Lemma shares_hopeless (a : Assignment) c u z x :
  a !! u = Some x → u ≠ z → shares (constraints c) u z → hopeless a c z x.
Proof.
  intros Hu Hne Hshares S Hsub _ Hz.
  apply (same_value_rejected S _ u z x); try done.
  by eapply lookup_weaken.
Qed.

Lemma other_value_hopeless (a : Assignment) c u x v :
  a !! u = Some x → v ≠ x → hopeless a c u v.
Proof.
  intros Hu Hne S Hsub _ Hv.
  rewrite (lookup_weaken _ _ _ _ Hu Hsub) in Hv. congruence.
Qed.

(** A value without support is hopeless, when the arc is between
    variables that a constraint relates. *)
Lemma unsupported_hopeless (a : Assignment) c x y valueX dy :
  y ∈ variables c → related (constraints c) x y →
  domain_kept (hopeless a c y) (domains c !! y) (Some dy) →
  supported (constraints c) x y valueX dy = false →
  hopeless a c x valueX.
Proof.
  intros Hy (k & Hk & Hev) Hkept Hnone S Hsub Htotal Hx.
  destruct (Htotal y Hy) as (vy & d & HSy & Hd & Hvy).
  rewrite Hd in Hkept. simpl in Hkept.
  destruct (Hkept vy Hvy) as [Hin|Hhopeless]; [|by apply Hhopeless].
  apply (validateConstraints_extends (<[y := vy]> (<[x := valueX]> ∅))).
  { apply insert_subseteq_l; [done|].
    apply insert_subseteq_l; [done|]. apply map_empty_subseteq. }
  destruct (validateConstraints (<[y := vy]> (<[x := valueX]> ∅))
              (constraints c) false) eqn:Hpair; [|done].
  assert (validateConstraints (<[y := vy]> (<[x := valueX]> ∅))
            (constraints c) true = true) as Hstrict.
  { apply validateConstraints_strict. split; [done|]. exists k.
    split; [done|]. apply Hev.
    - destruct (decide (x = y)) as [->|Hne].
      + rewrite lookup_insert_eq. by eexists.
      + rewrite lookup_insert_ne, lookup_insert_eq by done. by eexists.
    - rewrite lookup_insert_eq. by eexists. }
  unfold supported in Hnone.
  assert (existsb (λ valueY,
            validateConstraints (<[y := valueY]> (<[x := valueX]> ∅))
              (constraints c) true) dy = true) as Hex; [|congruence].
  apply existsb_exists. exists vy. split; [|done].
  by apply list_elem_of_In.
Qed.

Lemma related_sym K x y : related K x y → related K y x.
Proof. intros (k & Hk & Hev). exists k. split; [done|]. auto. Qed.

Lemma arc_ok_sym c x y : arc_ok c (x, y) → arc_ok c (y, x).
Proof. intros (? & ? & ?%related_sym). by split_and!. Qed.

Lemma reviseBody_sound a c x y valueX s :
  arc_ok c (x, y) →
  constraints s.1 = constraints c → domains_sound a c s.1 →
  match reviseBody x y valueX s with
  | Next s' => constraints s'.1 = constraints c ∧ domains_sound a c s'.1
  | Return r => r = Throw
  end.
Proof.
  destruct s as [c1 removed]. simpl. intros (Hx & Hy & Hrel) HK Hd.
  unfold reviseBody. destruct (domains c1 !! y) as [dy|] eqn:Hdy; [|done].
  destruct (supported _ _ _ _ _) eqn:Hsup; [done|].
  destruct (domains c1 !! x) as [dx|] eqn:Hdx; [|done].
  simpl. split; [done|].
  assert (hopeless a c x valueX) as Hhop.
  { apply (unsupported_hopeless a c x y valueX dy); try done.
    - rewrite <-Hdy. apply Hd.
    - by rewrite <-HK. }
  intros z. simpl. destruct (decide (z = x)) as [->|Hne].
  - rewrite lookup_insert_eq. destruct (Hd x) as [Hk Hp].
    rewrite Hdx in Hk, Hp. split.
    + eapply domain_kept_trans; [exact Hk|]. apply domain_pruned_kept.
      simpl. by apply pruned_filter.
    + intros Hnone. eapply domain_pruned_trans; [by apply Hp|].
      simpl. by apply pruned_filter.
  - rewrite lookup_insert_ne by done. apply Hd.
Qed.

Lemma removeInconsistentValues_sound a c c1 x y removed c2 :
  arc_ok c (x, y) →
  constraints c1 = constraints c → domains_sound a c c1 →
  removeInconsistentValues c1 x y = Ok (removed, c2) →
  domains_sound a c c2.
Proof.
  intros Harc HK Hd. unfold removeInconsistentValues.
  destruct (domains c1 !! x) as [dx|]; [|done].
  pose proof (for_of_inv
    (λ s : CSP * bool,
       constraints s.1 = constraints c ∧ domains_sound a c s.1)
    (λ r, r = Throw) (reviseBody x y) dx (c1, false) (conj HK Hd)) as Hloop.
  destruct (for_of _ _ _) as [[c3 removed3]|r0].
  - intros [= _ <-]. apply Hloop. intros valueX s _ [HKs Hds].
    by apply reviseBody_sound.
  - intros ->. discriminate Hloop. intros valueX s _ [HKs Hds].
    by apply reviseBody_sound.
Qed.

Lemma arcLoop_sound a c fuel queue c1 wipeout c2 :
  (∀ xy, xy ∈ queue → arc_ok c xy) → neighbours_ok c c1 →
  constraints c1 = constraints c → domains_sound a c c1 →
  arcLoop fuel queue c1 = Ok (wipeout, c2) →
  domains_sound a c c2 ∧ (wipeout = true → dead a c).
Proof.
  revert queue c1.
  induction fuel as [|fuel IH]; intros [|[x y] queue] c1 Hq Hnb HK Hd; simpl;
    try done; try by intros [= <- <-].
  pose proof (Hq (x, y) (list_elem_of_here _ _)) as Harc.
  assert (∀ xy, xy ∈ queue → arc_ok c xy) as Hq'.
  { intros xy Hxy. apply Hq. by right. }
  destruct (removeInconsistentValues c1 x y) as [[[] c1']| |] eqn:Hrev;
    try done.
  - pose proof (removeInconsistentValues_revised _ _ _ _ _ Hrev) as Hr.
    pose proof (removeInconsistentValues_sound a c _ _ _ _ _ Harc HK Hd Hrev)
      as Hd'.
    destruct (domains c1' !! x) as [[|v dx]|] eqn:Hx; try done.
    + intros [= <- <-]. split; [done|]. intros _ S Hsub Htotal.
      destruct Harc as (HxV & _).
      destruct (Htotal x HxV) as (vx & d & HSx & Hdx & Hvx).
      destruct (Hd' x) as [Hkept _]. rewrite Hdx, Hx in Hkept.
      destruct (Hkept vx Hvx) as [[]%elem_of_nil|Hhop]. by apply Hhop.
    + destruct (neighbours c1') as [nb|] eqn:Hn; [|done]. simpl.
      destruct (nb !! x) as [bs|] eqn:Hbs; [|done].
      apply IH; [| |by rewrite (revised_constraints _ _ _ Hr)|done].
      * intros xy [Hxy|Hxy]%elem_of_app; [by apply Hq'|].
        apply list_elem_of_In, in_map_iff in Hxy as (b & <- & Hb).
        apply list_elem_of_In in Hb.
        apply (Hnb nb x bs b); [|done..].
        by rewrite <-(revised_neighbours _ _ _ Hr).
      * intros nb' x' bs' b'. rewrite Hn.
        rewrite <-Hn, (revised_neighbours _ _ _ Hr). apply Hnb.
  - apply removeInconsistentValues_false in Hrev as ->. by apply IH.
Qed.

Lemma neighboursOf_ok c arcs' x bs b :
  (∀ xy, xy ∈ arcs' → arc_ok c xy) →
  neighboursOf arcs' !! x = Some bs → b ∈ bs → arc_ok c (b, x).
Proof.
  intros Harcs. unfold neighboursOf.
  rewrite neighbours_foldl_lookup, lookup_empty.
  destruct ((filter (λ ab, ab.1 = x) arcs').*2) as [|t ts] eqn:Hf; [done|].
  intros [= <-] Hb. rewrite <-Hf in Hb.
  apply list_elem_of_fmap in Hb as ([x' b'] & -> & [Hx Hin]%list_elem_of_filter).
  simpl in Hx. subst x'. by apply arc_ok_sym, Harcs.
Qed.

Lemma arcConsistency_sound a c fuel c1 wipeout c2 :
  arcs_ok c → soundly_pruned a c c1 →
  arcConsistency fuel c1 = Ok (wipeout, c2) →
  soundly_pruned a c c2 ∧ (wipeout = true → dead a c).
Proof.
  intros [Harcs _] (Hv & HK & Ha & Hnb & Hd) Hrun.
  destruct (arcConsistency_same_problem _ _ _ _ Hrun) as [Hv2 HK2].
  destruct (arcConsistency_pruned _ _ _ _ Hrun)
    as [(_ & _ & Ha2 & _) (arcs' & Harcs' & Hn2)].
  assert (neighbours_ok c (computeNeighbours c1) ∧
          neighbours (computeNeighbours c1) =
            Some (default (neighboursOf arcs') (neighbours c1)))
    as [Hnb1 Hn1].
  { unfold computeNeighbours. rewrite Harcs'.
    destruct (neighbours c1) as [nb|] eqn:Hn; [by rewrite Hn|].
    split; [|done]. intros nb x bs b [= <-]. simpl.
    apply neighboursOf_ok. intros xy. apply Harcs. by rewrite <-Ha. }
  revert Hrun. unfold arcConsistency. rewrite Harcs'. intros Hrun.
  apply (arcLoop_sound a c) in Hrun as [Hd2 Hw]; try done.
  - split; [|done]. split_and!; try congruence; [|done].
    intros nb x bs b. rewrite Hn2, <-Hn1. apply Hnb1.
  - intros xy. apply Harcs. by rewrite <-Ha.
  - rewrite <-HK. unfold computeNeighbours. rewrite Harcs'.
    by destruct (neighbours c1).
  - assert (domains (computeNeighbours c1) = domains c1) as Heq.
    { unfold computeNeighbours. rewrite Harcs'. by destruct (neighbours c1). }
    intros z. rewrite Heq. apply Hd.
Qed.

Lemma soundly_pruned_refl a c : arcs_ok c → soundly_pruned a c c.
Proof.
  intros [_ Hnb]. split_and!; try done. intros z.
  split; [apply domain_kept_refl|]. intros _. apply domain_pruned_refl.
Qed.

Lemma soundly_pruned_insert (a : Assignment) c c1 u x :
  a !! u = None →
  soundly_pruned a c c1 → soundly_pruned (<[u := x]> a) c c1.
Proof.
  intros Hu (Hv & HK & Ha & Hnb & Hd). split_and!; try done.
  assert (∀ z y, hopeless a c z y → hopeless (<[u := x]> a) c z y) as Hmono.
  { intros z y. apply hopeless_mono. by apply insert_subseteq. }
  intros z. destruct (Hd z) as [Hk Hp]. split.
  - eapply domain_kept_mono; [apply Hmono|done].
  - intros [Hz _]%lookup_insert_None.
    eapply domain_pruned_mono; [apply Hmono|by apply Hp].
Qed.

Lemma soundly_pruned_step (a : Assignment) c c1 c2 fuel u x r :
  a !! u = None → is_Some (domains c1 !! u) →
  soundly_pruned a c c1 →
  forwardChecking fuel c1 u x = Ok (r, c2) →
  soundly_pruned (<[u := x]> a) c c2.
Proof.
  intros Hu [d1 Hd1] Hrel Hrun.
  pose proof (soundly_pruned_insert a c c1 u x Hu Hrel)
    as (Hv & HK & Ha & Hnb & Hd).
  destruct (forwardChecking_same_problem _ _ _ _ _ _ Hrun) as [Hv2 HK2].
  assert (arcs c2 = arcs c1 ∧ neighbours c2 = neighbours c1) as [Ha2 Hn2].
  { by apply (forwardChecking_invariant
      (λ c', arcs c' = arcs c1 ∧ neighbours c' = neighbours c1)
      fuel c1 u x r c2). }
  destruct (forwardChecking_result _ _ _ _ _ _ Hrun) as (Hu2 & _).
  pose proof (forwardChecking_removes _ _ _ _ _ _ Hrun) as Hrm.
  split_and!; try congruence.
  { intros nb z bs b. rewrite Hn2. apply Hnb. }
  intros z. destruct (Hd z) as [Hk Hp].
  destruct (decide (z = u)) as [->|Hne].
  - split; [|by rewrite lookup_insert_eq].
    eapply domain_kept_trans; [exact Hk|]. rewrite Hd1, Hu2. simpl.
    intros v _. destruct (decide (v = x)) as [->|Hvx]; [left; by left|].
    right. apply (other_value_hopeless _ c u x); [|done].
    by rewrite lookup_insert_eq.
  - assert (domain_pruned (hopeless (<[u := x]> a) c z)
              (domains c1 !! z) (domains c2 !! z)) as Hstep.
    { eapply domain_pruned_mono; [|by apply Hrm].
      intros y [-> Hshare]. apply (shares_hopeless _ c u); [|done|].
      - by rewrite lookup_insert_eq.
      - by rewrite <-HK. }
    split.
    + eapply domain_kept_trans; [exact Hk|]. by apply domain_pruned_kept.
    + intros Hz. eapply domain_pruned_trans; [by apply Hp|done].
Qed.

Lemma basic_tryValues_Ok (rec : Assignment → outcome (option Assignment))
    csp (a : Assignment) u values :
  (∀ value, value ∈ values → ∃ r, rec (<[u := value]> a) = Ok r) →
  ∃ r, Basic.tryValues rec csp a u values = Ok r.
Proof.
  induction values as [|value values IH]; simpl; intros Hall; [by eexists|].
  assert (∃ r, Basic.tryValues rec csp a u values = Ok r) as Hrest.
  { apply IH. intros v Hv. apply Hall. by right. }
  destruct (Basic.constraints csp _); [|done].
  destruct (Hall value (list_elem_of_here _ _)) as [[A|] ->]; [by eexists|done].
Qed.

Lemma basic_total fuel csp (a : Assignment) :
  NoDup (Basic.variables csp) →
  (∀ v, v ∈ Basic.variables csp → is_Some (Basic.domains csp !! v)) →
  (∀ k, is_Some (a !! k) → k ∈ Basic.variables csp) →
  length (Basic.variables csp) < fuel + size a →
  ∃ r, Basic.recursiveBacktracking fuel csp a = Ok r.
Proof.
  intros Hnd Hdom. revert a. induction fuel as [|fuel IH]; intros a Hkeys Hfuel.
  { pose proof (size_le_variables _ a Hkeys). simpl in *. lia. }
  cbn [Basic.recursiveBacktracking].
  destruct (Nat.eqb _ _) eqn:Hsize; [by eexists|].
  apply Nat.eqb_neq in Hsize.
  destruct (pickUnassigned_found _ a Hnd Hkeys Hsize) as [Hu Hnone].
  destruct (Hdom _ Hu) as [values ->].
  apply basic_tryValues_Ok. intros value _. apply IH.
  - by apply keys_insert.
  - rewrite map_size_insert_None by done. lia.
Qed.

Lemma basic_extends fuel csp (a A : Assignment) :
  NoDup (Basic.variables csp) →
  (∀ k, is_Some (a !! k) → k ∈ Basic.variables csp) →
  Basic.recursiveBacktracking fuel csp a = Ok (Some A) →
  a ⊆ A ∧
  ∀ k x, A !! k = Some x →
    a !! k = Some x ∨ ∃ d, Basic.domains csp !! k = Some d ∧ x ∈ d.
Proof.
  intros Hnd. revert a. induction fuel as [|fuel IH]; intros a Hkeys; [done|].
  cbn [Basic.recursiveBacktracking].
  destruct (Nat.eqb _ _) eqn:Hsize.
  { intros [= <-]. split; [done|]. by left. }
  apply Nat.eqb_neq in Hsize.
  destruct (pickUnassigned_found _ a Hnd Hkeys Hsize) as [Hu Hnone].
  destruct (Basic.domains csp !! _) as [values|] eqn:Hdom; [|done].
  intros (value & Hvalue & _ & Hrec)%basic_tryValues_Some.
  apply IH in Hrec as [Hsub Hfrom]; [|by apply keys_insert]. split.
  - transitivity (<[pickUnassigned (Basic.variables csp) a := value]> a);
      [by apply insert_subseteq|done].
  - intros k x Hk. destruct (Hfrom k x Hk) as [Hnew|?]; [|by right].
    destruct (decide (pickUnassigned (Basic.variables csp) a = k))
      as [<-|Hne].
    + rewrite lookup_insert_eq in Hnew. injection Hnew as <-.
      right. by exists values.
    + left. by rewrite lookup_insert_ne in Hnew.
Qed.

(** From an assignment that leads nowhere the basic solver returns the
    absent result. *)
Lemma dead_None fuel c (a : Assignment) :
  NoDup (variables c) →
  (∀ v, v ∈ variables c → is_Some (domains c !! v)) →
  (∀ k, is_Some (a !! k) → k ∈ variables c) →
  within_domains c a →
  length (variables c) < fuel + size a →
  size a ≠ length (variables c) ∨
    validateConstraints a (constraints c) false = true →
  dead a c →
  Basic.recursiveBacktracking fuel (toBasic c) a = Ok None.
Proof.
  intros Hnd Hdom Hkeys Hwithin Hfuel Hinit Hdead.
  destruct (basic_total fuel (toBasic c) a Hnd Hdom Hkeys Hfuel)
    as [[A|] Hrun]; [exfalso|done].
  destruct (basic_sound fuel (toBasic c) a A) as [Hall Hvalid];
    [by left|done..|].
  destruct (basic_extends fuel (toBasic c) a A Hnd Hkeys Hrun)
    as [Hsub Hfrom].
  simpl in *. rewrite Hdead in Hvalid; [done..|].
  intros v Hv. destruct (Hall v Hv) as [x Hx]. exists x.
  destruct (Hfrom v x Hx) as [Ha|(d & Hd & Hin)].
  - destruct (Hwithin v x Ha) as (d & Hd & Hin). by exists d.
  - by exists d.
Qed.

Section pruning.
Context (c : CSP).
Context (rec : nat → Assignment → state → outcome (option Assignment * state)).
Context (brec : Assignment → outcome (option Assignment)).
Context (fuel : nat) (options : SolverOptions).
Hypothesis rec_frame :
  ∀ l a σ r σ', rec l a σ = Ok (r, σ') → heap_extends σ σ'.
Hypothesis rec_pruning :
  ∀ l a σ c' r σ',
    heap σ !! l = Some c' → soundly_pruned a c c' →
    (∀ k, is_Some (a !! k) → k ∈ variables c) →
    within_domains c a →
    length (variables c) < fuel + size a →
    rec l a σ = Ok (r, σ') → brec a = Ok r.
Hypothesis brec_dead :
  ∀ a : Assignment,
    (∀ k, is_Some (a !! k) → k ∈ variables c) →
    within_domains c a →
    validateConstraints a (constraints c) false = true →
    length (variables c) < fuel + size a →
    dead a c → brec a = Ok None.

Lemma tryValues_pruning assignment l c' u du d d' σ r σ' :
  heap σ !! l = Some c' → soundly_pruned assignment c c' →
  (∀ k, is_Some (assignment !! k) → k ∈ variables c) →
  within_domains c assignment →
  u ∈ variables c → assignment !! u = None →
  domains c !! u = Some du → (∀ v, v ∈ d → v ∈ du) →
  is_Some (domains c' !! u) →
  length (variables c) < S fuel + size assignment →
  pruned (hopeless assignment c u) d d' →
  tryValues rec fuel options assignment l c' u d' σ = Ok (r, σ') →
  Basic.tryValues brec (toBasic c) assignment u d = Ok r.
Proof using rec_frame rec_pruning brec_dead.
  intros Hc' Hrel Hkeys Hwithin Hu Hnone Hdu Hsub Hdom' Hfuel Hpr.
  revert σ Hc' Hsub.
  induction Hpr as [|x d d' Hpr IH|x d d' Hx Hpr IH]; intros σ Hc' Hsub.
  - simpl. by intros [= <- _].
  - assert (∀ v, v ∈ d → v ∈ du) as Hrest by (intros v Hv; apply Hsub; by right).
    assert (x ∈ du) as Hxdu by (apply Hsub; by left).
    simpl. pose proof Hrel as (Hv & HK & _). rewrite HK.
    assert (heap (countValidation σ) !! l = Some c') as Hc0 by done.
    revert Hc0. generalize (countValidation σ). clear σ Hc'. intros σ Hc'.
    destruct (validateConstraints _ _ _); [|by apply IH].
    destruct (cloneDeep l σ) as [[newCsp σ1]| |] eqn:Hclone; try done.
    pose proof (keys_insert _ assignment u x Hu Hkeys) as Hkeys'.
    assert (within_domains c (<[u:=x]> assignment)) as Hwithin'.
    { intros k y [[<- <-]|[_ Hk]]%lookup_insert_Some; [by exists du|].
      by apply Hwithin. }
    assert (length (variables c) < fuel + size (<[u:=x]> assignment))
      as Hfuel'.
    { rewrite map_size_insert_None by done. lia. }
    assert (∀ σ2 c2, heap_extends σ σ2 → heap σ2 !! newCsp = Some c2 →
      soundly_pruned (<[u:=x]> assignment) c c2 →
      match rec newCsp (<[u:=x]> assignment) σ2 with
      | Ok (Some result, σ3) => Ok (Some result, σ3)
      | Ok (None, σ3) => tryValues rec fuel options assignment l c' u d' σ3
      | Throw => Throw
      | OutOfFuel => OutOfFuel
      end = Ok (r, σ') →
      match brec (<[u:=x]> assignment) with
      | Ok (Some result) => Ok (Some result)
      | Ok None => Basic.tryValues brec (toBasic c) assignment u d
      | Throw => Throw
      | OutOfFuel => OutOfFuel
      end = Ok r) as Hdescend.
    { intros σ2 c2 Hext Hc2 Hrel2.
      destruct (rec _ _ σ2) as [[[result|] σ3]| |] eqn:Hrec; try done.
      - intros [= <- <-].
        by rewrite (rec_pruning _ _ _ _ _ _ Hc2 Hrel2 Hkeys' Hwithin' Hfuel'
                      Hrec).
      - rewrite (rec_pruning _ _ _ _ _ _ Hc2 Hrel2 Hkeys' Hwithin' Hfuel'
                   Hrec).
        apply IH; [|done]. by eapply rec_frame, Hext. }
    destruct (optForwardChecking options).
    + destruct (onObject _ newCsp σ1) as [[r1 σ2]| |] eqn:Hfc; try done.
      destruct (clone_then_write _ _ _ _ _ _ _ Hclone Hfc)
        as (Hext & c1 & c2 & Hc1 & Hrun & Hc2).
      rewrite (forwardChecking_never_true _ _ _ _ _ _ Hrun).
      apply (Hdescend σ2 c2); [done..|].
      assert (c1 = c') as -> by congruence.
      by eapply soundly_pruned_step.
    + apply (Hdescend σ1 c'); [by eapply cloneDeep_extends| |].
      * by rewrite (cloneDeep_lookup _ _ _ _ Hclone).
      * by apply soundly_pruned_insert.
  - assert (∀ v, v ∈ d → v ∈ du) as Hrest by (intros v Hv; apply Hsub; by right).
    assert (x ∈ du) as Hxdu by (apply Hsub; by left).
    intros Hrun. simpl.
    destruct (validateConstraints (<[u:=x]> assignment) (constraints c) false)
      eqn:Hval; [|by eapply IH].
    rewrite brec_dead; [by eapply IH|..]; try done.
    + by apply keys_insert.
    + intros k y [[<- <-]|[_ Hk]]%lookup_insert_Some; [by exists du|].
      by apply Hwithin.
    + rewrite map_size_insert_None by done. lia.
    + intros S HS Htotal. apply (Hx S); [|done|].
      * transitivity (<[u:=x]> assignment); [by apply insert_subseteq|done].
      * apply (lookup_weaken _ _ _ _ (lookup_insert_eq _ _ _) HS).
Qed.
End pruning.

Lemma recursiveBacktracking_pruning fuel c l c' a options σ r σ' :
  NoDup (variables c) →
  (∀ v, v ∈ variables c → is_Some (domains c !! v)) →
  arcs_ok c →
  heap σ !! l = Some c' → soundly_pruned a c c' →
  (∀ k, is_Some (a !! k) → k ∈ variables c) →
  within_domains c a →
  length (variables c) < fuel + size a →
  recursiveBacktracking fuel l a options σ = Ok (r, σ') →
  Basic.recursiveBacktracking fuel (toBasic c) a = Ok r.
Proof.
  intros Hnd Hdom Harcs. revert l c' a σ r σ'.
  induction fuel as [|fuel IH];
    intros l c' a σ r σ' Hc' Hrel Hkeys Hwithin Hfuel; [done|].
  cbn [recursiveBacktracking].
  unfold recursiveBacktracking_body. rewrite Hc'.
  pose proof Hrel as (Hv & _). rewrite Hv.
  destruct (Nat.eqb _ _) eqn:Hsize.
  { intros [= <- _]. cbn [Basic.recursiveBacktracking]. simpl.
    by rewrite Hsize. }
  pose proof Hsize as Hsize'. apply Nat.eqb_neq in Hsize'.
  destruct (pickUnassigned_found _ a Hnd Hkeys Hsize') as [Hu Hnone].
  assert (∀ l0 σ0 c0, heap σ0 !! l0 = Some c0 → soundly_pruned a c c0 →
    search (λ newCsp newAssignment σ1,
              recursiveBacktracking fuel newCsp newAssignment options σ1)
      fuel options a l0 σ0 = Ok (r, σ') →
    Basic.recursiveBacktracking (S fuel) (toBasic c) a = Ok r) as Hsearch.
  { intros l0 σ0 c0 Hc0 Hrel0. unfold search. rewrite Hc0.
    pose proof Hrel0 as (Hv0 & _ & _ & _ & Hd0). rewrite Hv0.
    cbn [Basic.recursiveBacktracking]. simpl. rewrite Hsize.
    destruct (Hdom _ Hu) as [du Hdu].
    destruct (Hd0 (pickUnassigned (variables c) a)) as [_ Hp].
    specialize (Hp Hnone). rewrite Hdu in Hp. rewrite Hdu.
    destruct (domains c0 !! _) as [d'|] eqn:Hd'; [|done].
    apply (tryValues_pruning c _ _ fuel options) with (du := du); try done.
    - intros l1 a1 σ1 r1 σ1'. apply recursiveBacktracking_extends.
    - intros l1 a1 σ1 c1 r1 σ1'. apply IH.
    - intros a1 Hk1 Hw1 Hval1 Hf1. apply dead_None; try done. by right. }
  destruct (optArcConsistency options); [|by apply (Hsearch l σ c')].
  destruct (cloneDeep l σ) as [[csp' σ1]| |] eqn:Hclone; try done.
  destruct (onObject _ csp' σ1) as [[wipeout σ2]| |] eqn:Hac; try done.
  destruct (clone_then_write _ _ _ _ _ _ _ Hclone Hac)
    as (Hext & c1 & c2 & Hc1 & Hrun & Hc2).
  assert (c1 = c') as -> by congruence.
  destruct (arcConsistency_sound a c _ _ _ _ Harcs Hrel Hrun) as [Hrel2 Hw].
  destruct wipeout; [|by apply (Hsearch csp' σ2 c2)].
  intros [= <- _]. apply dead_None; try done; [by left|by apply Hw].
Qed.

Lemma solve_pruning fuel c (a : Assignment) options r :
  well_formed c →
  (∀ k, is_Some (a !! k) → k ∈ variables c) →
  within_domains c a →
  length (variables c) < fuel + size a →
  solve fuel c a options = Ok r →
  solve fuel c a plain = Ok r.
Proof.
  intros (Hnd & Hdom & Harcs) Hkeys Hwithin Hfuel Hrun.
  change (resultOf (recursiveBacktracking fuel 0 a plain (initial c)) = Ok r).
  rewrite (recursiveBacktracking_plain_basic fuel c 0 a (initial c) eq_refl).
  unfold solve in Hrun.
  destruct (recursiveBacktracking fuel 0 a options (initial c))
    as [[r0 σ']| |] eqn:Hrec; try done.
  injection Hrun as ->.
  apply (recursiveBacktracking_pruning fuel c 0 c a options (initial c) r σ');
    try done.
  by apply soundly_pruned_refl.
Qed.



(** ** Pruning keeps every accepted assignment *)

Lemma arcConsistency_keeps fuel c wipeout c' (S : Assignment) :
  arcs_ok c →
  arcConsistency fuel c = Ok (wipeout, c') →
  total_on (variables c) (domains c) S →
  validateConstraints S (constraints c) false = true →
  wipeout = false ∧ total_on (variables c') (domains c') S.
Proof.
  intros Harcs Hrun Htotal Hvalid.
  destruct (arcConsistency_sound ∅ c fuel c wipeout c' Harcs
              (soundly_pruned_refl ∅ c Harcs) Hrun)
    as [(Hv & _ & _ & _ & Hd) Hw].
  split.
  - destruct wipeout; [|done].
    rewrite (Hw eq_refl S) in Hvalid; [done| |done].
    apply map_empty_subseteq.
  - intros v Hv'. rewrite Hv in Hv'.
    destruct (Htotal v Hv') as (x & d & Hx & Hdv & Hin). exists x.
    destruct (Hd v) as [Hkept _]. rewrite Hdv in Hkept.
    destruct (domains c' !! v) as [d'|]; [|done]. exists d'.
    split_and!; try done.
    destruct (Hkept x Hin) as [?|Hhop]; [done|].
    rewrite (Hhop S) in Hvalid; [done| |done..].
    apply map_empty_subseteq.
Qed.


Lemma forwardChecking_keeps fuel c u x r c' (S : Assignment) :
  forwardChecking fuel c u x = Ok (r, c') →
  total_on (variables c) (domains c) S →
  S !! u = Some x →
  validateConstraints S (constraints c) false = true →
  total_on (variables c') (domains c') S.
Proof.
  intros Hrun Htotal Hu Hvalid.
  destruct (forwardChecking_same_problem _ _ _ _ _ _ Hrun) as [Hv _].
  destruct (forwardChecking_result _ _ _ _ _ _ Hrun) as (Hu' & _).
  pose proof (forwardChecking_removes _ _ _ _ _ _ Hrun) as Hrm.
  intros v Hv'. rewrite Hv in Hv'.
  destruct (Htotal v Hv') as (y & d & Hy & Hdv & Hin). exists y.
  destruct (decide (v = u)) as [->|Hne].
  - exists [x]. split_and!; try done.
    assert (y = x) as -> by congruence. by left.
  - specialize (Hrm v Hne). rewrite Hdv in Hrm.
    destruct (domains c' !! v) as [d'|]; [|done]. exists d'.
    split_and!; try done. simpl in Hrm.
    destruct (pruned_kept _ _ _ y Hrm Hin) as [?|[-> Hshare]]; [done|].
    by rewrite (same_value_rejected S _ u v x) in Hvalid.
Qed.

(** X24.  Forward checking keeps every accepted assignment.  If an
    assignment gives every variable a value from its domain, gives
    [variable] the value [value] and passes the validator, then it still
    gives every variable a value from its domain in the CSP that a
    returning call [forwardChecking(csp, variable, value)] leaves
    behind. *)
Theorem forwardChecking_keeps_solutions (fuel : nat) (c c' : CSP)
    (variable : string) (value : jsval) (r : jsret) (S : Assignment) :
  forwardChecking fuel c variable value = Ok (r, c') →
  total_on (variables c) (domains c) S →
  S !! variable = Some value →
  validateConstraints S (constraints c) false = true →
  total_on (variables c') (domains c') S.
Proof. apply forwardChecking_keeps. Qed.

(** ** The instances of the two files *)

Lemma violated_pair (A : Assignment) x y :
  violated A (MUST_BE_DISTINCT [x; y]) =
  match A !! x, A !! y with
  | Some vx, Some vy => bool_decide (vx = vy)
  | _, _ => false
  end.
Proof.
  unfold violated; simpl. unfold distinctPair; simpl.
  destruct (A !! x) as [vx|], (A !! y) as [vy|]; try done.
  unfold strictEq. by case_bool_decide.
Qed.

Lemma pairs_agree (A : Assignment) (pairs : list (string * string)) :
  negb (bool_decide (is_Some (
    List.find (λ ab : option jsval * option jsval, bool_decide (ab.1 = ab.2))
      (List.filter
         (λ values : option jsval * option jsval,
            bool_decide (values.1 ≠ None) && bool_decide (values.2 ≠ None))
         (map (λ variables : string * string,
                 (A !! variables.1, A !! variables.2)) pairs))))) =
  validateConstraints A (map (λ ab, MUST_BE_DISTINCT [ab.1; ab.2]) pairs) false.
Proof.
  rewrite validateConstraints_violated. f_equal.
  induction pairs as [|[x y] pairs IH]; simpl; [done|].
  rewrite violated_pair.
  destruct (A !! x) as [vx|], (A !! y) as [vy|]; simpl; try done.
  destruct (decide (vx = vy)) as [->|Hne].
  - rewrite (bool_decide_eq_true_2 (Some vy = Some vy)) by done.
    by rewrite (bool_decide_eq_true_2 (vy = vy)).
  - rewrite (bool_decide_eq_false_2 (Some vx = Some vy)) by congruence.
    by rewrite (bool_decide_eq_false_2 (vx = vy)).
Qed.

Lemma Australia_agree (A : Assignment) :
  Basic.constraints Basic.Australia A =
  validateConstraints A (constraints Australia) false.
Proof. apply (pairs_agree A australiaBorders). Qed.

Lemma basic_tryValues_agree
    (rec1 rec2 : Assignment → outcome (option Assignment)) csp1 csp2
    (a : Assignment) u values :
  (∀ value, value ∈ values →
     Basic.constraints csp1 (<[u := value]> a) =
       Basic.constraints csp2 (<[u := value]> a) ∧
     rec1 (<[u := value]> a) = rec2 (<[u := value]> a)) →
  Basic.tryValues rec1 csp1 a u values = Basic.tryValues rec2 csp2 a u values.
Proof.
  induction values as [|value values IH]; intros Hall; simpl; [done|].
  destruct (Hall value (list_elem_of_here _ _)) as [-> ->].
  rewrite IH; [done|]. intros v Hv. apply Hall. by right.
Qed.

(** Two problems of the basic solver with the same variables and domains,
    whose constraints agree on every assignment the search can reach,
    give the same run. *)
Lemma basic_agree (P : Assignment → Prop) fuel csp1 csp2 (a : Assignment) :
  Basic.variables csp1 = Basic.variables csp2 →
  Basic.domains csp1 = Basic.domains csp2 →
  (∀ a', P a' → Basic.constraints csp1 a' = Basic.constraints csp2 a') →
  (∀ a' u d x, P a' → Basic.domains csp1 !! u = Some d → x ∈ d →
     P (<[u := x]> a')) →
  P a →
  Basic.recursiveBacktracking fuel csp1 a =
  Basic.recursiveBacktracking fuel csp2 a.
Proof.
  intros Hv Hd HK Hstep. revert a.
  induction fuel as [|fuel IH]; intros a Ha; [done|].
  cbn [Basic.recursiveBacktracking]. rewrite <-Hv, <-Hd.
  destruct (Nat.eqb _ _); [done|].
  destruct (Basic.domains csp1 !! _) as [values|] eqn:Hdom; [|done].
  apply basic_tryValues_agree. intros value Hvalue.
  assert (P (<[pickUnassigned (Basic.variables csp1) a := value]> a)) as Hnew.
  { by eapply Hstep. }
  split; [by apply HK|by apply IH].
Qed.

(** X25.  The two files pose the same Australia problem: the constraint
    function of the basic file accepts an assignment exactly when the
    validator accepts it on the constraint list of the full file, and the
    basic solver on the one gives the run that [solve] without options
    gives on the other, for every initial assignment and amount of
    fuel. *)
Theorem Australia_same_problem (fuel : nat) (a : Assignment) :
  Basic.constraints Basic.Australia a =
    validateConstraints a (constraints Australia) false ∧
  Basic.recursiveBacktracking fuel Basic.Australia a =
    solve fuel Australia a plain.
Proof.
  split; [apply Australia_agree|].
  change (solve fuel Australia a plain)
    with (resultOf (recursiveBacktracking fuel 0 a plain (initial Australia))).
  rewrite (recursiveBacktracking_plain_basic fuel Australia 0 a
             (initial Australia) eq_refl).
  apply (basic_agree (λ _, True)); try done.
  intros a' _. apply Australia_agree.
Qed.

Lemma rule_broken (A : Assignment) k v d :
  k ≠ "today" →
  Basic.LionUnicorn_rule_broken A [(k, v); ("today", d)] =
  match A !! k with
  | Some x => bool_decide (x = v) && negb (bool_decide (A !! "today" = Some d))
  | None => false
  end.
Proof.
  intros Hk. unfold Basic.LionUnicorn_rule_broken, Basic.property. simpl.
  rewrite (bool_decide_eq_true_2 (k ≠ "today")) by done. simpl.
  rewrite (bool_decide_eq_true_2 (k = k)) by done.
  rewrite (bool_decide_eq_false_2 (k = "today")) by done. simpl.
  destruct (A !! k) as [x|]; [|done]. f_equal.
  apply bool_decide_ext. split; congruence.
Qed.

(** A [MUST_SATISFY] constraint on two variables. *)
Lemma violated_two (A T : Assignment) k1 v1 k2 v2 :
  map_to_list T = [(k1, v1); (k2, v2)] →
  violated A (MUST_SATISFY T) =
  match A !! k1, A !! k2 with
  | Some a1, Some a2 =>
      (bool_decide (a1 = v1) || bool_decide (a2 = v2)) &&
      (negb (bool_decide (a1 = v1)) || negb (bool_decide (a2 = v2)))
  | _, _ => false
  end.
Proof.
  intros HT. unfold violated, validateBody, mustSatisfy. rewrite HT.
  cbn [existsb fst snd].
  destruct (A !! k1) as [a1|], (A !! k2) as [a2|]; simpl; try done.
  rewrite (bool_decide_ext (Some a1 = Some v1) (a1 = v1))
    by (split; congruence).
  rewrite (bool_decide_ext (Some a2 = Some v2) (a2 = v2))
    by (split; congruence).
  rewrite !orb_false_r.
  by destruct (_ || _), (_ || _).
Qed.

Lemma LionUnicorn_agree (A : Assignment) :
  boolean_answers A →
  Basic.constraints Basic.LionUnicorn A =
  validateConstraints A (constraints LionUnicorn) false.
Proof.
  intros Hbool. rewrite validateConstraints_violated.
  change (constraints LionUnicorn) with [
    MUST_SATISFY (<["lion" := VBoolean true]>
                  (<["today" := VString "Thursday"]> ∅));
    MUST_SATISFY (<["lion" := VBoolean false]>
                  (<["today" := VString "Monday"]> ∅));
    MUST_SATISFY (<["unicorn" := VBoolean true]>
                  (<["today" := VString "Sunday"]> ∅));
    MUST_SATISFY (<["unicorn" := VBoolean false]>
                  (<["today" := VString "Thursday"]> ∅))
  ].
  cbn [existsb].
  rewrite (violated_two A _ "lion" (VBoolean true) "today" (VString "Thursday"))
    by (vm_compute; reflexivity).
  rewrite (violated_two A _ "lion" (VBoolean false) "today" (VString "Monday"))
    by (vm_compute; reflexivity).
  rewrite (violated_two A _ "unicorn" (VBoolean true) "today"
             (VString "Sunday")) by (vm_compute; reflexivity).
  rewrite (violated_two A _ "unicorn" (VBoolean false) "today"
             (VString "Thursday")) by (vm_compute; reflexivity).
  unfold Basic.LionUnicorn. cbn [Basic.constraints].
  unfold Basic.LionUnicorn_constraints. cbn [List.find].
  rewrite !rule_broken by done.
  pose proof (Hbool "lion") as Hl. pose proof (Hbool "unicorn") as Hu.
  destruct (A !! "today") as [t|];
    [|by destruct (A !! "lion"), (A !! "unicorn")].
  assert (∀ d, bool_decide (Some t = Some d) = bool_decide (t = d)) as Hd.
  { intros d. apply bool_decide_ext. split; congruence. }
  rewrite !Hd. clear Hd.
  destruct (A !! "lion") as [l|].
  { destruct (Hl l) as [bl ->]; [by left|done|].
    destruct (A !! "unicorn") as [u|].
    { destruct (Hu u) as [bu ->]; [by right|done|].
      destruct (decide (t = VString "Thursday")) as [->|H1];
        [|destruct (decide (t = VString "Monday")) as [->|H2];
          [|destruct (decide (t = VString "Sunday")) as [->|H3]]];
        rewrite ?(bool_decide_eq_false_2 _ H1), ?(bool_decide_eq_false_2 _ H2),
          ?(bool_decide_eq_false_2 _ H3);
        destruct bl, bu; vm_compute; reflexivity. }
    destruct (decide (t = VString "Thursday")) as [->|H1];
      [|destruct (decide (t = VString "Monday")) as [->|H2]];
      rewrite ?(bool_decide_eq_false_2 _ H1), ?(bool_decide_eq_false_2 _ H2);
      destruct bl; vm_compute; reflexivity. }
  destruct (A !! "unicorn") as [u|]; [|done].
  destruct (Hu u) as [bu ->]; [by right|done|].
  destruct (decide (t = VString "Thursday")) as [->|H1];
    [|destruct (decide (t = VString "Sunday")) as [->|H3]];
    rewrite ?(bool_decide_eq_false_2 _ H1), ?(bool_decide_eq_false_2 _ H3);
    destruct bu; vm_compute; reflexivity.
Qed.

(** The two functions part on a value that is no boolean: the rule
    objects of the basic file only look at [today] once the other key has
    the rule's value, the validator also rejects [today] having the
    rule's day while the other key has another value. *)
Lemma LionUnicorn_agree_needs_booleans :
  Basic.constraints Basic.LionUnicorn
    (<["lion" := VNumber 5]> (<["today" := VString "Thursday"]> ∅)) = true ∧
  validateConstraints
    (<["lion" := VNumber 5]> (<["today" := VString "Thursday"]> ∅))
    (constraints LionUnicorn) false = false.
Proof. split; vm_compute; reflexivity. Qed.

Lemma boolean_answers_insert (a : Assignment) u d x :
  boolean_answers a →
  Basic.domains Basic.LionUnicorn !! u = Some d → x ∈ d →
  boolean_answers (<[u := x]> a).
Proof.
  intros Ha Hd Hx k v Hk [[<- <-]|[_ Hv]]%lookup_insert_Some;
    [|by eapply Ha].
  destruct Hk as [->| ->]; vm_compute in Hd; injection Hd as <-;
    repeat (apply elem_of_cons in Hx as [->|Hx]; [by eexists|]);
    by apply elem_of_nil in Hx.
Qed.

(** X26.  The two files pose the same Lion-Unicorn problem to the
    search.  On an assignment that gives [lion] and [unicorn] booleans
    where it assigns them, the constraint function of the basic file
    accepts exactly when the validator accepts on the constraint list of
    the full file; and from such an initial assignment the basic solver
    gives the run that [solve] without options gives on the full file's
    instance, for every amount of fuel. *)
Theorem LionUnicorn_same_problem (fuel : nat) (a : Assignment) :
  boolean_answers a →
  Basic.constraints Basic.LionUnicorn a =
    validateConstraints a (constraints LionUnicorn) false ∧
  Basic.recursiveBacktracking fuel Basic.LionUnicorn a =
    solve fuel LionUnicorn a plain.
Proof.
  intros Ha. split; [by apply LionUnicorn_agree|].
  change (solve fuel LionUnicorn a plain)
    with (resultOf (recursiveBacktracking fuel 0 a plain
                      (initial LionUnicorn))).
  rewrite (recursiveBacktracking_plain_basic fuel LionUnicorn 0 a
             (initial LionUnicorn) eq_refl).
  apply (basic_agree boolean_answers); try done.
  - intros a' Ha'. by apply LionUnicorn_agree.
  - intros a' u d x. apply boolean_answers_insert.
Qed.

Lemma LionUnicorn_same_problem_witness :
  Basic.constraints Basic.LionUnicorn (<["lion" := VBoolean true]> ∅) =
    validateConstraints (<["lion" := VBoolean true]> ∅)
      (constraints LionUnicorn) false ∧
  Basic.recursiveBacktracking 5 Basic.LionUnicorn (<["lion" := VBoolean true]> ∅) =
    solve 5 LionUnicorn (<["lion" := VBoolean true]> ∅) plain.
Proof.
  apply LionUnicorn_same_problem.
  intros k v _ [[_ <-]|[_ Hv]]%lookup_insert_Some; [by eexists|].
  by rewrite lookup_empty in Hv.
Defined.

(** ** The instances meet the conditions of the pruning options *)

Lemma related_MUST_BE_DISTINCT K x y :
  MUST_BE_DISTINCT [x; y] ∈ K → related K x y.
Proof.
  intros Hin. exists (MUST_BE_DISTINCT [x; y]). split; [done|].
  intros A HAx HAy. exists 0, 1, x, y. simpl. split_and!; try done; lia.
Qed.

Lemma related_MUST_SATISFY K (T : Assignment) x y :
  MUST_SATISFY T ∈ K → (∀ k, is_Some (T !! k) → k = x ∨ k = y) →
  related K x y.
Proof.
  intros Hin Hkeys. exists (MUST_SATISFY T). split; [done|].
  intros A HAx HAy k Hk. by destruct (Hkeys k Hk) as [->| ->].
Qed.

Lemma copyAndReverse_arcs_ok c borders :
  arcs c = Some (copyAndReverse borders) → neighbours c = None →
  (∀ xy, xy ∈ borders → arc_ok c xy) →
  arcs_ok c.
Proof.
  intros Harcs Hnb Hall. split.
  - intros arcs' [x y]. rewrite Harcs. intros [= <-].
    intros [Hxy|Hyx]%copyAndReverse_elem_of; [by apply Hall|].
    by apply arc_ok_sym, Hall.
  - intros nb x bs b. by rewrite Hnb.
Qed.

Lemma Australia_well_formed : well_formed Australia.
Proof.
  split_and!.
  - simpl. apply (bool_decide_unpack _). by vm_compute.
  - intros v Hv. simpl in Hv. apply (bool_decide_unpack _).
    unfold AUSTRALIA_VARIABLES in Hv.
    repeat (apply elem_of_cons in Hv as [->|Hv]; [by vm_compute|]).
    by apply elem_of_nil in Hv.
  - apply (copyAndReverse_arcs_ok _ australiaBorders); [done..|].
    assert (Forall (λ ab : string * string,
                      ab.1 ∈ AUSTRALIA_VARIABLES ∧ ab.2 ∈ AUSTRALIA_VARIABLES)
              australiaBorders) as Hin.
    { apply (bool_decide_unpack _). by vm_compute. }
    intros [x y] Hxy. destruct (proj1 (Forall_forall _ _) Hin _ Hxy).
    split_and!; try done. apply related_MUST_BE_DISTINCT. simpl.
    by apply (list_elem_of_fmap_2
                (λ ab : string * string, MUST_BE_DISTINCT [ab.1; ab.2])
                australiaBorders (x, y)).
Qed.

Lemma LionUnicorn_well_formed : well_formed LionUnicorn.
Proof.
  assert (∀ k xv (d : jsval) k0,
    is_Some ((<[k := xv]> (<["today" := d]> ∅) : Assignment) !! k0) →
    k0 = k ∨ k0 = "today") as Hkeys.
  { intros k xv d k0 [<-|[<-|H]%lookup_insert_is_Some']%lookup_insert_is_Some';
      auto.
    rewrite lookup_empty in H. by destruct H. }
  split_and!.
  - simpl. apply (bool_decide_unpack _). by vm_compute.
  - intros v Hv. simpl in Hv. apply (bool_decide_unpack _).
    repeat (apply elem_of_cons in Hv as [->|Hv]; [by vm_compute|]).
    by apply elem_of_nil in Hv.
  - apply (copyAndReverse_arcs_ok _ [("lion", "today"); ("unicorn", "today")]);
      [done..|].
    intros xy Hxy.
    apply elem_of_cons in Hxy as [->|Hxy];
      [|apply list_elem_of_singleton in Hxy as ->].
    + split_and!; [set_solver..|].
      eapply (related_MUST_SATISFY _ _ "lion" "today"); [by left|].
      apply Hkeys.
    + split_and!; [set_solver..|].
      eapply (related_MUST_SATISFY _
                (<["unicorn" := VBoolean true]>
                 (<["today" := VString "Sunday"]> ∅)) "unicorn" "today").
      * simpl. set_solver.
      * apply Hkeys.
Qed.

(** X27.  On the two instances of the file the options never change the
    answer.  [Australia] and [LionUnicorn] have distinct variables that
    all have a domain, and their arcs join variables that a constraint
    relates; so from an initial assignment of variables only, with values
    from their domains, [solve] with any options and more fuel than there
    are unassigned variables returns, if it returns, what [solve] without
    options returns. *)
Theorem instances_same_answer (c : CSP) (fuel : nat) (a : Assignment)
    (options : SolverOptions) (r : option Assignment) :
  c = Australia ∨ c = LionUnicorn →
  (∀ k, is_Some (a !! k) → k ∈ variables c) →
  within_domains c a →
  length (variables c) < fuel + size a →
  solve fuel c a options = Ok r →
  solve fuel c a plain = Ok r.
Proof.
  intros Hc. apply solve_pruning.
  destruct Hc as [-> | ->];
    [apply Australia_well_formed|apply LionUnicorn_well_formed].
Qed.

Lemma instances_same_answer_witness :
  solve 40 Australia ∅ withBoth = solve 40 Australia ∅ plain.
Proof.
  assert (returned (solve 40 Australia ∅ withBoth) = true)
    as Hok by (vm_compute; reflexivity).
  destruct (solve 40 Australia ∅ withBoth) as [r| |] eqn:Hrun;
    try discriminate Hok.
  symmetry.
  apply (instances_same_answer Australia 40 ∅ withBoth r).
  - by left.
  - intros k [x Hk]. by rewrite lookup_empty in Hk.
  - intros k x Hk. by rewrite lookup_empty in Hk.
  - simpl. rewrite map_size_empty. lia.
  - exact Hrun.
Defined.

(** ** Pruning never costs validations *)

Section counter.
Context (rec : nat → Assignment → state → outcome (option Assignment * state)).
Context (fuel : nat) (options : SolverOptions) (assignment : Assignment).
Hypothesis rec_counter :
  ∀ l a σ r σ', rec l a σ = Ok (r, σ') → debugCounter σ ≤ debugCounter σ'.

Lemma tryValues_counter csp c x values σ r σ' :
  tryValues rec fuel options assignment csp c x values σ = Ok (r, σ') →
  debugCounter σ ≤ debugCounter σ'.
Proof using rec_counter.
  revert σ. induction values as [|value values IH]; intros σ; simpl.
  { by intros [= _ <-]. }
  intros Hrun.
  assert (debugCounter σ ≤ debugCounter (countValidation σ)) as H0
    by (simpl; lia).
  revert H0 Hrun. generalize (countValidation σ). intros σ0 H0.
  destruct (validateConstraints _ _ _);
    [|intros Hrest%IH; lia].
  destruct (cloneDeep csp σ0) as [[newCsp σ1]| |] eqn:Hclone; try done.
  apply cloneDeep_Ok in Hclone as (c0 & _ & _ & _ & Hdc1).
  assert (∀ σ2, debugCounter σ0 ≤ debugCounter σ2 →
    match rec newCsp (<[x:=value]> assignment) σ2 with
    | Ok (Some result, σ3) => Ok (Some result, σ3)
    | Ok (None, σ3) => tryValues rec fuel options assignment csp c x values σ3
    | Throw => Throw
    | OutOfFuel => OutOfFuel
    end = Ok (r, σ') → debugCounter σ ≤ debugCounter σ') as Hdescend.
  { intros σ2 H2.
    destruct (rec _ _ σ2) as [[[result|] σ3]| |] eqn:Hrec; try done.
    - intros [= _ <-]. apply rec_counter in Hrec. lia.
    - intros Hrest%IH. apply rec_counter in Hrec. lia. }
  destruct (optForwardChecking options).
  - destruct (onObject _ newCsp σ1) as [[r1 σ2]| |] eqn:Hfc; try done.
    apply onObject_Ok in Hfc as (c1 & c2 & _ & _ & _ & Hdc2).
    destruct (truthy r1); [intros [= _ <-]; lia|apply Hdescend; lia].
  - apply Hdescend. lia.
Qed.

Lemma recursiveBacktracking_body_counter csp σ r σ' :
  recursiveBacktracking_body rec fuel options assignment csp σ = Ok (r, σ') →
  debugCounter σ ≤ debugCounter σ'.
Proof using rec_counter.
  unfold recursiveBacktracking_body. destruct (heap σ !! csp) as [c|]; [|done].
  destruct (Nat.eqb _ _); [by intros [= _ <-]|].
  assert (∀ l σ0, search rec fuel options assignment l σ0 = Ok (r, σ') →
            debugCounter σ0 ≤ debugCounter σ') as Hsearch.
  { intros l σ0. unfold search. destruct (heap σ0 !! l) as [c0|]; [|done].
    destruct (domains c0 !! _); [|done]. apply tryValues_counter. }
  destruct (optArcConsistency options); [|apply Hsearch].
  destruct (cloneDeep csp σ) as [[csp' σ1]| |] eqn:Hclone; try done.
  apply cloneDeep_Ok in Hclone as (c0 & _ & _ & _ & Hdc1).
  destruct (onObject _ csp' σ1) as [[wipeout σ2]| |] eqn:Hac; try done.
  apply onObject_Ok in Hac as (c1 & c2 & _ & _ & _ & Hdc2).
  destruct wipeout; [intros [= _ <-]; lia|].
  intros Hrun%Hsearch. lia.
Qed.
End counter.

Lemma recursiveBacktracking_counter fuel csp assignment options σ r σ' :
  recursiveBacktracking fuel csp assignment options σ = Ok (r, σ') →
  debugCounter σ ≤ debugCounter σ'.
Proof.
  revert csp assignment σ σ' r.
  induction fuel as [|fuel IH]; intros csp assignment σ σ' r; [done|].
  cbn [recursiveBacktracking]. apply recursiveBacktracking_body_counter.
  intros l a σ1 r1 σ1' Hrec. exact (IH l a σ1 σ1' r1 Hrec).
Qed.

(** From an assignment that leads nowhere plain search returns the
    absent result. *)
Lemma plain_dead fuel c lp (a : Assignment) σp :
  heap σp !! lp = Some c →
  NoDup (variables c) →
  (∀ v, v ∈ variables c → is_Some (domains c !! v)) →
  (∀ k, is_Some (a !! k) → k ∈ variables c) →
  within_domains c a →
  length (variables c) < fuel + size a →
  size a ≠ length (variables c) ∨
    validateConstraints a (constraints c) false = true →
  dead a c →
  ∃ σp', recursiveBacktracking fuel lp a plain σp = Ok (None, σp') ∧
         debugCounter σp ≤ debugCounter σp'.
Proof.
  intros Hcp Hnd Hdom Hkeys Hwithin Hfuel Hinit Hdead.
  pose proof (recursiveBacktracking_plain_basic fuel c lp a σp Hcp) as Href.
  rewrite (dead_None fuel c a) in Href by done.
  destruct (recursiveBacktracking fuel lp a plain σp) as [[r0 σp']| |] eqn:Hrun;
    try done.
  injection Href as ->. exists σp'. split; [done|].
  by eapply recursiveBacktracking_counter.
Qed.

Section counted.
Context (c : CSP).
Context (rec_o rec_p
  : nat → Assignment → state → outcome (option Assignment * state)).
Context (fuel : nat) (options : SolverOptions) (A B : nat).
Hypothesis rec_o_frame :
  ∀ l a σ r σ', rec_o l a σ = Ok (r, σ') → heap_extends σ σ'.
Hypothesis rec_p_frame :
  ∀ l a σ r σ', rec_p l a σ = Ok (r, σ') → heap_extends σ σ'.
Hypothesis rec_counted :
  ∀ l a σ c' lp σp r σ',
    heap σ !! l = Some c' → soundly_pruned a c c' →
    heap σp !! lp = Some c →
    (∀ k, is_Some (a !! k) → k ∈ variables c) →
    within_domains c a →
    length (variables c) < fuel + size a →
    debugCounter σ + B ≤ debugCounter σp + A →
    rec_o l a σ = Ok (r, σ') →
    ∃ σp', rec_p lp a σp = Ok (r, σp') ∧
           debugCounter σ' + B ≤ debugCounter σp' + A.
Hypothesis rec_p_dead :
  ∀ lp (a : Assignment) σp,
    heap σp !! lp = Some c →
    (∀ k, is_Some (a !! k) → k ∈ variables c) →
    within_domains c a →
    validateConstraints a (constraints c) false = true →
    length (variables c) < fuel + size a →
    dead a c →
    ∃ σp', rec_p lp a σp = Ok (None, σp') ∧
           debugCounter σp ≤ debugCounter σp'.

Lemma tryValues_counted assignment l c' lp u du d d' σ σp r σ' :
  heap σ !! l = Some c' → soundly_pruned assignment c c' →
  heap σp !! lp = Some c →
  (∀ k, is_Some (assignment !! k) → k ∈ variables c) →
  within_domains c assignment →
  u ∈ variables c → assignment !! u = None →
  domains c !! u = Some du → (∀ v, v ∈ d → v ∈ du) →
  is_Some (domains c' !! u) →
  length (variables c) < S fuel + size assignment →
  pruned (hopeless assignment c u) d d' →
  debugCounter σ + B ≤ debugCounter σp + A →
  tryValues rec_o fuel options assignment l c' u d' σ = Ok (r, σ') →
  ∃ σp', tryValues rec_p fuel plain assignment lp c u d σp = Ok (r, σp') ∧
         debugCounter σ' + B ≤ debugCounter σp' + A.
Proof using rec_o_frame rec_p_frame rec_counted rec_p_dead.
  intros Hc' Hrel Hcp Hkeys Hwithin Hu Hnone Hdu Hsub Hdom' Hfuel Hpr.
  revert σ σp Hc' Hcp Hsub.
  induction Hpr as [|x d d' Hpr IH|x d d' Hx Hpr IH];
    intros σ σp Hc' Hcp Hsub Hgap.
  - simpl. intros [= <- <-]. by exists σp.
  - assert (∀ v, v ∈ d → v ∈ du) as Hrest by (intros v Hv; apply Hsub; by right).
    assert (x ∈ du) as Hxdu by (apply Hsub; by left).
    simpl. pose proof Hrel as (Hv & HK & _). rewrite HK.
    set (σ0 := countValidation σ). set (σp0 := countValidation σp).
    assert (heap σ0 !! l = Some c') as Hc0 by done.
    assert (heap σp0 !! lp = Some c) as Hcp0 by done.
    assert (debugCounter σ0 + B ≤ debugCounter σp0 + A) as Hgap0
      by (simpl; lia).
    clearbody σ0 σp0. clear σ σp Hc' Hcp Hgap.
    destruct (validateConstraints _ _ _); [|by apply IH].
    destruct (cloneDeep l σ0) as [[newCsp σ1]| |] eqn:Hclone; try done.
    destruct (cloneDeep lp σp0) as [[newP σp1]| |] eqn:HcloneP;
      try (by unfold cloneDeep in HcloneP; rewrite Hcp0 in HcloneP).
    pose proof (cloneDeep_Ok _ _ _ _ Hclone) as (? & _ & _ & _ & Hdc1).
    pose proof (cloneDeep_Ok _ _ _ _ HcloneP) as (? & _ & _ & _ & Hdcp1).
    pose proof (keys_insert _ assignment u x Hu Hkeys) as Hkeys'.
    assert (within_domains c (<[u:=x]> assignment)) as Hwithin'.
    { intros k y [[<- <-]|[_ Hk]]%lookup_insert_Some; [by exists du|].
      by apply Hwithin. }
    assert (length (variables c) < fuel + size (<[u:=x]> assignment))
      as Hfuel'.
    { rewrite map_size_insert_None by done. lia. }
    assert (heap σp1 !! newP = Some c) as HcP1.
    { by rewrite (cloneDeep_lookup _ _ _ _ HcloneP). }
    assert (∀ σ2 c2, heap_extends σ0 σ2 → heap σ2 !! newCsp = Some c2 →
      soundly_pruned (<[u:=x]> assignment) c c2 →
      debugCounter σ2 = debugCounter σ0 →
      match rec_o newCsp (<[u:=x]> assignment) σ2 with
      | Ok (Some result, σ3) => Ok (Some result, σ3)
      | Ok (None, σ3) =>
          tryValues rec_o fuel options assignment l c' u d' σ3
      | Throw => Throw
      | OutOfFuel => OutOfFuel
      end = Ok (r, σ') →
      ∃ σp',
        match rec_p newP (<[u:=x]> assignment) σp1 with
        | Ok (Some result, σ3) => Ok (Some result, σ3)
        | Ok (None, σ3) => tryValues rec_p fuel plain assignment lp c u d σ3
        | Throw => Throw
        | OutOfFuel => OutOfFuel
        end = Ok (r, σp') ∧
        debugCounter σ' + B ≤ debugCounter σp' + A) as Hdescend.
    { intros σ2 c2 Hext Hc2 Hrel2 Hdc2.
      destruct (rec_o _ _ σ2) as [[[result|] σ3]| |] eqn:Hrec; try done.
      - intros [= <- <-].
        destruct (rec_counted _ _ _ _ newP σp1 _ _ Hc2 Hrel2 HcP1 Hkeys'
                    Hwithin' Hfuel' ltac:(lia) Hrec) as (σp3 & -> & Hgap3).
        by exists σp3.
      - destruct (rec_counted _ _ _ _ newP σp1 _ _ Hc2 Hrel2 HcP1 Hkeys'
                    Hwithin' Hfuel' ltac:(lia) Hrec) as (σp3 & HrecP & Hgap3).
        rewrite HrecP. apply IH; try done.
        + by eapply rec_o_frame, Hext.
        + eapply rec_p_frame; [done|]. by eapply cloneDeep_extends. }
    destruct (optForwardChecking options).
    + destruct (onObject _ newCsp σ1) as [[r1 σ2]| |] eqn:Hfc; try done.
      destruct (clone_then_write _ _ _ _ _ _ _ Hclone Hfc)
        as (Hext & c1 & c2 & Hc1 & Hrun & Hc2).
      pose proof (onObject_Ok _ _ _ _ _ Hfc) as (? & ? & _ & _ & _ & Hdc2).
      rewrite (forwardChecking_never_true _ _ _ _ _ _ Hrun).
      apply (Hdescend σ2 c2); [done..| |lia].
      assert (c1 = c') as -> by congruence.
      by eapply soundly_pruned_step.
    + apply (Hdescend σ1 c'); [by eapply cloneDeep_extends| | |done].
      * by rewrite (cloneDeep_lookup _ _ _ _ Hclone).
      * by apply soundly_pruned_insert.
  - assert (∀ v, v ∈ d → v ∈ du) as Hrest by (intros v Hv; apply Hsub; by right).
    assert (x ∈ du) as Hxdu by (apply Hsub; by left).
    intros Hrun. simpl.
    set (σp0 := countValidation σp).
    assert (heap σp0 !! lp = Some c) as Hcp0 by done.
    assert (debugCounter σ + B ≤ debugCounter σp0 + A) as Hgap0
      by (simpl; lia).
    clearbody σp0. clear σp Hcp Hgap.
    destruct (validateConstraints (<[u:=x]> assignment) (constraints c) false)
      eqn:Hval; [|by apply (IH σ σp0)].
    destruct (cloneDeep lp σp0) as [[newP σp1]| |] eqn:HcloneP;
      try (by unfold cloneDeep in HcloneP; rewrite Hcp0 in HcloneP).
    pose proof (cloneDeep_Ok _ _ _ _ HcloneP) as (? & _ & _ & _ & Hdcp1).
    destruct (rec_p_dead newP (<[u:=x]> assignment) σp1)
      as (σp3 & HrecP & Hdc3); try done.
    + by rewrite (cloneDeep_lookup _ _ _ _ HcloneP).
    + by apply keys_insert.
    + intros k y [[<- <-]|[_ Hk]]%lookup_insert_Some; [by exists du|].
      by apply Hwithin.
    + rewrite map_size_insert_None by done. lia.
    + intros S HS Htotal. apply (Hx S); [|done|].
      * transitivity (<[u:=x]> assignment); [by apply insert_subseteq|done].
      * apply (lookup_weaken _ _ _ _ (lookup_insert_eq _ _ _) HS).
    + rewrite HrecP. apply (IH σ σp3); try done; [|lia].
      eapply rec_p_frame; [done|]. by eapply cloneDeep_extends.
Qed.
End counted.

Lemma recursiveBacktracking_counted fuel c l c' lp a options σ σp r σ' A B :
  well_formed c →
  heap σ !! l = Some c' → soundly_pruned a c c' →
  heap σp !! lp = Some c →
  (∀ k, is_Some (a !! k) → k ∈ variables c) →
  within_domains c a →
  length (variables c) < fuel + size a →
  debugCounter σ + B ≤ debugCounter σp + A →
  recursiveBacktracking fuel l a options σ = Ok (r, σ') →
  ∃ σp', recursiveBacktracking fuel lp a plain σp = Ok (r, σp') ∧
         debugCounter σ' + B ≤ debugCounter σp' + A.
Proof.
  intros (Hnd & Hdom & Harcs). revert l c' lp a σ σp r σ'.
  induction fuel as [|fuel IH];
    intros l c' lp a σ σp r σ' Hc' Hrel Hcp Hkeys Hwithin Hfuel Hgap; [done|].
  cbn [recursiveBacktracking].
  unfold recursiveBacktracking_body. rewrite Hc', Hcp.
  pose proof Hrel as (Hv & _). rewrite Hv.
  destruct (Nat.eqb _ _) eqn:Hsize.
  { intros [= <- <-]. by exists σp. }
  pose proof Hsize as Hsize'. apply Nat.eqb_neq in Hsize'.
  destruct (pickUnassigned_found _ a Hnd Hkeys Hsize') as [Hu Hnone].
  cbn [optArcConsistency plain].
  assert (∀ l0 σ0 c0, heap σ0 !! l0 = Some c0 → soundly_pruned a c c0 →
    debugCounter σ0 = debugCounter σ →
    search (λ newCsp newAssignment σ1,
              recursiveBacktracking fuel newCsp newAssignment options σ1)
      fuel options a l0 σ0 = Ok (r, σ') →
    ∃ σp',
      search (λ newCsp newAssignment σ1,
                recursiveBacktracking fuel newCsp newAssignment plain σ1)
        fuel plain a lp σp = Ok (r, σp') ∧
      debugCounter σ' + B ≤ debugCounter σp' + A) as Hsearch.
  { intros l0 σ0 c0 Hc0 Hrel0 Hdc0. unfold search. rewrite Hc0, Hcp.
    pose proof Hrel0 as (Hv0 & _ & _ & _ & Hd0). rewrite Hv0.
    destruct (Hdom _ Hu) as [du Hdu].
    destruct (Hd0 (pickUnassigned (variables c) a)) as [_ Hp].
    specialize (Hp Hnone). rewrite Hdu in Hp. rewrite Hdu.
    destruct (domains c0 !! _) as [d'|] eqn:Hd'; [|done].
    apply (tryValues_counted c _ _ fuel options A B) with (du := du);
      try done; [| | | |lia].
    - intros l1 a1 σ1 r1 σ1'. apply recursiveBacktracking_extends.
    - intros l1 a1 σ1 r1 σ1'. apply recursiveBacktracking_extends.
    - intros l1 a1 σ1 c1 lp1 σp1 r1 σ1'. apply IH.
    - intros lp1 a1 σp1 Hcp1 Hk1 Hw1 Hval1 Hf1. apply plain_dead; try done.
      by right. }
  destruct (optArcConsistency options); [|by apply (Hsearch l σ c')].
  destruct (cloneDeep l σ) as [[csp' σ1]| |] eqn:Hclone; try done.
  destruct (onObject _ csp' σ1) as [[wipeout σ2]| |] eqn:Hac; try done.
  destruct (clone_then_write _ _ _ _ _ _ _ Hclone Hac)
    as (Hext & c1 & c2 & Hc1 & Hrun & Hc2).
  pose proof (cloneDeep_Ok _ _ _ _ Hclone) as (? & _ & _ & _ & Hdc1).
  pose proof (onObject_Ok _ _ _ _ _ Hac) as (? & ? & _ & _ & _ & Hdc2).
  assert (c1 = c') as -> by congruence.
  destruct (arcConsistency_sound a c _ _ _ _ Harcs Hrel Hrun) as [Hrel2 Hw].
  destruct wipeout; [|apply (Hsearch csp' σ2 c2); [done..|lia]].
  intros [= <- <-].
  destruct (plain_dead (S fuel) c lp a σp) as (σp' & Hplain & Hdc);
    try done; [by left|by apply Hw|].
  cbn [recursiveBacktracking] in Hplain.
  unfold recursiveBacktracking_body in Hplain.
  rewrite Hcp, Hsize in Hplain. cbn [optArcConsistency plain] in Hplain.
  exists σp'. split; [done|lia].
Qed.



Lemma thursdayAnswer_total :
  total_on (variables LionUnicorn) (domains LionUnicorn) thursdayAnswer.
Proof.
  intros v Hv. simpl in Hv.
  repeat (apply elem_of_cons in Hv as [->|Hv];
    [eexists _, _; split_and!;
       [vm_compute; reflexivity|vm_compute; reflexivity|
        apply (bool_decide_unpack _); by vm_compute]|]).
  by apply elem_of_nil in Hv.
Qed.


Lemma xy12_total :
  total_on (variables (pairCSP oneTwo oneTwo))
    (domains (pairCSP oneTwo oneTwo)) xy12.
Proof.
  intros v Hv. simpl in Hv.
  repeat (apply elem_of_cons in Hv as [->|Hv];
    [eexists _, _; split_and!;
       [vm_compute; reflexivity|vm_compute; reflexivity|
        apply (bool_decide_unpack _); by vm_compute]|]).
  by apply elem_of_nil in Hv.
Qed.

Lemma forwardChecking_keeps_solutions_witness :
  match forwardChecking 5 (pairCSP oneTwo oneTwo) "x" (VNumber 1) with
  | Ok (_, c') => total_on (variables c') (domains c') xy12
  | _ => False
  end.
Proof.
  assert (returned (forwardChecking 5 (pairCSP oneTwo oneTwo) "x"
                      (VNumber 1)) = true)
    as Hok by (vm_compute; reflexivity).
  destruct (forwardChecking 5 (pairCSP oneTwo oneTwo) "x" (VNumber 1))
    as [[r c']| |] eqn:Hrun; try discriminate Hok.
  apply (forwardChecking_keeps_solutions 5 (pairCSP oneTwo oneTwo) c' "x"
           (VNumber 1) r xy12).
  - exact Hrun.
  - apply xy12_total.
  - reflexivity.
  - reflexivity.
Defined.

(** ** The search with pruning is complete *)



(** ** Clustering: every step merges clusters, so the loop ends *)

Lemma abs_sub_sym (a b : Z) :
  Clustering.abs (Clustering.sub a b) = Clustering.abs (Clustering.sub b a).
Proof.
  unfold Clustering.abs, Clustering.sub. f_equal.
  unfold Clustering.wrap.
  pose proof (Z.mod_pos_bound (a - b + 2147483648) 4294967296 eq_refl).
  pose proof (Z.mod_pos_bound (b - a + 2147483648) 4294967296 eq_refl).
  pose proof (Z.div_mod (a - b + 2147483648) 4294967296 ltac:(done)).
  pose proof (Z.div_mod (b - a + 2147483648) 4294967296 ltac:(done)).
  lia.
Qed.

Lemma manhattanDistance_sym (a b : Clustering.Coord) :
  Clustering.manhattanDistance a b = Clustering.manhattanDistance b a.
Proof.
  destruct a as [[a1 a2] a3], b as [[b1 b2] b3]. simpl.
  by rewrite (abs_sub_sym a1), (abs_sub_sym a2), (abs_sub_sym a3).
Qed.

Lemma foldl_max x xs :
  (foldl Z.max x xs = x ∨ foldl Z.max x xs ∈ xs) ∧
  (x ≤ foldl Z.max x xs)%Z ∧
  ∀ y, y ∈ xs → (y ≤ foldl Z.max x xs)%Z.
Proof.
  revert x. induction xs as [|z xs IH]; intros x; simpl.
  { split_and!; [by left|lia|by intros y ?%elem_of_nil]. }
  destruct (IH (Z.max x z)) as ([Heq|Hin] & Hle & Hall).
  - split_and!; [|lia|].
    + rewrite Heq. destruct (Z.max_spec x z) as [[_ ->]|[_ ->]];
        [right; by left|by left].
    + intros y [->|Hy]%elem_of_cons; [lia|by apply Hall].
  - split_and!; [right; by right|lia|].
    intros y [->|Hy]%elem_of_cons; [lia|by apply Hall].
Qed.

Lemma foldl_min x xs :
  (foldl Z.min x xs = x ∨ foldl Z.min x xs ∈ xs) ∧
  (foldl Z.min x xs ≤ x)%Z ∧
  ∀ y, y ∈ xs → (foldl Z.min x xs ≤ y)%Z.
Proof.
  revert x. induction xs as [|z xs IH]; intros x; simpl.
  { split_and!; [by left|lia|by intros y ?%elem_of_nil]. }
  destruct (IH (Z.min x z)) as ([Heq|Hin] & Hle & Hall).
  - split_and!; [|lia|].
    + rewrite Heq. destruct (Z.min_spec x z) as [[_ ->]|[_ ->]];
        [by left|right; by left].
    + intros y [->|Hy]%elem_of_cons; [lia|by apply Hall].
  - split_and!; [right; by right|lia|].
    intros y [->|Hy]%elem_of_cons; [lia|by apply Hall].
Qed.

Lemma maxOf_Some xs m :
  Clustering.maxOf xs = Some m ↔ m ∈ xs ∧ ∀ y, y ∈ xs → (y ≤ m)%Z.
Proof.
  destruct xs as [|x xs]; simpl.
  { split; [done|by intros [?%elem_of_nil _]]. }
  destruct (foldl_max x xs) as (Hin & Hle & Hall). split.
  - intros [= <-]. split.
    + destruct Hin as [->|?]; [by left|by right].
    + intros y [->|Hy]%elem_of_cons; [done|by apply Hall].
  - intros [Hm Hmax]. f_equal.
    assert (foldl Z.max x xs ∈ x :: xs) as Hin'.
    { destruct Hin as [->|?]; [by left|by right]. }
    pose proof (Hmax _ Hin').
    assert (m ≤ foldl Z.max x xs)%Z; [|lia].
    apply elem_of_cons in Hm as [->|Hm]; [done|by apply Hall].
Qed.

Lemma minOf_Some xs m :
  Clustering.minOf xs = Some m → m ∈ xs ∧ ∀ y, y ∈ xs → (m ≤ y)%Z.
Proof.
  destruct xs as [|x xs]; simpl; [done|].
  destruct (foldl_min x xs) as (Hin & Hle & Hall).
  intros [= <-]. split.
  - destruct Hin as [->|?]; [by left|by right].
  - intros y [->|Hy]%elem_of_cons; [done|by apply Hall].
Qed.

Lemma linkage_elem_of (a b : list Clustering.Coord) x :
  x ∈ concat (map (λ left,
                     map (λ right, Clustering.manhattanDistance left right) b)
                  a) ↔
  ∃ left right, left ∈ a ∧ right ∈ b ∧
                x = Clustering.manhattanDistance left right.
Proof.
  rewrite list_elem_of_In, in_concat. split.
  - intros (l & Hl & Hx).
    apply in_map_iff in Hl as (left & <- & Hleft).
    apply in_map_iff in Hx as (right & <- & Hright).
    exists left, right. by rewrite !list_elem_of_In.
  - intros (left & right & Hleft & Hright & ->).
    exists (map (λ right, Clustering.manhattanDistance left right) b). split.
    + apply in_map_iff. exists left. by rewrite <-list_elem_of_In.
    + apply in_map_iff. exists right. by rewrite <-list_elem_of_In.
Qed.

Lemma linkage_sym (a b : list Clustering.Coord) m :
  Clustering.linkage a b = Some m → Clustering.linkage b a = Some m.
Proof.
  unfold Clustering.linkage. rewrite !maxOf_Some.
  setoid_rewrite linkage_elem_of. intros [Hm Hmax]. split.
  - destruct Hm as (left & right & ? & ? & ->).
    exists right, left. by rewrite manhattanDistance_sym.
  - intros y (left & right & ? & ? & ->). apply Hmax.
    exists right, left. by rewrite manhattanDistance_sym.
Qed.

Lemma Forall2_zip_l {A B : Type} (R : A → B → Prop) l k a :
  Forall2 R l k → a ∈ l → ∃ m, (a, m) ∈ zip l k ∧ R a m.
Proof.
  induction 1 as [|x y l k HR HF IH]; [by intros ?%elem_of_nil|].
  intros [->|Ha]%elem_of_cons.
  - exists y. split; [by left|done].
  - destruct (IH Ha) as (m & ? & ?). exists m. split; [by right|done].
Qed.

Lemma Forall2_zip_r {A B : Type} (R : A → B → Prop) l k m :
  Forall2 R l k → m ∈ k → ∃ a, (a, m) ∈ zip l k ∧ a ∈ l ∧ R a m.
Proof.
  induction 1 as [|x y l k HR HF IH]; [by intros ?%elem_of_nil|].
  intros [->|Hm]%elem_of_cons.
  - exists x. split_and!; [by left|by left|done].
  - destruct (IH Hm) as (a & ? & ? & ?). exists a.
    split_and!; [by right|by right|done].
Qed.

Lemma filter_two {A : Type} (P : A → Prop) `{!∀ x, Decision (P x)}
    (l : list A) x y :
  x ∈ l → y ∈ l → x ≠ y → P x → P y → 2 ≤ length (filter P l).
Proof.
  intros Hx Hy Hne HPx HPy.
  assert (x ∈ filter P l) as Hx' by by apply list_elem_of_filter.
  assert (y ∈ filter P l) as Hy' by by apply list_elem_of_filter.
  destruct (filter P l) as [|u [|v w]]; simpl; [|exfalso|lia].
  - by apply elem_of_nil in Hx'.
  - apply list_elem_of_singleton in Hx', Hy'. congruence.
Qed.

Lemma merge_partition {A B : Type} (R : list A → B → Prop)
    (P : list A * B → Prop) `{!∀ p, Decision (P p)} l k :
  Forall2 R l k →
  length (filter P (zip l k)) + length (filter (λ p, ¬ P p) (zip l k))
    = length l ∧
  concat (filter P (zip l k)).*1 ++ concat (filter (λ p, ¬ P p) (zip l k)).*1
    ≡ₚ concat l.
Proof.
  induction 1 as [|x y l k HR HF [IHlen IHperm]]; [done|].
  simpl. rewrite !filter_cons.
  destruct (decide (P (x, y))) as [HP|HP].
  - rewrite decide_False by tauto. simpl. split; [lia|].
    by rewrite <-app_assoc, IHperm.
  - rewrite decide_True by done. simpl. split; [lia|].
    rewrite <-IHperm.
    by rewrite (Permutation_app_comm x), !app_assoc,
         (Permutation_app_comm _ x), !app_assoc.
Qed.

Lemma minimumDistances_shortest input distances s a :
  Clustering.minimumDistances input = Some distances →
  Clustering.minOf distances = Some s →
  (a, s) ∈ zip input distances → a ∈ input →
  (mapM (Clustering.linkage a) (filter (λ b, b ≠ a) input)
     ≫= Clustering.minOf) = Some s →
  ∃ b, b ≠ a ∧ (b, s) ∈ zip input distances.
Proof.
  intros Hdist Hmin Ha Hain Hfa.
  apply mapM_Some in Hdist.
  apply minOf_Some in Hmin as [_ Hleast].
  apply bind_Some in Hfa as (ds & Hds & [Hs Hsmin]%minOf_Some).
  apply mapM_Some in Hds.
  destruct (Forall2_zip_r _ _ _ s Hds Hs) as (b & _ & Hb & Hlink).
  apply list_elem_of_filter in Hb as [Hne Hbin].
  exists b. split; [done|].
  destruct (Forall2_zip_l _ _ _ b Hdist Hbin) as (mb & Hbz & Hfb).
  assert (mb = s) as ->; [|done].
  assert (mb ∈ distances) as Hmb.
  { apply elem_of_zip_r in Hbz. done. }
  pose proof (Hleast _ Hmb).
  apply bind_Some in Hfb as (ds' & Hds' & [_ Hmbmin]%minOf_Some).
  apply mapM_Some in Hds'.
  assert (a ∈ filter (λ b0, b0 ≠ b) input) as Ha'.
  { apply list_elem_of_filter. split; [congruence|done]. }
  destruct (Forall2_zip_l _ _ _ a Hds' Ha') as (m' & Hm' & Hlink').
  apply linkage_sym in Hlink. assert (m' = s) as -> by congruence.
  apply elem_of_zip_r in Hm'. pose proof (Hmbmin _ Hm'). lia.
Qed.

Lemma iterate_merges input d new :
  Clustering.iterate input = Some (d, new) →
  length new < length input ∧ concat new ≡ₚ concat input.
Proof.
  unfold Clustering.iterate.
  intros (distances & Hdist & (s & Hmin & [= <- <-])%bind_Some)%bind_Some.
  pose proof Hdist as HF%mapM_Some.
  destruct (merge_partition _ (λ p : list Clustering.Coord * Z, p.2 = s)
              input distances HF) as [Hlen Hperm].
  split; [|done].
  pose proof Hmin as [Hs _]%minOf_Some.
  destruct (Forall2_zip_r _ _ _ s HF Hs) as (a & Ha & Hain & Hfa).
  destruct (minimumDistances_shortest input distances s a Hdist Hmin Ha Hain
              Hfa) as (b & Hne & Hb).
  assert (2 ≤ length (filter (λ p : list Clustering.Coord * Z, p.2 = s)
                        (zip input distances))) as Htwo.
  { apply (filter_two _ _ (a, s) (b, s)); try done. congruence. }
  simpl. rewrite length_fmap. lia.
Qed.

Lemma iterToCompletion_enough_fuel fuel input :
  length input < fuel →
  Clustering.iterToCompletion fuel input ≠ OutOfFuel.
Proof.
  revert input. induction fuel as [|fuel IH]; intros input Hfuel; [lia|].
  simpl. destruct (length input <=? 1); [done|].
  destruct (Clustering.iterate input) as [[d new]|] eqn:Hstep; [|done].
  apply iterate_merges in Hstep as [Hlt _].
  specialize (IH new ltac:(lia)).
  by destruct (Clustering.iterToCompletion fuel new).
Qed.

(** X30.  Clustering ends.  A step of the clustering program that
    returns leaves fewer clusters than it was given (the clusters at the
    shortest distance are at least two, because the distance between
    clusters is symmetric, 32-bit overflow included) and the same
    points; so [iterToCompletion] never needs more recursive calls than
    there are clusters. *)
Theorem clustering_ends (fuel : nat) (input : list (list Clustering.Coord)) :
  (∀ d new, Clustering.iterate input = Some (d, new) →
     length new < length input ∧ concat new ≡ₚ concat input) ∧
  (length input < fuel → Clustering.iterToCompletion fuel input ≠ OutOfFuel).
Proof.
  split; [apply iterate_merges|apply iterToCompletion_enough_fuel].
Qed.

Lemma clustering_ends_witness :
  Clustering.iterToCompletion 11 Clustering.data ≠ OutOfFuel.
Proof.
  apply (proj2 (clustering_ends 11 Clustering.data)). simpl. lia.
Defined.
